(** * Device synchronisation and log dispatch of the NativeScript CLI

    A shallow embedding of the four units that make up the live-sync core,
    and of the two services that fetch packages:

    - [AndroidLiveSync]: [AndroidDeviceLiveSyncServiceBase]
      ([transferFiles], [transferFilesCore], [getLocalToDevicePathsToTransfer],
      [getChangedLocalToDevicePaths]);
    - [PreviewLiveSync]: [PreviewAppLiveSyncService]
      ([initialize], [initializePreviewForDevice], [syncFiles],
      [syncFilesForPlatformSafe], [getFilesPayload], [createFilePayload],
      [showWarningsForNativeFiles]);
    - [LogParser]: [LogParserService]
      ([addParseRule], [processDeviceLogResponse]);
    - [HmrStatus]: [HmrStatusService]
      ([getHmrStatus], [attachToHmrStatusEvent], [handleHmrStatusFound],
      [getStatusByKey], [setData], [dispose]);
    - [Npm]: [NpmService]
      ([install], [isScopedDependency], [getDependencyInformation],
      [getNpmArguments], [npmInstall], [npmUninstall], [npmPrune],
      [executeNpmCommand], [installTypingsForDependency]);
    - [Pacote]: [PacoteService]
      ([manifest], [extractPackage], [getPacoteBaseOptions],
      [getRealPackageName]).

    JavaScript objects used as dictionaries are finite maps ([gmap]) keyed by
    strings, except the rule table of the log parser, whose iteration order
    matters and which is therefore an association list in the order in which
    the keys of an object are enumerated: array indices first, ascending,
    then the other keys in insertion order. Where the code reads such an
    object by truthiness (the rule table, the slots of the session
    initializer), a key that is not an own property reads as the member of
    [Object.prototype] of that name. The dependency patterns of [Npm] work
    on strings as lists of UTF-16 code units.
    Promises are identified by natural numbers; the places where the
    event loop hands control back to the code (a transport call settles, a
    timer fires, a hook calls in) are explicit events. *)

From Stdlib Require Import String Ascii List ZArith Lia Bool Sorted.
From stdpp Require Import base option gmap strings list.

Set Default Proof Using "Type".

(** ** Results of fallible calls *)

Inductive Result (E A : Type) : Type :=
| Ok (a : A)
| Err (e : E).
Arguments Ok {E A} a.
Arguments Err {E A} e.

(** * AndroidDeviceLiveSyncServiceBase *)

Module AndroidLiveSync.

Record LocalToDevicePathData := {
  getLocalPath : string;
  getDevicePath : string
}.

(** [ITransferFilesOptions]: an absent flag is falsy, hence [false]. *)
Record ITransferFilesOptions := {
  force : bool;
  isFullSync : bool
}.

(** The calls made on the device (its file system and the two abstract
    transfer methods), in the order the service issues them. *)
Inductive TransportOp :=
| DeleteFile (devicePath appIdentifier : string)
| TransferDirectoryOnDevice (paths : list LocalToDevicePathData)
                            (projectFilesPath : string)
| TransferFilesOnDevice (paths : list LocalToDevicePathData)
| GetShasumsFromDevice (appIdentifier : string)
| UpdateHashesOnDevice (hashes : gmap string string) (appIdentifier : string).

(** What the service can observe of a device: per application identifier the
    stored table of hashes (no entry: no hash file on the device), and the
    calls issued so far, oldest first. *)
Record Device := {
  shasums : gmap string (gmap string string);
  oplog : list TransportOp
}.

Inductive TransferError :=
| TransportError (op : TransportOp).

(** A computation on the device that may reject. *)
Definition M (A : Type) : Type := Device -> Result TransferError A * Device.

Definition ret {A} (a : A) : M A := fun d => (Ok a, d).

Definition bind {A B} (k : A -> M B) (m : M A) : M B :=
  fun d =>
    match m d with
    | (Ok a, d') => k a d'
    | (Err e, d') => (Err e, d')
    end.

#[global] Instance M_ret : MRet M := @ret.
#[global] Instance M_bind : MBind M := @bind.

(** Modelled from the spec: [getChangedShasums] of the device hash service is
    not part of the sources. Section 4.1: a path is changed if it is absent
    from the stored table or its stored fingerprint differs from the current
    one. *)
Definition getChangedShasums (oldHashes currentHashes : gmap string string)
  : gmap string string :=
  filter (fun ph => oldHashes !! ph.1 <> Some ph.2) currentHashes.

(** [_.keys]. *)
Definition keys (m : gmap string string) : list string := (map_to_list m).*1.

Section Service.

(** [hashFileDevicePath] of the device hash service of an application. *)
Variable hashFileDevicePath : string -> string.

(** Whether the device acknowledges a call; a call that is not acknowledged
    rejects. *)
Variable acknowledged : TransportOp -> bool.

(** Modelled from the spec: the effect of the device file system calls on
    the stored table is not part of the sources. Section 4.1: [clear] drops
    the whole table of a device (here: deleting the hash file), [commit]
    replaces or merges the entries for exactly the paths given. The transfer
    methods are abstract and do not touch the table. *)
Definition effect (op : TransportOp) (tables : gmap string (gmap string string))
  : gmap string (gmap string string) :=
  match op with
  | DeleteFile p app =>
      if decide (p = hashFileDevicePath app) then delete app tables else tables
  | UpdateHashesOnDevice hashes app =>
      <[app := hashes ∪ default ∅ (tables !! app)]> tables
  | _ => tables
  end.

Definition call (op : TransportOp) : M unit :=
  fun d =>
    if acknowledged op
    then (Ok tt, {| shasums := effect op (shasums d); oplog := oplog d ++ [op] |})
    else (Err (TransportError op), {| shasums := shasums d; oplog := oplog d ++ [op] |}).

Definition getShasumsFromDevice (app : string) : M (option (gmap string string)) :=
  fun d =>
    match call (GetShasumsFromDevice app) d with
    | (Ok _, d') => (Ok (shasums d !! app), d')
    | (Err e, d') => (Err e, d')
    end.

Definition getChangedLocalToDevicePaths (appIdentifier : string)
    (localToDevicePaths : list LocalToDevicePathData)
    (currentHashes : gmap string string) : M (list LocalToDevicePathData) :=
  stored ← getShasumsFromDevice appIdentifier;
  let oldHashes := default ∅ stored in
  let changedHashes := getChangedShasums oldHashes currentHashes in
  let changedFiles := keys changedHashes in
  mret (filter (fun p => getLocalPath p ∈ changedFiles) localToDevicePaths).

Definition getLocalToDevicePathsToTransfer (appIdentifier : string)
    (localToDevicePaths : list LocalToDevicePathData)
    (currentHashes : gmap string string) (options : ITransferFilesOptions)
  : M (list LocalToDevicePathData) :=
  if force options || negb (isFullSync options)
  then mret localToDevicePaths
  else getChangedLocalToDevicePaths appIdentifier localToDevicePaths currentHashes.

Definition transferFilesCore (appIdentifier : string)
    (localToDevicePaths : list LocalToDevicePathData) (projectFilesPath : string)
    (currentHashes : gmap string string) (options : ITransferFilesOptions)
  : M (list LocalToDevicePathData) :=
  if force options && isFullSync options
  then
    call (DeleteFile (hashFileDevicePath appIdentifier) appIdentifier);;
    call (TransferDirectoryOnDevice localToDevicePaths projectFilesPath);;
    mret localToDevicePaths
  else
    toTransfer ← getLocalToDevicePathsToTransfer appIdentifier localToDevicePaths
                    currentHashes options;
    call (TransferFilesOnDevice toTransfer);;
    mret toTransfer.

(** [generateHashesFromLocalToDevicePaths] hashes the local files. *)
Variable generateHashesFromLocalToDevicePaths :
  list LocalToDevicePathData -> gmap string string.

Definition transferFiles (appIdentifier : string)
    (localToDevicePaths : list LocalToDevicePathData) (projectFilesPath : string)
    (options : ITransferFilesOptions) : M (list LocalToDevicePathData) :=
  let currentHashes := generateHashesFromLocalToDevicePaths localToDevicePaths in
  transferredFiles ← transferFilesCore appIdentifier localToDevicePaths
                        projectFilesPath currentHashes options;
  call (UpdateHashesOnDevice currentHashes appIdentifier);;
  mret transferredFiles.

End Service.

(** The file a transfer was asked to push is "changed" with respect to a
    stored table when its current hash is absent from the table or differs
    from the stored one. *)
Definition changed (stored current : gmap string string) (p : LocalToDevicePathData)
  : Prop :=
  exists h, current !! getLocalPath p = Some h /\ stored !! getLocalPath p <> Some h.

(** A transfer call pushes files; the other calls are bookkeeping. *)
Definition is_push (op : TransportOp) : bool :=
  match op with
  | TransferDirectoryOnDevice _ _ | TransferFilesOnDevice _ => true
  | _ => false
  end.

Definition is_commit (op : TransportOp) : bool :=
  match op with
  | UpdateHashesOnDevice _ _ => true
  | _ => false
  end.

(** Sample data used for the concrete runs below. *)
Definition sampleHashFile (app : string) : string :=
  "/data/local/tmp/" +:+ app +:+ "/hashes".
Definition mainJs : LocalToDevicePathData :=
  {| getLocalPath := "app/main.js"; getDevicePath := "/data/app/main.js" |}.
Definition sampleHashes : gmap string string := {["app/main.js" := "1f"]}.
Definition syncedDevice : Device :=
  {| shasums := {["org.app" := sampleHashes]}; oplog := [] |}.
Definition incremental : ITransferFilesOptions :=
  {| force := false; isFullSync := false |}.
Definition forcedFull : ITransferFilesOptions :=
  {| force := true; isFullSync := true |}.
Definition fullUnforced : ITransferFilesOptions :=
  {| force := false; isFullSync := true |}.
Definition forcedIncremental : ITransferFilesOptions :=
  {| force := true; isFullSync := false |}.

(** A second file, and the hashes of the files of a list once [app/main.js]
    has been edited. *)
Definition otherJs : LocalToDevicePathData :=
  {| getLocalPath := "app/other.js"; getDevicePath := "/data/app/other.js" |}.
Definition editedHashes (paths : list LocalToDevicePathData) : gmap string string :=
  list_to_map
    (map (fun p => (getLocalPath p,
                    if String.eqb (getLocalPath p) "app/main.js" then "2b" else "07"))
       paths).

End AndroidLiveSync.

(** * JavaScript strings and regular expressions *)

Module JS.

(** Truthiness of a value that is a string when present: [undefined], [null]
    and the empty string are falsy. *)
Definition truthy (s : option string) : bool :=
  match s with
  | Some (String _ _) => true
  | _ => false
  end.

Definition in_range (lo hi : nat) (c : ascii) : bool :=
  (lo <=? nat_of_ascii c)%nat && (nat_of_ascii c <=? hi)%nat.

Definition is_upper (c : ascii) : bool := in_range 65 90 c.
Definition is_lower (c : ascii) : bool := in_range 97 122 c.
Definition is_digit (c : ascii) : bool := in_range 48 57 c.

Fixpoint map_chars (f : ascii -> ascii) (s : string) : string :=
  match s with
  | EmptyString => EmptyString
  | String c s' => String (f c) (map_chars f s')
  end.

(** [toLowerCase], on the ASCII letters. *)
Definition toLowerCase (s : string) : string :=
  map_chars (fun c => if is_upper c then ascii_of_nat (nat_of_ascii c + 32) else c) s.

(** [s.split("\n")]: the pieces between line feeds; there is always at least
    one piece. *)
Fixpoint split_lines (s : string) : list string :=
  match s with
  | EmptyString => [EmptyString]
  | String c s' =>
      if Ascii.eqb c "010"
      then EmptyString :: split_lines s'
      else match split_lines s' with
           | l :: ls => String c l :: ls
           | [] => [String c EmptyString]
           end
  end.

Fixpoint trimStart (s : string) : string :=
  match s with
  | String c s' => if Ascii.is_space c then trimStart s' else s
  | EmptyString => EmptyString
  end.

Fixpoint trimEnd (s : string) : string :=
  match s with
  | String c s' =>
      match trimEnd s' with
      | EmptyString => if Ascii.is_space c then EmptyString else String c EmptyString
      | t => String c t
      end
  | EmptyString => EmptyString
  end.

(** [trim], on the ASCII white space. *)
Definition trim (s : string) : string := trimEnd (trimStart s).

(** [s.indexOf(needle) === -1] is [String.index 0 needle s = None]. *)
Definition includes (needle s : string) : bool :=
  match String.index 0 needle s with
  | Some _ => true
  | None => false
  end.

(** A plain object ([{}]) used as a dictionary. Reading [object[key]] finds
    the own property of that name, and otherwise what [Object.prototype]
    holds under it: for the names below a function, or for [__proto__] the
    prototype itself, all truthy. *)
Definition objectPrototypeMembers : list string :=
  ["constructor"; "__defineGetter__"; "__defineSetter__"; "hasOwnProperty";
   "__lookupGetter__"; "__lookupSetter__"; "isPrototypeOf";
   "propertyIsEnumerable"; "toString"; "valueOf"; "__proto__"; "toLocaleString"].

Definition inherited (key : string) : bool :=
  existsb (String.eqb key) objectPrototypeMembers.

(** The own properties of an object are enumerated ([Object.keys], and with
    it [_.forEach] and [_.keys]) with the array indices first, in ascending
    numeric order, and then the other names in the order of their creation.
    An array index is the canonical decimal form of an integer below
    [2^32 - 1]. *)
Fixpoint digits (s : string) (acc : N) : option N :=
  match s with
  | EmptyString => Some acc
  | String c s' =>
      if is_digit c
      then digits s' (10 * acc + (N_of_ascii c - 48))%N
      else None
  end.

Definition arrayIndex (key : string) : option N :=
  match key with
  | EmptyString => None
  | String "0" EmptyString => Some 0%N
  | String "0" (String _ _) => None
  | String _ _ =>
      match digits key 0 with
      | Some n => if (n <? 4294967295)%N then Some n else None
      | None => None
      end
  end.

(** A new property [key] is enumerated before the existing property [k]. *)
Definition comesBefore (key k : string) : bool :=
  match arrayIndex key, arrayIndex k with
  | Some i, Some j => (i <? j)%N
  | Some _, None => true
  | None, _ => false
  end.

End JS.

(** The fragment of regular expressions the services use: literals, a greedy
    star over a character class, capture groups and concatenation, matched by
    backtracking as [RegExp.prototype.exec] does for a pattern without flags. *)
Module RegExp.

Inductive regex :=
| Lit (s : string)
| ClassStar (cls : ascii -> bool)
| Capture (r : regex)
| Cat (r1 r2 : regex).

Fixpoint stripPrefix (p s : string) : option string :=
  match p, s with
  | EmptyString, _ => Some s
  | String a p', String b s' => if Ascii.eqb a b then stripPrefix p' s' else None
  | String _ _, EmptyString => None
  end.

Section Matcher.
Context {R : Type}.

(** [cls*] at [s], having consumed [acc]: the longest run first, then each
    shorter one, until the continuation accepts. *)
Fixpoint classStar (cls : ascii -> bool) (s acc : string)
    (k : string -> string -> option R) : option R :=
  match s with
  | String c s' =>
      if cls c
      then match classStar cls s' (acc +:+ String c EmptyString) k with
           | Some r => Some r
           | None => k acc s
           end
      else k acc s
  | EmptyString => k acc s
  end.

(** [matchAt r s caps k]: match [r] at the start of [s]; the continuation
    receives the text consumed, the rest of the input and the captures. A
    group reserves its slot when it opens and fills it when it closes. *)
Fixpoint matchAt (r : regex) (s : string) (caps : list string)
    (k : string -> string -> list string -> option R) : option R :=
  match r with
  | Lit l =>
      match stripPrefix l s with
      | Some rest => k l rest caps
      | None => None
      end
  | ClassStar cls => classStar cls s EmptyString (fun text rest => k text rest caps)
  | Capture r' =>
      matchAt r' s (caps ++ [EmptyString])
        (fun text rest caps' => k text rest (<[length caps := text]> caps'))
  | Cat r1 r2 =>
      matchAt r1 s caps
        (fun text1 rest1 caps1 =>
           matchAt r2 rest1 caps1
             (fun text2 rest2 caps2 => k (text1 +:+ text2) rest2 caps2))
  end.
End Matcher.

(** [r.exec(s)]: the leftmost match; element 0 is the matched text, the
    others are the groups. *)
Fixpoint exec (r : regex) (s : string) : option (list string) :=
  match matchAt r s [] (fun text _ caps => Some (text :: caps)) with
  | Some m => Some m
  | None =>
      match s with
      | String _ s' => exec r s'
      | EmptyString => None
      end
  end.

End RegExp.

(** * LogParserService *)

Module LogParser.

Definition RegExpMatchArray := list string.

Inductive LogError :=
| FailWithoutHelp (message : string)
| Thrown (message : string).

(** One test of a rule's pattern against a line; the handler of the rule is
    called exactly when the test matched. *)
Record Evaluation := {
  rule : string;
  line : string;
  matched : option RegExpMatchArray
}.

Section Service.

(** The state the handlers of the rules act on. *)
Variable St : Type.

Record ILogParseRule := {
  regex : string -> option RegExpMatchArray;
  handler : RegExpMatchArray -> string -> St -> Result LogError unit * St;
  name : string;
  platform : option string
}.

(** [parseRules], a plain object, as the list of its own properties in the
    order [_.forEach] visits them: the names that are array indices first, in
    numeric order, then the others in the order of insertion. [listening] is
    set once [startParsingLogCore] has subscribed to the log sources. *)
Record LogParserService := {
  parseRules : list (string * ILogParseRule);
  listening : bool
}.

Definition emptyService : LogParserService :=
  {| parseRules := []; listening := false |}.

(** The own property of a name. *)
Fixpoint ownRule (key : string) (rules : list (string * ILogParseRule))
  : option ILogParseRule :=
  match rules with
  | [] => None
  | (k, r) :: rest => if decide (k = key) then Some r else ownRule key rest
  end.

(** What reading [rules[key]] gives: a rule of the table, a member of
    [Object.prototype], or [undefined]. The first two are truthy. *)
Inductive Property :=
| OwnRule (r : ILogParseRule)
| InheritedMember
| Undefined.

Definition getRule (key : string) (rules : list (string * ILogParseRule))
  : Property :=
  match ownRule key rules with
  | Some r => OwnRule r
  | None => if JS.inherited key then InheritedMember else Undefined
  end.

(** [rules[key] = r] for a name that is an own property: it keeps its
    place. *)
Fixpoint replaceRule (key : string) (r : ILogParseRule)
    (rules : list (string * ILogParseRule)) : list (string * ILogParseRule) :=
  match rules with
  | [] => []
  | (k, r') :: rest =>
      if decide (k = key) then (k, r) :: rest else (k, r') :: replaceRule key r rest
  end.

(** [rules[key] = r] for a new name: it takes its place in the order of
    enumeration. *)
Fixpoint createRule (key : string) (r : ILogParseRule)
    (rules : list (string * ILogParseRule)) : list (string * ILogParseRule) :=
  match rules with
  | [] => [(key, r)]
  | (k, r') :: rest =>
      if JS.comesBefore key k
      then (key, r) :: (k, r') :: rest
      else (k, r') :: createRule key r rest
  end.

(** [rules[key] = r]. The assignment is reached for names that read as
    [undefined] only; none of them is [__proto__]. *)
Definition setRule (key : string) (r : ILogParseRule)
    (rules : list (string * ILogParseRule)) : list (string * ILogParseRule) :=
  match ownRule key rules with
  | Some _ => replaceRule key r rules
  | None => createRule key r rules
  end.

(** Modelled from the spec: [failWithoutHelp] of the errors service is not
    part of the sources. Sections 4.6 and 7: registration under an existing
    name fails, and the failure is fatal to the registration call only; so
    the call throws. *)
Definition failWithoutHelp {A} (message : string) (s : LogParserService)
  : Result LogError A * LogParserService :=
  (Err (FailWithoutHelp message), s).

(** [startParsingLogCore] is decorated with [cache]: its body, the two
    subscriptions to the device log event, runs on the first call only.
    [listening] tells that it has run. *)
Definition startParsingLogCore (s : LogParserService) : LogParserService :=
  {| parseRules := parseRules s; listening := true |}.

Definition addParseRule (r : ILogParseRule) (s : LogParserService)
  : Result LogError unit * LogParserService :=
  match getRule (name r) (parseRules s) with
  | OwnRule _ | InheritedMember =>
      failWithoutHelp "Log parse rule already exists." s
  | Undefined =>
      (Ok tt,
       startParsingLogCore
         {| parseRules := setRule (name r) r (parseRules s);
            listening := listening s |})
  end.

(** The guard of [processDeviceLogResponse]. *)
Definition applies (devicePlatform : option string) (r : ILogParseRule) : bool :=
  negb (JS.truthy devicePlatform)
  || negb (JS.truthy (platform r))
  || String.eqb (JS.toLowerCase (default EmptyString (platform r)))
                (JS.toLowerCase (default EmptyString devicePlatform)).

Record Dispatch := {
  outcome : Result LogError unit;
  state : St;
  evaluations : list Evaluation
}.

Definition evaluated (e : Evaluation) (d : Dispatch) : Dispatch :=
  {| outcome := outcome d; state := state d; evaluations := e :: evaluations d |}.

(** The inner [_.forEach], over the rules, for one line. An exception of a
    handler is not caught, so it ends the loop. *)
Fixpoint forEachRule (rules : list (string * ILogParseRule)) (l : string)
    (deviceIdentifier : string) (devicePlatform : option string) (st : St)
  : Dispatch :=
  match rules with
  | [] => {| outcome := Ok tt; state := st; evaluations := [] |}
  | (key, r) :: rest =>
      if applies devicePlatform r
      then
        let matches := regex r l in
        let e := {| rule := key; line := l; matched := matches |} in
        match matches with
        | Some m =>
            match handler r m deviceIdentifier st with
            | (Ok _, st') =>
                evaluated e (forEachRule rest l deviceIdentifier devicePlatform st')
            | (Err err, st') =>
                {| outcome := Err err; state := st'; evaluations := [e] |}
            end
        | None => evaluated e (forEachRule rest l deviceIdentifier devicePlatform st)
        end
      else forEachRule rest l deviceIdentifier devicePlatform st
  end.

(** The outer [_.forEach], over the lines. *)
Fixpoint forEachLine (rules : list (string * ILogParseRule)) (lines : list string)
    (deviceIdentifier : string) (devicePlatform : option string) (st : St)
  : Dispatch :=
  match lines with
  | [] => {| outcome := Ok tt; state := st; evaluations := [] |}
  | l :: rest =>
      let d := forEachRule rules l deviceIdentifier devicePlatform st in
      match outcome d with
      | Ok _ =>
          let d' := forEachLine rules rest deviceIdentifier devicePlatform (state d) in
          {| outcome := outcome d'; state := state d';
             evaluations := evaluations d ++ evaluations d' |}
      | Err _ => d
      end
  end.

Definition processDeviceLogResponse (s : LogParserService) (message : string)
    (deviceIdentifier : string) (devicePlatform : option string) (st : St)
  : Dispatch :=
  forEachLine (parseRules s) (JS.split_lines message) deviceIdentifier
    devicePlatform st.

End Service.

Arguments regex {St} _ _.
Arguments handler {St} _ _ _ _.
Arguments name {St} _.
Arguments platform {St} _.
Arguments parseRules {St} _.
Arguments listening {St} _.
Arguments emptyService {St}.
Arguments ownRule {St} _ _.
Arguments OwnRule {St} _.
Arguments InheritedMember {St}.
Arguments Undefined {St}.
Arguments getRule {St} _ _.
Arguments replaceRule {St} _ _ _.
Arguments createRule {St} _ _ _.
Arguments setRule {St} _ _ _.
Arguments addParseRule {St} _ _.
Arguments applies {St} _ _.
Arguments outcome {St} _.
Arguments state {St} _.
Arguments evaluations {St} _.
Arguments forEachRule {St} _ _ _ _ _.
Arguments forEachLine {St} _ _ _ _ _.
Arguments processDeviceLogResponse {St} _ _ _ _ _.

(** The tests one line goes through while no handler throws: one for each rule
    that applies, in the order of the table. *)
Definition evaluationsOf {St} (rules : list (string * ILogParseRule St))
    (devicePlatform : option string) (l : string) : list Evaluation :=
  map (fun kr => {| rule := kr.1; line := l; matched := regex kr.2 l |})
    (filter (fun kr => applies devicePlatform kr.2 = true) rules).

(** Several registrations in a row; the first that throws ends them. *)
Fixpoint addParseRules {St} (rules : list (ILogParseRule St))
    (s : LogParserService St) : Result LogError unit * LogParserService St :=
  match rules with
  | [] => (Ok tt, s)
  | r :: rest =>
      match addParseRule r s with
      | (Ok _, s') => addParseRules rest s'
      | (Err e, s') => (Err e, s')
      end
  end.

(** Sample rules, over a state that records whether the second handler ran:
    both match every line; the handler of the first throws. *)
Definition throwingRule : ILogParseRule bool :=
  {| regex := fun l => Some [l];
     handler := fun _ _ st => (Err (Thrown "handler failed"), st);
     name := "first";
     platform := None |}.
Definition markingRule : ILogParseRule bool :=
  {| regex := fun l => Some [l];
     handler := fun _ _ _ => (Ok tt, true);
     name := "second";
     platform := None |}.
Definition twoRules : LogParserService bool :=
  {| parseRules := [("first", throwingRule); ("second", markingRule)];
     listening := true |}.
Definition oneRule : LogParserService bool :=
  {| parseRules := [("second", markingRule)]; listening := true |}.

(** A rule for one platform, and a table that holds it before an unfiltered
    rule. *)
Definition androidRule : ILogParseRule bool :=
  {| regex := fun l => if JS.includes "JS:" l then Some [l] else None;
     handler := fun _ _ st => (Ok tt, st);
     name := "android";
     platform := Some "Android" |}.
Definition filteredRules : LogParserService bool :=
  {| parseRules := [("android", androidRule); ("second", markingRule)];
     listening := true |}.
Definition twoLines : string := "JS: a" +:+ String "010" "b".

(** A rule under a given name, that matches no line. *)
Definition namedRule (key : string) : ILogParseRule bool :=
  {| regex := fun _ => None;
     handler := fun _ _ st => (Ok tt, st);
     name := key;
     platform := None |}.

End LogParser.

(** * HmrStatusService *)

Module HmrStatus.

Definition STARTED_MESSAGE : string := "Checking for updates to the bundle with".
Definition SUCCESS_MESSAGE : string := "Successfully applied update with".
Definition FAILED_MESSAGE : string := "Cannot apply update with".

(** The character classes of the pattern: a letter or a space; a lower-case
    letter or a digit. *)
Definition letterOrSpace (c : ascii) : bool :=
  JS.is_lower c || Ascii.eqb c " " || JS.is_upper c.
Definition lowerOrDigit (c : ascii) : bool :=
  JS.is_lower c || JS.is_digit c.

(** The pattern of a status line: a group of any number of letters and
    spaces, the text [ hmr hash ] between single spaces, a group of any number
    of lower-case letters and digits, and a full stop. *)
Definition HMR_STATUS_LOG_REGEX : RegExp.regex :=
  RegExp.Cat (RegExp.Capture (RegExp.ClassStar letterOrSpace))
    (RegExp.Cat (RegExp.Lit " hmr hash ")
       (RegExp.Cat (RegExp.Capture (RegExp.ClassStar lowerOrDigit))
          (RegExp.Lit "."))).

(** The closure of one [setInterval] callback of [getHmrStatus]: the key it
    polls and its [retryCount]. *)
Record Timer := {
  key : string;
  retryCount : Z
}.

(** The service and the part of the runtime it drives.
    - [hashOperationStatuses]: key to the [status] of its entry;
    - [intervals]: key to the handle stored for it ([None] once set to [null]);
    - [timers]: the intervals the runtime will still fire, by handle;
    - [promises]: the value each promise returned by [getHmrStatus] was
      resolved with ([None]: [null]); a promise that is absent is pending;
    - [nextHandle]: the handle the next [setInterval] returns; the promise of
      a call is identified with the handle of its interval. *)
Record Service := {
  hashOperationStatuses : gmap string Z;
  intervals : gmap string (option nat);
  timers : gmap nat Timer;
  promises : gmap nat (option Z);
  nextHandle : nat
}.

Definition emptyService : Service :=
  {| hashOperationStatuses := ∅; intervals := ∅; timers := ∅; promises := ∅;
     nextHandle := 0 |}.

(** Truthiness of a status: [null] and [0] are falsy. *)
Definition truthy (status : option Z) : bool :=
  match status with
  | Some z => negb (z =? 0)%Z
  | None => false
  end.

Definition getStatusByKey (k : string) (s : Service) : option Z :=
  hashOperationStatuses s !! k.

Definition setData (status : Z) (operationHash deviceId : string) (s : Service)
  : Service :=
  let k := deviceId +:+ operationHash in
  {| hashOperationStatuses := <[k := status]> (hashOperationStatuses s);
     intervals := intervals s; timers := timers s; promises := promises s;
     nextHandle := nextHandle s |}.

(** [clearInterval(handle)]; clearing [null] or [undefined] does nothing. *)
Definition clearInterval (handle : option (option nat)) (running : gmap nat Timer)
  : gmap nat Timer :=
  match handle with
  | Some (Some h) => delete h running
  | _ => running
  end.

(** [resolve(value)] of the promise [p]; a settled promise stays as it is. *)
Definition resolve (p : nat) (value : option Z) (settled : gmap nat (option Z))
  : gmap nat (option Z) :=
  match settled !! p with
  | Some _ => settled
  | None => <[p := value]> settled
  end.

(** [getHmrStatus]: the executor of the promise runs at once and installs the
    interval. Returns the handle, which names the promise as well. *)
Definition getHmrStatus (deviceId operationHash : string) (s : Service)
  : nat * Service :=
  let k := deviceId +:+ operationHash in
  let h := nextHandle s in
  (h, {| hashOperationStatuses := hashOperationStatuses s;
         intervals := <[k := Some h]> (intervals s);
         timers := <[h := {| key := k; retryCount := 40 |}]> (timers s);
         promises := promises s;
         nextHandle := S h |}).

(** One firing, 250 ms after the previous one, of the interval with handle
    [h]; an interval that was cleared does not fire. *)
Definition tick (h : nat) (s : Service) : Service :=
  match timers s !! h with
  | None => s
  | Some t =>
      let status := getStatusByKey (key t) s in
      if truthy status || (retryCount t =? 0)%Z
      then
        {| hashOperationStatuses := hashOperationStatuses s;
           intervals := <[key t := None]> (intervals s);
           timers := clearInterval (intervals s !! key t) (timers s);
           promises := resolve h status (promises s);
           nextHandle := nextHandle s |}
      else
        {| hashOperationStatuses := hashOperationStatuses s;
           intervals := intervals s;
           timers := <[h := {| key := key t; retryCount := retryCount t - 1 |}]>
                       (timers s);
           promises := promises s;
           nextHandle := nextHandle s |}
  end.

(** [dispose]: clears every interval recorded in [intervals]. *)
Definition dispose (s : Service) : Service :=
  {| hashOperationStatuses := hashOperationStatuses s;
     intervals := (fun _ => None) <$> intervals s;
     timers := map_fold (fun _ handle running => clearInterval (Some handle) running)
                 (timers s) (intervals s);
     promises := promises s;
     nextHandle := nextHandle s |}.

Section Constants.

(** [HmrConstants.HMR_SUCCESS_STATUS] and [HmrConstants.HMR_ERROR_STATUS]. *)
Variables HMR_SUCCESS_STATUS HMR_ERROR_STATUS : Z.

(** [matches[1]] is required ([trim] is called on it); a missing
    [matches[2]] is interpolated into the key as ["undefined"]. *)
Definition handleHmrStatusFound (matches : LogParser.RegExpMatchArray)
    (deviceId : string) (s : Service)
  : Result LogParser.LogError unit * Service :=
  match matches !! 1%nat with
  | None => (Err (LogParser.Thrown "Cannot read property 'trim' of undefined"), s)
  | Some group =>
      let message := JS.trim group in
      let hash := default "undefined" (matches !! 2%nat) in
      let status :=
        if decide (message = SUCCESS_MESSAGE) then Some HMR_SUCCESS_STATUS
        else if decide (message = FAILED_MESSAGE) then Some HMR_ERROR_STATUS
        else None in
      if truthy status
      then (Ok tt, setData (default 0%Z status) hash deviceId s)
      else (Ok tt, s)
  end.

(** The rule [attachToHmrStatusEvent] registers. *)
Definition hmrStatusRule : LogParser.ILogParseRule Service :=
  {| LogParser.regex := RegExp.exec HMR_STATUS_LOG_REGEX;
     LogParser.handler := handleHmrStatusFound;
     LogParser.name := "hmrStatus";
     LogParser.platform := None |}.

(** Modelled from the spec: the decorator [cache] is not part of the
    sources. Section 6 has the core subscribe once per process lifetime: a
    decorated method runs its body on the first call only. [called] tells
    whether the method was called before; after any call it has been. *)
Definition attachToHmrStatusEvent (called : bool)
    (parser : LogParser.LogParserService Service)
  : Result LogParser.LogError unit * LogParser.LogParserService Service :=
  if called then (Ok tt, parser) else LogParser.addParseRule hmrStatusRule parser.

(** What can happen to the service, as the event loop delivers it. *)
Inductive Event :=
| GetHmrStatus (deviceId operationHash : string)
| Tick (handle : nat)
| StatusFound (matches : LogParser.RegExpMatchArray) (deviceId : string)
| Dispose.

Definition step (s : Service) (e : Event) : Service :=
  match e with
  | GetHmrStatus deviceId operationHash => (getHmrStatus deviceId operationHash s).2
  | Tick h => tick h s
  | StatusFound matches deviceId => (handleHmrStatusFound matches deviceId s).2
  | Dispose => dispose s
  end.

Definition run (events : list Event) (s : Service) : Service :=
  fold_left step events s.

End Constants.

(** A status line of the protocol. *)
Definition statusLine (verb hash : string) : string :=
  verb +:+ " hmr hash " +:+ hash +:+ ".".

Fixpoint allChars (cls : ascii -> bool) (s : string) : bool :=
  match s with
  | EmptyString => true
  | String c s' => cls c && allChars cls s'
  end.

Definition notLineFeed (c : ascii) : bool := negb (Ascii.eqb c "010").

(** The chunks that carry one status line: the line alone, or the line
    followed by a line feed. *)
Definition chunk (terminated : bool) (l : string) : string :=
  if terminated then l +:+ String "010" EmptyString else l.

(** Handles and promises from [nextHandle] on are still unused. *)
Definition fresh (s : Service) : Prop :=
  forall h, (nextHandle s <= h)%nat -> timers s !! h = None /\ promises s !! h = None.

(** Two waits on one key, then both intervals firing in turn [n] times. *)
Fixpoint rounds (n : nat) : list Event :=
  match n with
  | O => []
  | S n' => Tick 0 :: Tick 1 :: rounds n'
  end.

Definition overlappingWaits : list Event :=
  GetHmrStatus "dev-1" "abc123" :: GetHmrStatus "dev-1" "abc123" :: rounds 41.

End HmrStatus.

(** * PreviewAppLiveSyncService *)

Module PreviewLiveSync.

(** [PreviewSdkEventNames]: the two events a file payload can carry. *)
Inductive PreviewSdkEventNames :=
| CHANGE_EVENT_NAME
| UNLINK_EVENT_NAME.

Record FilePayload := {
  event : PreviewSdkEventNames;
  file : string;
  binary : bool;
  fileContents : string
}.

Record FilesPayload := {
  files : list FilePayload;
  platform : string
}.

Record IPlatformData := {
  appDestinationDirectoryPath : string;
  normalizedPlatformName : string
}.

Record IProjectData := {
  projectDir : string
}.

Record IProjectFileInfo := {
  filePath : string;
  onDeviceFileName : string
}.

(** What the service takes from the constants of the CLI, from Node and from
    its collaborators. Reading a file may throw ([None]). *)
Record Host := {
  TNS_MODULES_FOLDER_NAME : string;
  APP_RESOURCES_FOLDER_NAME : string;
  APP_FOLDER_NAME : string;
  basename : string -> string;
  extname : string -> string;
  dirname : string -> string;
  join : string -> string -> string;
  relative : string -> string -> string;
  getProjectFileInfo : string -> string -> IProjectFileInfo;
  mapFilePath : string -> string -> string;
  isBinarySync : string -> bool;
  readFile : string -> option string;
  readText : string -> option string;
  base64 : string -> string
}.

Definition excludedFileExtensions : list string := [".ts"; ".sass"; ".scss"; ".less"].
Definition excludedFiles : list string := [".DS_Store"].

Section Payloads.

Variable host : Host.

Definition createFilePayload (f : string) (platformData : IPlatformData)
    (projectData : IProjectData) (ev : PreviewSdkEventNames) : option FilePayload :=
  let projectFileInfo :=
    getProjectFileInfo host f (normalizedPlatformName platformData) in
  let isBinary := isBinarySync host f in
  match ev with
  | CHANGE_EVENT_NAME =>
      let relativePath :=
        relative host
          (join host (appDestinationDirectoryPath platformData) (APP_FOLDER_NAME host))
          f in
      let devicePath :=
        join host (dirname host relativePath) (onDeviceFileName projectFileInfo) in
      contents ←
        (if isBinary
         then base64 host <$> readFile host f
         else readText host
                (join host (dirname host (filePath projectFileInfo))
                   (onDeviceFileName projectFileInfo)));
      Some {| event := ev; file := devicePath; binary := isBinary;
              fileContents := contents |}
  | UNLINK_EVENT_NAME =>
      Some {| event := ev;
              file := relative host
                        (join host (projectDir projectData) (APP_FOLDER_NAME host)) f;
              binary := isBinary;
              fileContents := EmptyString |}
  end.

(** An absent [filesToRemove] is the empty list. *)
Definition getFilesPayload (platformData : IPlatformData) (projectData : IProjectData)
    (filesToSync filesToRemove : list string) : option FilesPayload :=
  let filesToTransfer :=
    filter (fun f => negb (bool_decide (extname host f ∈ excludedFileExtensions)))
      (filter (fun f => negb (bool_decide (basename host f ∈ excludedFiles)))
         (filter (fun f => negb (JS.includes (APP_RESOURCES_FOLDER_NAME host) f))
            (filter (fun f => negb (JS.includes (TNS_MODULES_FOLDER_NAME host) f))
               filesToSync))) in
  payloadsToSync ←
    mapM (fun f => createFilePayload f platformData projectData CHANGE_EVENT_NAME)
      filesToTransfer;
  payloadsToRemove ←
    mapM (fun f => createFilePayload f platformData projectData UNLINK_EVENT_NAME)
      filesToRemove;
  Some {| files := payloadsToSync ++ payloadsToRemove;
          platform := JS.toLowerCase (normalizedPlatformName platformData) |}.

Record SyncOptions := {
  filesToSync : list string;
  filesToRemove : list string;
  isInitialSync : bool;
  skipPrepare : bool
}.

(** What [syncFilesForPlatformSafe] resolves with. [prepared] and [applied]
    tell whether [preparePlatform] and [applyChanges] succeed, and
    [projectFiles] is what [getProjectFiles] lists. Whatever is thrown
    inside is caught and logged, and the result is then [undefined]
    ([None]). *)
Definition syncFilesForPlatformSafe (prepared applied : bool)
    (projectFiles : list string) (platformData : IPlatformData)
    (projectData : IProjectData) (opts : SyncOptions) : option FilesPayload :=
  if negb (skipPrepare opts) && negb prepared then None
  else if isInitialSync opts
  then getFilesPayload platformData projectData projectFiles []
  else
    payloads ←
      getFilesPayload platformData projectData
        (map (fun f => mapFilePath host f (normalizedPlatformName platformData))
           (filesToSync opts))
        (filesToRemove opts);
    if applied then Some payloads else None.

End Payloads.

(** ** The session initializer *)

Record Device := {
  id : string;
  devicePlatform : string
}.

Inductive Outcome :=
| Fulfilled (payloads : option FilesPayload)
| Rejected (reason : string).

(** What a call of the callback given to the SDK returns: it throws before
    anything is started, or its result is that of the initialization promise
    [p], or it is the member of [Object.prototype] that the slot of the
    device reads as. *)
Inductive CallResult :=
| Throws (message : string)
| Follows (p : nat)
| Inherits (member : string).

(** - [deviceInitializationPromise]: device id to the promise in its slot
      ([None] once the slot was set to [null]);
    - [started]: the calls of [initializePreviewForDevice] so far, each with
      the promise it returned and the id of its device;
    - [awaiting]: the callbacks suspended at [await], by the promise they wait
      for, each with the device whose slot its [finally] clears;
    - [settled]: the outcome of the promises that have settled. *)
Record Initializer := {
  deviceInitializationPromise : gmap string (option nat);
  started : list (nat * string);
  awaiting : gmap nat string;
  settled : gmap nat Outcome;
  nextPromise : nat
}.

Definition emptyInitializer : Initializer :=
  {| deviceInitializationPromise := ∅; started := []; awaiting := ∅; settled := ∅;
     nextPromise := 0 |}.

(** The call of [initializePreviewForDevice] and the assignment of its
    promise to the slot of the device. *)
Definition startInitialization (device : Device) (s : Initializer)
  : CallResult * Initializer :=
  let p := nextPromise s in
  (Follows p,
   {| deviceInitializationPromise :=
        <[id device := Some p]> (deviceInitializationPromise s);
      started := started s ++ [(p, id device)];
      awaiting := <[p := id device]> (awaiting s);
      settled := settled s;
      nextPromise := S p |}).

(** The callback [initialize] hands to the SDK, up to its [await].
    [deviceInitializationPromise] is a plain object: a slot that is not an
    own property reads as the member of [Object.prototype] of that name, if
    there is one, and that member is truthy. *)
Definition initialize (device : option Device) (s : Initializer)
  : CallResult * Initializer :=
  match device with
  | None =>
      (Throws "Sending initial preview files without a specified device is not supported.",
       s)
  | Some device =>
      match deviceInitializationPromise s !! id device with
      | Some (Some p) => (Follows p, s)
      | Some None => startInitialization device s
      | None =>
          if JS.inherited (id device)
          then (Inherits (id device), s)
          else startInitialization device s
      end
  end.

(** The promise [p] of an initialization settles: the callback that awaits it
    resumes, and its [finally] sets the slot of its device to [null]. *)
Definition settle (p : nat) (o : Outcome) (s : Initializer) : Initializer :=
  match awaiting s !! p with
  | Some device =>
      {| deviceInitializationPromise :=
           <[device := None]> (deviceInitializationPromise s);
         started := started s;
         awaiting := delete p (awaiting s);
         settled := <[p := o]> (settled s);
         nextPromise := nextPromise s |}
  | None => s
  end.

Inductive SessionEvent :=
| Connected (device : option Device)
| Settled (p : nat) (o : Outcome).

Definition sessionStep (s : Initializer) (e : SessionEvent) : Initializer :=
  match e with
  | Connected device => (initialize device s).2
  | Settled p o => settle p o s
  end.

Definition sessionRun (events : list SessionEvent) (s : Initializer) : Initializer :=
  fold_left sessionStep events s.

Definition settles (p : nat) (e : SessionEvent) : bool :=
  match e with
  | Settled q _ => bool_decide (q = p)
  | Connected _ => false
  end.

(** The initializations started for one device. *)
Definition startedFor (device : string) (s : Initializer) : list (nat * string) :=
  filter (fun start => start.2 = device) (started s).

(** Every suspended callback owns the slot of its device, and waits for a
    promise that has been created. *)
Definition consistent (s : Initializer) : Prop :=
  forall p device,
    awaiting s !! p = Some device ->
    deviceInitializationPromise s !! device = Some (Some p)
    /\ (p < nextPromise s)%nat.

(** The initialization [p] of [device] is in flight. *)
Definition inFlight (p : nat) (device : string) (s : Initializer) : Prop :=
  deviceInitializationPromise s !! device = Some (Some p)
  /\ awaiting s !! p = Some device.

(** No call has started an initialization for [device], nothing is suspended
    for it, and its slot is not an own property of
    [deviceInitializationPromise]. *)
Definition untouched (device : string) (s : Initializer) : Prop :=
  deviceInitializationPromise s !! device = None
  /\ (forall p, awaiting s !! p <> Some device)
  /\ startedFor device s = [].

(** ** The sync requests of the preview hook

    The closure of one [initializePreviewForDevice]: [filesToSyncMap], the
    variable [promise], and what is suspended on it.
    - [settledCycles]: the promises that have settled; promise 0 is the
      resolved promise the variable starts with;
    - [thenCallbacks]: the callbacks given to [promise.then] that have not
      run yet, oldest first, each with the promise it was attached to and its
      platform;
    - [resets]: the calls of [startSyncFilesTimeout] suspended at their
      [await], each with the cycle it waits for and its platform;
    - [cycles]: the calls of [syncFilesForPlatformSafe], each with its
      promise, its platform and the [filesToSync] it was given. *)
Record Scheduler := {
  filesToSyncMap : gmap string (list string);
  promise : nat;
  settledCycles : gset nat;
  thenCallbacks : list (nat * string);
  resets : list (nat * string);
  cycles : list (nat * string * list string);
  nextCycle : nat
}.

Definition newScheduler : Scheduler :=
  {| filesToSyncMap := ∅; promise := 0; settledCycles := {[0%nat]};
     thenCallbacks := []; resets := []; cycles := []; nextCycle := 1 |}.

(** [startSyncFilesTimeout(platform)], up to its [await]: the callback is
    attached to the promise the variable holds now. *)
Definition startSyncFilesTimeout (platform : string) (s : Scheduler) : Scheduler :=
  {| filesToSyncMap := filesToSyncMap s; promise := promise s;
     settledCycles := settledCycles s;
     thenCallbacks := thenCallbacks s ++ [(promise s, platform)];
     resets := resets s; cycles := cycles s; nextCycle := nextCycle s |}.

(** The callback given to [then]: it calls [syncFilesForPlatformSafe] with the
    list the map holds for the platform now, stores the promise of the call in
    the variable and awaits it. *)
Definition startCycle (s : Scheduler) (platform : string) : Scheduler :=
  let c := nextCycle s in
  {| filesToSyncMap := filesToSyncMap s; promise := c;
     settledCycles := settledCycles s;
     thenCallbacks := thenCallbacks s;
     resets := resets s ++ [(c, platform)];
     cycles := cycles s ++ [(c, platform, default [] (filesToSyncMap s !! platform))];
     nextCycle := S c |}.

Definition isSettled (s : Scheduler) (entry : nat * string) : bool :=
  bool_decide (entry.1 ∈ settledCycles s).

(** The callbacks whose promise has settled run, oldest first. *)
Definition runCallbacks (s : Scheduler) : Scheduler :=
  let ready := filter (fun cb => isSettled s cb = true) (thenCallbacks s) in
  let waiting := filter (fun cb => isSettled s cb = false) (thenCallbacks s) in
  fold_left (fun s' cb => startCycle s' cb.2) ready
    {| filesToSyncMap := filesToSyncMap s; promise := promise s;
       settledCycles := settledCycles s; thenCallbacks := waiting;
       resets := resets s; cycles := cycles s; nextCycle := nextCycle s |}.

(** The calls whose cycle has settled resume and empty the list of their
    platform. *)
Definition runResets (s : Scheduler) : Scheduler :=
  let ready := filter (fun r => isSettled s r = true) (resets s) in
  let waiting := filter (fun r => isSettled s r = false) (resets s) in
  {| filesToSyncMap :=
       fold_left (fun m r => <[r.2 := []]> m) ready (filesToSyncMap s);
     promise := promise s; settledCycles := settledCycles s;
     thenCallbacks := thenCallbacks s; resets := waiting; cycles := cycles s;
     nextCycle := nextCycle s |}.

(** What reaches the closure from outside: the hook stores a list for a
    platform in the map it was handed, the hook asks for a sync, the promise
    of a cycle settles (it always fulfils: [syncFilesForPlatformSafe] catches
    what is thrown), and the queue of microtasks is run. In that queue the
    callbacks attached to a settled promise come before the resumption of the
    call that awaited it: the call awaits the promise returned by [then],
    which settles only after the callback's own [await] of the cycle has
    resumed; by then the callbacks attached to the cycle are in the queue,
    ahead of it. *)
Inductive SyncEvent :=
| HookStores (platform : string) (filesToSync : list string)
| HookStartsSync (platform : string)
| CycleSettles (c : nat)
| Microtasks.

Definition syncStep (s : Scheduler) (e : SyncEvent) : Scheduler :=
  match e with
  | HookStores platform filesToSync =>
      {| filesToSyncMap := <[platform := filesToSync]> (filesToSyncMap s);
         promise := promise s; settledCycles := settledCycles s;
         thenCallbacks := thenCallbacks s; resets := resets s; cycles := cycles s;
         nextCycle := nextCycle s |}
  | HookStartsSync platform => startSyncFilesTimeout platform s
  | CycleSettles c =>
      {| filesToSyncMap := filesToSyncMap s; promise := promise s;
         settledCycles := {[c]} ∪ settledCycles s;
         thenCallbacks := thenCallbacks s; resets := resets s; cycles := cycles s;
         nextCycle := nextCycle s |}
  | Microtasks => runResets (runCallbacks s)
  end.

Definition syncRun (events : list SyncEvent) (s : Scheduler) : Scheduler :=
  fold_left syncStep events s.

Definition isRequest (e : SyncEvent) : bool :=
  match e with
  | HookStartsSync _ => true
  | _ => false
  end.

(** Requests answered by a cycle, plus requests still waiting for one. *)
Definition served (s : Scheduler) : nat :=
  length (cycles s) + length (thenCallbacks s).

(** Two requests for one platform while the cycle [c] runs, then the end of
    [c]. *)
Definition twoRequestsDuring (c : nat) (platform : string)
    (first second : list string) : list SyncEvent :=
  [HookStores platform first; HookStartsSync platform;
   HookStores platform second; HookStartsSync platform;
   CycleSettles c; Microtasks].

(** ** Syncing changed files to the connected devices *)

(** [_.uniq]: the first occurrence of each value, in order. *)
Fixpoint uniq (l : list string) : list string :=
  match l with
  | [] => []
  | x :: rest => x :: filter (fun y => y <> x) (uniq rest)
  end.

(** What one call of [syncFiles] does: the warnings it logs, the devices
    whose plugins it compared, the sync cycles it ran, each with its platform
    and what it resolved with, and the rejection of the call if there is
    one. *)
Record SyncFilesRun := {
  warnings : list string;
  compared : list Device;
  synced : list (string * option FilesPayload);
  rejection : option string
}.

Section SyncFiles.

Variable host : Host.

(** [comparePluginsOnDevice] resolves ([None]) or rejects with a reason;
    [prepared], [applied], [projectFiles] and [getPlatformData] are as for
    [syncFilesForPlatformSafe], by platform. *)
Variable comparePluginsOnDevice : Device -> option string.
Variables prepared applied : string -> bool.
Variable projectFiles : string -> list string.
Variable getPlatformData : string -> IPlatformData.
Variable projectData : IProjectData.

Definition nativeFilesWarning : string :=
  "Unable to apply changes from " +:+ APP_RESOURCES_FOLDER_NAME host
  +:+ " folder. You need to build your application in order to make changes in "
  +:+ APP_RESOURCES_FOLDER_NAME host +:+ " folder.".

Definition showWarningsForNativeFiles (files : list string) : list string :=
  map (fun _ => nativeFilesWarning)
    (filter (fun f => JS.includes (APP_RESOURCES_FOLDER_NAME host) f = true) files).

(** The first loop of [syncFiles]: a rejection is not caught and ends it. *)
Fixpoint compareAll (devices : list Device) : list Device * option string :=
  match devices with
  | [] => ([], None)
  | device :: rest =>
      match comparePluginsOnDevice device with
      | Some reason => ([device], Some reason)
      | None => let '(seen, failure) := compareAll rest in (device :: seen, failure)
      end
  end.

(** [syncFiles] reads [connectedDevices] twice: [devices] is what the first
    loop sees, [devicesLater] what the list of platforms is made from. *)
Definition syncFiles (devices devicesLater : list Device)
    (filesToSync filesToRemove : list string) : SyncFilesRun :=
  let logged := showWarningsForNativeFiles filesToSync in
  let '(seen, failure) := compareAll devices in
  match failure with
  | Some reason =>
      {| warnings := logged; compared := seen; synced := []; rejection := Some reason |}
  | None =>
      let platforms := uniq (map devicePlatform devicesLater) in
      {| warnings := logged; compared := seen;
         synced :=
           map (fun platform =>
                  (platform,
                   syncFilesForPlatformSafe host (prepared platform) (applied platform)
                     (projectFiles platform) (getPlatformData platform) projectData
                     {| filesToSync := filesToSync; filesToRemove := filesToRemove;
                        isInitialSync := false; skipPrepare := false |}))
             platforms;
         rejection := None |}
  end.

End SyncFiles.

(** A file to sync that none of the four filters of [getFilesPayload]
    removes. *)
Definition kept (host : Host) (f : string) : bool :=
  negb (JS.includes (TNS_MODULES_FOLDER_NAME host) f)
  && negb (JS.includes (APP_RESOURCES_FOLDER_NAME host) f)
  && negb (bool_decide (basename host f ∈ excludedFiles))
  && negb (bool_decide (extname host f ∈ excludedFileExtensions)).

(** The read that [createFilePayload] makes for a change entry succeeds. *)
Definition readable (host : Host) (platformData : IPlatformData) (f : string) : Prop :=
  let projectFileInfo :=
    getProjectFileInfo host f (normalizedPlatformName platformData) in
  if isBinarySync host f
  then is_Some (readFile host f)
  else is_Some (readText host
                  (join host (dirname host (filePath projectFileInfo))
                     (onDeviceFileName projectFileInfo))).

(** The entry of a file to remove. *)
Definition unlinkEntry (host : Host) (projectData : IProjectData) (f : string)
  : FilePayload :=
  {| event := UNLINK_EVENT_NAME;
     file := relative host (join host (projectDir projectData) (APP_FOLDER_NAME host)) f;
     binary := isBinarySync host f;
     fileContents := EmptyString |}.

(** ** Sample data *)

Fixpoint lastIndexOf (c : ascii) (s : string) : option nat :=
  match s with
  | EmptyString => None
  | String a s' =>
      match lastIndexOf c s' with
      | Some i => Some (S i)
      | None => if Ascii.eqb a c then Some 0%nat else None
      end
  end.

(** Path functions in the manner of Node's POSIX [path], for the sample. *)
Definition posixBasename (p : string) : string :=
  match lastIndexOf "/" p with
  | Some i => String.substring (S i) (String.length p - S i) p
  | None => p
  end.
Definition posixDirname (p : string) : string :=
  match lastIndexOf "/" p with
  | Some i => String.substring 0 i p
  | None => "."
  end.
Definition posixExtname (p : string) : string :=
  let b := posixBasename p in
  match lastIndexOf "." b with
  | Some (S i) => String.substring (S i) (String.length b - S i) b
  | _ => EmptyString
  end.
Definition posixRelative (from to : string) : string :=
  default to (RegExp.stripPrefix (from +:+ "/") to).
(** [path.join] of two segments that need no other normalising than the
    removal of a first segment that is [.] or empty. *)
Definition posixJoin (a b : string) : string :=
  if String.eqb a "." || String.eqb a EmptyString then b else a +:+ "/" +:+ b.

Definition sampleHost : Host :=
  {| TNS_MODULES_FOLDER_NAME := "tns_modules";
     APP_RESOURCES_FOLDER_NAME := "App_Resources";
     APP_FOLDER_NAME := "app";
     basename := posixBasename;
     extname := posixExtname;
     dirname := posixDirname;
     join := posixJoin;
     relative := posixRelative;
     getProjectFileInfo := fun f _ =>
       {| filePath := f; onDeviceFileName := posixBasename f |};
     mapFilePath := fun f _ => f;
     isBinarySync := fun _ => false;
     readFile := fun _ => Some "";
     readText := fun _ => Some "";
     base64 := fun s => s |}.
Definition samplePlatform : IPlatformData :=
  {| appDestinationDirectoryPath := "platforms/android"; normalizedPlatformName := "Android" |}.
Definition sampleProject : IProjectData := {| projectDir := "project" |}.
Definition device1 : Device := {| id := "device-1"; devicePlatform := "android" |}.
Definition device2 : Device := {| id := "device-2"; devicePlatform := "ios" |}.
Definition device3 : Device := {| id := "device-3"; devicePlatform := "android" |}.

(** A host on which one file cannot be read. *)
Definition lockedHost : Host :=
  {| TNS_MODULES_FOLDER_NAME := TNS_MODULES_FOLDER_NAME sampleHost;
     APP_RESOURCES_FOLDER_NAME := APP_RESOURCES_FOLDER_NAME sampleHost;
     APP_FOLDER_NAME := APP_FOLDER_NAME sampleHost;
     basename := basename sampleHost;
     extname := extname sampleHost;
     dirname := dirname sampleHost;
     join := join sampleHost;
     relative := relative sampleHost;
     getProjectFileInfo := getProjectFileInfo sampleHost;
     mapFilePath := mapFilePath sampleHost;
     isBinarySync := isBinarySync sampleHost;
     readFile := readFile sampleHost;
     readText := fun f =>
       if String.eqb f "platforms/android/app/locked.js" then None else Some "";
     base64 := base64 sampleHost |}.

End PreviewLiveSync.

(** * NpmService *)

Module Npm.

(** A JavaScript string as the list of its UTF-16 code units. A [string]
    of characters below 128 stands for the JavaScript string with the same
    characters, one code unit each. *)
Definition codeUnits (s : string) : list N :=
  map N_of_ascii (list_ascii_of_string s).

(** The fragment of regular expressions of the two dependency patterns: a
    character, a lazy run of one or more characters of a class, a numbered
    capture group, an optional part and concatenation. Both patterns are
    anchored at the start and at the end of the input and have no flags. *)
Inductive pattern :=
| Chr (c : N)
| LazyPlus (cls : N -> bool)
| Group (i : nat) (p : pattern)
| Opt (p : pattern)
| Seq (p q : pattern).

Section Matcher.
Context {R : Type}.

(** A lazy run at [s], having consumed [acc]: the shortest run first, then
    each longer one, until the continuation accepts. *)
Fixpoint lazyPlus (cls : N -> bool) (s acc : list N)
    (k : list N -> list N -> option R) : option R :=
  match s with
  | c :: s' =>
      if cls c
      then match k (acc ++ [c]) s' with
           | Some r => Some r
           | None => lazyPlus cls s' (acc ++ [c]) k
           end
      else None
  | [] => None
  end.

(** [matchAt p s caps k]: match [p] at the start of [s]; the continuation
    receives the text consumed, the rest of the input and the groups. An
    optional part is tried first and skipped if nothing after it matches;
    the groups of a part that was skipped stay undefined. *)
Fixpoint matchAt (p : pattern) (s : list N) (caps : gmap nat (list N))
    (k : list N -> list N -> gmap nat (list N) -> option R) : option R :=
  match p with
  | Chr c =>
      match s with
      | c' :: s' => if (c =? c')%N then k [c] s' caps else None
      | [] => None
      end
  | LazyPlus cls => lazyPlus cls s [] (fun text rest => k text rest caps)
  | Group i p' =>
      matchAt p' s caps (fun text rest caps' => k text rest (<[i := text]> caps'))
  | Opt p' =>
      match matchAt p' s caps k with
      | Some r => Some r
      | None => k [] s caps
      end
  | Seq p1 p2 =>
      matchAt p1 s caps
        (fun text1 rest1 caps1 =>
           matchAt p2 rest1 caps1
             (fun text2 rest2 caps2 => k (text1 ++ text2) rest2 caps2))
  end.
End Matcher.

(** [s.match(re)] for a pattern between [^] and [$]: the text matched and
    the groups, or [null]. *)
Definition matchWhole (p : pattern) (s : list N)
  : option (list N * gmap nat (list N)) :=
  matchAt p s ∅
    (fun text rest caps =>
       match rest with
       | [] => Some (text, caps)
       | _ :: _ => None
       end).

(** The dot: any code unit but a line terminator (line feed, carriage
    return, line separator, paragraph separator). *)
Definition dot (c : N) : bool :=
  negb ((c =? 10) || (c =? 13) || (c =? 8232) || (c =? 8233))%N.

(** The code unit of [@]. *)
Definition commercialAt : N := 64.

Definition versionPart : pattern :=
  Opt (Seq (Chr commercialAt) (Group 2 (LazyPlus dot))).
Definition SCOPED_DEPENDENCY_REGEXP : pattern :=
  Seq (Group 1 (Seq (Chr commercialAt) (LazyPlus dot))) versionPart.
Definition DEPENDENCY_REGEXP : pattern :=
  Seq (Group 1 (LazyPlus dot)) versionPart.

Definition TYPES_DIRECTORY : string := "@types/".

Definition isScopedDependency (dependency : list N) : bool :=
  match matchWhole SCOPED_DEPENDENCY_REGEXP dependency with
  | Some (_ :: _, _) => true
  | _ => false
  end.

Record IDependencyInformation := {
  name : option (list N);
  version : option (list N)
}.

(** [None]: the pattern does not match, and reading [matches[1]] throws. *)
Definition getDependencyInformation (dependency : list N)
  : option IDependencyInformation :=
  let regExp :=
    if isScopedDependency dependency
    then SCOPED_DEPENDENCY_REGEXP else DEPENDENCY_REGEXP in
  match matchWhole regExp dependency with
  | Some (_, groups) =>
      Some {| name := groups !! 1%nat; version := groups !! 2%nat |}
  | None => None
  end.

(** An absent [npmArguments] is the empty list. *)
Definition getNpmArguments (command : string) (npmArguments : option (list string))
  : list string :=
  default [] npmArguments ++ [command].

(** The arguments [executeNpmCommand] hands to [executeNpmCommandCore]; an
    absent, null or empty [dependency] or [version] is falsy. *)
Definition executeNpmCommand (npmArguments : list string)
    (dependency version : option string) : list string :=
  if JS.truthy dependency
  then
    let dependencyToInstall :=
      if JS.truthy version
      then default EmptyString dependency +:+ "@" +:+ default EmptyString version
      else default EmptyString dependency in
    npmArguments ++ [dependencyToInstall]
  else npmArguments.

Definition npmInstall (dependency version : option string)
    (npmArguments : option (list string)) : list string :=
  executeNpmCommand (getNpmArguments "install" npmArguments) dependency version.

Definition npmUninstall (dependency : option string)
    (npmArguments : option (list string)) : list string :=
  executeNpmCommand (getNpmArguments "uninstall" npmArguments) dependency None.

Definition npmPrune (dependency version : option string) : list string :=
  executeNpmCommand (getNpmArguments "prune" None) dependency version.

Definition installTypingsForDependency (dependency : string) : list string :=
  npmInstall (Some (TYPES_DIRECTORY +:+ dependency)) None
    (Some ["--save-dev"; "--save-exact"]).

Record INpmDependency := {
  dependencyName : string;
  dependencyVersion : option string;
  installTypes : bool
}.

Record InstallResult := {
  isInstalled : bool;
  isTypesInstalled : bool
}.

Record INpmInstallResult := {
  result : option InstallResult;
  error : option string
}.

(** One call of [install]: the argument lists npm was spawned with, the
    packages whose types were looked up in the registry, and what the call
    resolves with or is rejected with. *)
Record InstallRun := {
  spawned : list (list string);
  lookedUp : list string;
  settledWith : Result string INpmInstallResult
}.

Section Install.

(** [spawn] tells how npm ends on an argument list ([Some]: the error it is
    rejected with); [generateReferencesFile] tells whether writing the
    references file of the project throws. *)
Variable spawn : list string -> option string.
Variable generateReferencesFile : option string.

Definition finish (commands : list (list string)) (lookups : list string)
    (r : INpmInstallResult) : InstallRun :=
  {| spawned := commands; lookedUp := lookups;
     settledWith :=
       match generateReferencesFile with
       | Some err => Err err
       | None => Ok r
       end |}.

(** [hasTypesForDependency] is called without [await]: the condition sees
    its promise, which is truthy whatever the registry answers; the call is
    made only when the two conditions before it hold. *)
Definition install (dependencyToInstall : option INpmDependency) : InstallRun :=
  match dependencyToInstall with
  | Some dependency =>
      let installation :=
        npmInstall (Some (dependencyName dependency)) (dependencyVersion dependency)
          (Some ["--save"; "--save-exact"]) in
      match spawn installation with
      | Some err =>
          finish [installation] []
            {| result := Some {| isInstalled := false; isTypesInstalled := false |};
               error := Some err |}
      | None =>
          if installTypes dependency
          then
            let types := installTypingsForDependency (dependencyName dependency) in
            match spawn types with
            | Some err =>
                finish [installation; types]
                  [TYPES_DIRECTORY +:+ dependencyName dependency]
                  {| result := Some {| isInstalled := true;
                                       isTypesInstalled := false |};
                     error := Some err |}
            | None =>
                finish [installation; types]
                  [TYPES_DIRECTORY +:+ dependencyName dependency]
                  {| result := Some {| isInstalled := true;
                                       isTypesInstalled := true |};
                     error := None |}
            end
          else
            finish [installation] []
              {| result := Some {| isInstalled := true; isTypesInstalled := false |};
                 error := None |}
      end
  | None =>
      let prune := npmPrune None None in
      let installation := npmInstall None None None in
      match spawn prune with
      | Some err => finish [prune] [] {| result := None; error := Some err |}
      | None =>
          match spawn installation with
          | Some err =>
              finish [prune; installation] [] {| result := None; error := Some err |}
          | None =>
              finish [prune; installation] [] {| result := None; error := None |}
          end
      end
  end.

End Install.

(** The characters of a version, and of a package name as npm has them:
    below 128, none a line terminator, and in a name none an [@], but for
    the [@] a scoped name starts with. *)
Definition versionChar (c : ascii) : bool :=
  (N_of_ascii c <? 128)%N && dot (N_of_ascii c).
Definition nameChar (c : ascii) : bool :=
  versionChar c && negb (N_of_ascii c =? commercialAt)%N.

Definition packageName (scoped : bool) (body : string) : string :=
  if scoped then String "@" body else body.

(** The same on code units: a unit of a name is any the dot takes but [@]. *)
Definition nameUnit (c : N) : bool := dot c && negb (c =? commercialAt)%N.
Definition packageUnits (scoped : bool) (body : list N) : list N :=
  if scoped then commercialAt :: body else body.

(** Sample run of npm: the types package does not install. *)
Definition typesFail (arguments : list string) : option string :=
  if bool_decide (arguments = ["--save-dev"; "--save-exact"; "install"; "@types/lodash"])
  then Some "E404" else None.

Definition lodash : INpmDependency :=
  {| dependencyName := "lodash"; dependencyVersion := Some "4.17.4";
     installTypes := true |}.

End Npm.

(** * PacoteService *)

Module Pacote.

(** The value of an option. *)
Inductive Value :=
| Str (s : string)
| Num (n : Z).

(** An options object; [_.extend(target, source)] is [source ∪ target]. *)
Abbreviation Options := (gmap string Value).

Definition extend (destination source : Options) : Options := source ∪ destination.

(** [cachePath] is what [getCachePath] resolves with, [proxySettings] what
    the proxy service has ([None]: nothing, which is falsy). *)
Definition getPacoteBaseOptions (cachePath : string) (proxySettings : option Options)
  : Options :=
  let pacoteOptions : Options := {["cache" := Str cachePath]} in
  match proxySettings with
  | Some settings => extend pacoteOptions settings
  | None => pacoteOptions
  end.

Section Service.

(** [exists] of the file system and [path.resolve]. *)
Variable fileExists : string -> bool.
Variable resolve : string -> string.

Definition getRealPackageName (packageName : string) : string :=
  if fileExists packageName then resolve packageName else packageName.

(** The call of [pacote.manifest] that [manifest] makes. *)
Definition manifest (cachePath : string) (proxySettings : option Options)
    (packageName : string) (options : option Options) : string * Options :=
  let manifestOptions := getPacoteBaseOptions cachePath proxySettings in
  let manifestOptions :=
    match options with
    | Some o => extend manifestOptions o
    | None => manifestOptions
    end in
  (getRealPackageName packageName, manifestOptions).

(** The two calls [extractPackage] makes: [pacote.tarball.stream] with its
    package and options, and [tar.x] with its options. *)
Record Extraction := {
  source : string * Options;
  destination : Options
}.

Definition extractPackage (cachePath : string) (proxySettings : option Options)
    (packageName destinationDirectory : string) (options : option Options)
  : Extraction :=
  let extractOptions : Options :=
    {["strip" := Num 1; "C" := Str destinationDirectory]} in
  let extractOptions :=
    match options with
    | Some o => extend extractOptions o
    | None => extractOptions
    end in
  {| source := (getRealPackageName packageName,
                getPacoteBaseOptions cachePath proxySettings);
     destination := extractOptions |}.

End Service.

End Pacote.

(** * Properties *)

(** ** Transfer to an Android device *)

Section AndroidTransfer.
Import AndroidLiveSync.

Variable hashFileDevicePath : string -> string.

Ltac run :=
  unfold transferFiles, transferFilesCore, getLocalToDevicePathsToTransfer,
    getChangedLocalToDevicePaths, getShasumsFromDevice, call,
    mbind, M_bind, bind, mret, M_ret, ret.

Lemma elem_of_keys (m : gmap string string) (k : string) :
  k ∈ keys m <-> is_Some (m !! k).
Proof.
  unfold keys. rewrite list_elem_of_fmap. split.
  - intros [[k' v] [-> Hin]]. apply elem_of_map_to_list in Hin. eauto.
  - intros [v Hv]. exists (k, v). split; [done|]. by apply elem_of_map_to_list.
Qed.

Lemma elem_of_keys_changed (stored current : gmap string string)
    (p : LocalToDevicePathData) :
  getLocalPath p ∈ keys (getChangedShasums stored current) <->
  changed stored current p.
Proof.
  rewrite elem_of_keys. unfold getChangedShasums, changed. split.
  - intros [h Hh]. apply map_lookup_filter_Some in Hh as [Hc Hs]. eauto.
  - intros (h & Hc & Hs). exists h. by apply map_lookup_filter_Some.
Qed.

Lemma diff_selects_changed (acknowledged : TransportOp -> bool) app
    (paths : list LocalToDevicePathData) current d :
  acknowledged (GetShasumsFromDevice app) = true ->
  exists sent,
    getChangedLocalToDevicePaths hashFileDevicePath acknowledged app paths current d
    = (Ok sent, {| shasums := shasums d;
                   oplog := oplog d ++ [GetShasumsFromDevice app] |})
    /\ forall p, p ∈ sent <->
                 p ∈ paths /\ changed (default ∅ (shasums d !! app)) current p.
Proof.
  intros Hget. run. rewrite Hget. simpl. eexists. split; [reflexivity|].
  intros p. rewrite list_elem_of_filter, elem_of_keys_changed. tauto.
Qed.

(** C1 (as the code has it). With [force] unset, an incremental sync
    ([isFullSync] unset) pushes the whole list it was given, without
    consulting the stored table; the diff is applied by a full sync: there a
    file is pushed if and only if its current hash is absent from, or
    differs from, the stored table. *)
Theorem unforced_sync_transfer_set (acknowledged : TransportOp -> bool) app
    (paths : list LocalToDevicePathData) projectFilesPath current options d :
  (forall op, acknowledged op = true) ->
  force options = false ->
  exists sent d',
    transferFilesCore hashFileDevicePath acknowledged app paths projectFilesPath
      current options d = (Ok sent, d')
    /\ last (oplog d') = Some (TransferFilesOnDevice sent)
    /\ shasums d' = shasums d
    /\ (isFullSync options = false ->
        sent = paths /\ oplog d' = oplog d ++ [TransferFilesOnDevice paths])
    /\ (isFullSync options = true ->
        forall p, p ∈ sent <->
                  p ∈ paths /\ changed (default ∅ (shasums d !! app)) current p).
Proof.
  intros Hack Hforce.
  destruct (isFullSync options) eqn:Hfull.
  - destruct (diff_selects_changed acknowledged app paths current d (Hack _))
      as (sent & Hrun & Hsent).
    unfold transferFilesCore, getLocalToDevicePathsToTransfer.
    rewrite Hforce, Hfull. simpl.
    unfold mbind, M_bind, bind at 1. rewrite Hrun.
    unfold bind, call. rewrite Hack. simpl.
    eexists _, _. split; [reflexivity|]. simpl.
    split; [by rewrite last_snoc|]. split; [done|]. split; [done|]. auto.
  - run. rewrite Hforce, Hfull. simpl. rewrite Hack. simpl.
    eexists _, _. split; [reflexivity|]. simpl.
    split; [by rewrite last_snoc|]. split; [done|]. split; [done|]. done.
Qed.

(** C5. With [force] and [isFullSync] both set, the hash file of the
    application is deleted first, and then the whole list is handed to
    [transferDirectoryOnDevice]: the stored table is never read, whatever it
    held. *)
Theorem forced_full_sync_clears_then_sends_all (acknowledged : TransportOp -> bool)
    app (paths : list LocalToDevicePathData) projectFilesPath current options d :
  force options = true ->
  isFullSync options = true ->
  acknowledged (DeleteFile (hashFileDevicePath app) app) = true ->
  acknowledged (TransferDirectoryOnDevice paths projectFilesPath) = true ->
  exists d',
    transferFilesCore hashFileDevicePath acknowledged app paths projectFilesPath
      current options d = (Ok paths, d')
    /\ oplog d' = oplog d ++ [DeleteFile (hashFileDevicePath app) app;
                              TransferDirectoryOnDevice paths projectFilesPath]
    /\ shasums d' = delete app (shasums d)
    /\ shasums d' !! app = None.
Proof.
  intros Hforce Hfull Hdelete Hpush. run. rewrite Hforce, Hfull. simpl.
  rewrite Hdelete, Hpush. simpl. rewrite decide_True by done.
  eexists. split; [reflexivity|]. simpl.
  split; [by rewrite <- app_assoc|]. split; [done|]. apply lookup_delete_eq.
Qed.

(** The forced full sync as a whole: after the push the current hashes are
    committed to the table that was just cleared. *)
Lemma forced_full_sync_commits_current (acknowledged : TransportOp -> bool)
    generateHashes app (paths : list LocalToDevicePathData) projectFilesPath
    options d :
  (forall op, acknowledged op = true) ->
  force options = true ->
  isFullSync options = true ->
  exists d',
    transferFiles hashFileDevicePath acknowledged generateHashes app paths
      projectFilesPath options d = (Ok paths, d')
    /\ shasums d' !! app = Some (generateHashes paths).
Proof.
  intros Hack Hforce Hfull. run. rewrite Hforce, Hfull. simpl.
  rewrite !Hack. simpl. rewrite decide_True by done.
  eexists. split; [reflexivity|]. simpl.
  rewrite lookup_insert_eq, lookup_delete_eq. simpl.
  by rewrite (right_id_L ∅ (∪)).
Qed.

Lemma changed_after_clear (tables : gmap string (gmap string string)) (cleared : bool)
    app current (p : LocalToDevicePathData) :
  changed (default ∅ (tables !! app)) current p ->
  changed (default ∅ ((if cleared then delete app tables else tables) !! app))
    current p.
Proof.
  destruct cleared; [|done]. intros (h & Hcurrent & _).
  exists h. split; [done|]. rewrite lookup_delete_eq. simpl.
  by rewrite lookup_empty.
Qed.

(** With every call acknowledged: a full sync that is not forced pushes the
    files of its list that are changed with respect to the stored table; any
    other sync pushes its list. *)
Lemma acknowledged_transfer generateHashes app (paths : list LocalToDevicePathData)
    projectFilesPath options d :
  exists sent d',
    transferFiles hashFileDevicePath (fun _ => true) generateHashes app paths
      projectFilesPath options d = (Ok sent, d')
    /\ (force options = false -> isFullSync options = true ->
        forall p, p ∈ sent <->
                  p ∈ paths
                  /\ changed (default ∅ (shasums d !! app)) (generateHashes paths) p)
    /\ (force options || negb (isFullSync options) = true -> sent = paths).
Proof.
  destruct (force options) eqn:Hforce, (isFullSync options) eqn:Hfull;
    run; rewrite ?Hforce, ?Hfull; simpl;
    eexists _, _; (split; [reflexivity|]); (split; [|done]); try done.
  intros _ _ p. rewrite list_elem_of_filter, elem_of_keys_changed. tauto.
Qed.

(** C4 (as the code has it). When the push is rejected, [transferFiles]
    rejects before [updateHashesOnDevice] is reached: nothing is committed.
    The stored table is then what it was, except after a forced full sync,
    whose first step had already deleted it. The files of the rejected push
    are re-evaluated by the next full sync that is not forced: it pushes the
    files of its list that are changed with respect to the table the
    failure left, among them every file that was changed with respect to
    the table as it was before, and, when the rejected sync was a full one,
    every file of the rejected push whose hash is as it was. A sync that is
    incremental or forced evaluates nothing: it pushes the list it is
    given. *)
Theorem rejected_push_commits_nothing (acknowledged : TransportOp -> bool)
    generateHashes app (paths : list LocalToDevicePathData) projectFilesPath
    options d op d' :
  transferFiles hashFileDevicePath acknowledged generateHashes app paths
    projectFilesPath options d = (Err (TransportError op), d') ->
  is_push op = true ->
  let cleared := force options && isFullSync options in
  (exists ops, oplog d' = oplog d ++ ops
               /\ forall o, o ∈ ops -> is_commit o = false)
  /\ shasums d' = (if cleared then delete app (shasums d) else shasums d)
  /\ exists failed,
       op = (if cleared
             then TransferDirectoryOnDevice failed projectFilesPath
             else TransferFilesOnDevice failed)
       /\ (forall p, p ∈ failed -> p ∈ paths)
       /\ forall paths' projectFilesPath' options',
            exists sent d'',
              transferFiles hashFileDevicePath (fun _ => true) generateHashes app
                paths' projectFilesPath' options' d' = (Ok sent, d'')
              /\ (force options' = false -> isFullSync options' = true ->
                  (forall p,
                      p ∈ sent <->
                      p ∈ paths'
                      /\ changed (default ∅ (shasums d' !! app))
                           (generateHashes paths') p)
                  /\ (forall p,
                         p ∈ paths' ->
                         changed (default ∅ (shasums d !! app))
                           (generateHashes paths') p ->
                         p ∈ sent)
                  /\ (isFullSync options = true ->
                      forall p,
                        p ∈ failed -> p ∈ paths' ->
                        is_Some (generateHashes paths !! getLocalPath p) ->
                        generateHashes paths' !! getLocalPath p
                        = generateHashes paths !! getLocalPath p ->
                        p ∈ sent))
              /\ (force options' || negb (isFullSync options') = true ->
                  sent = paths').
Proof.
  intros Hrun Hpush cleared.
  assert (Hfailed :
    (exists ops, oplog d' = oplog d ++ ops
                 /\ forall o, o ∈ ops -> is_commit o = false)
    /\ shasums d' = (if cleared then delete app (shasums d) else shasums d)
    /\ exists failed,
         op = (if cleared
               then TransferDirectoryOnDevice failed projectFilesPath
               else TransferFilesOnDevice failed)
         /\ (forall p, p ∈ failed -> p ∈ paths)
         /\ (force options = false -> isFullSync options = true ->
             forall p, p ∈ failed ->
                       changed (default ∅ (shasums d !! app))
                         (generateHashes paths) p)).
  { subst cleared. revert Hrun.
    destruct (force options) eqn:Hforce, (isFullSync options) eqn:Hfull;
      run; rewrite ?Hforce, ?Hfull; simpl;
      repeat (match goal with
              | |- context [acknowledged ?o] => destruct (acknowledged o) eqn:?; simpl
              end);
      intros [= <- <-]; try discriminate Hpush; simpl;
      (split; [eexists; split; [by rewrite <- ?app_assoc|];
               intros o Ho; set_unfold; by destruct_or!; subst|]);
      (split; [by rewrite ?decide_True|]);
      eexists; (split; [reflexivity|]); (split; [|try done]); try done.
    - intros p Hp. by apply list_elem_of_filter in Hp as [_ ?].
    - intros _ _ p Hp. apply list_elem_of_filter in Hp as [Hp _].
      by apply elem_of_keys_changed. }
  destruct Hfailed as (Hops & Htable & failed & Hop & Hsub & Hdiff).
  split; [exact Hops|]. split; [exact Htable|].
  exists failed. split; [exact Hop|]. split; [exact Hsub|].
  intros paths' projectFilesPath' options'.
  destruct (acknowledged_transfer generateHashes app paths' projectFilesPath'
              options' d') as (sent & d'' & Hnext & Hfull' & Hlist).
  exists sent, d''. split; [exact Hnext|]. split; [|exact Hlist].
  intros Hforce' HisFull'. specialize (Hfull' Hforce' HisFull').
  assert (Hbefore : forall p,
             p ∈ paths' ->
             changed (default ∅ (shasums d !! app)) (generateHashes paths') p ->
             p ∈ sent).
  { intros p Hp Hchanged. apply Hfull'. split; [done|].
    rewrite Htable. by apply changed_after_clear. }
  split; [exact Hfull'|]. split; [exact Hbefore|].
  intros HisFull p Hp Hp' [h Hh] Hsame. subst cleared.
  destruct (force options) eqn:Hforce.
  - apply Hfull'. split; [done|]. rewrite Htable, HisFull. simpl.
    rewrite lookup_delete_eq. simpl. exists h.
    split; [by rewrite Hsame|]. by rewrite lookup_empty.
  - apply Hbefore; [done|].
    destruct (Hdiff eq_refl HisFull p Hp) as (h' & Hcurrent & Hstored).
    exists h'. split; [by rewrite Hsame|done].
Qed.

End AndroidTransfer.

Lemma unforced_sync_transfer_set_witness :
  (forall op : AndroidLiveSync.TransportOp, (fun _ => true) op = true)
  /\ AndroidLiveSync.force AndroidLiveSync.incremental = false
  /\ exists sent d',
      AndroidLiveSync.transferFilesCore AndroidLiveSync.sampleHashFile (fun _ => true)
        "org.app" [AndroidLiveSync.mainJs] "app" AndroidLiveSync.sampleHashes
        AndroidLiveSync.incremental AndroidLiveSync.syncedDevice = (Ok sent, d')
      /\ sent = [AndroidLiveSync.mainJs].
Proof.
  split; [reflexivity|]. split; [reflexivity|].
  destruct (unforced_sync_transfer_set AndroidLiveSync.sampleHashFile (fun _ => true)
              "org.app" [AndroidLiveSync.mainJs] "app" AndroidLiveSync.sampleHashes
              AndroidLiveSync.incremental AndroidLiveSync.syncedDevice
              (fun _ => eq_refl) eq_refl)
    as (sent & d' & Hrun & _ & _ & Hinc & _).
  exists sent, d'. split; [exact Hrun|]. exact (proj1 (Hinc eq_refl)).
Defined.

(** C1 fails on the code as stated: an incremental, unforced sync pushes a
    file whose current hash equals the stored one. *)
Lemma incremental_sync_pushes_unchanged_file :
  exists d',
    AndroidLiveSync.transferFilesCore AndroidLiveSync.sampleHashFile (fun _ => true)
      "org.app" [AndroidLiveSync.mainJs] "app" AndroidLiveSync.sampleHashes
      AndroidLiveSync.incremental AndroidLiveSync.syncedDevice
    = (Ok [AndroidLiveSync.mainJs], d')
    /\ last (AndroidLiveSync.oplog d')
       = Some (AndroidLiveSync.TransferFilesOnDevice [AndroidLiveSync.mainJs])
    /\ ~ AndroidLiveSync.changed
           (default ∅ (AndroidLiveSync.shasums AndroidLiveSync.syncedDevice !! "org.app"))
           AndroidLiveSync.sampleHashes AndroidLiveSync.mainJs.
Proof.
  eexists. split; [reflexivity|]. split; [reflexivity|].
  intros (h & Hcur & Hold). apply Hold. rewrite <- Hcur. reflexivity.
Qed.

Lemma forced_full_sync_clears_then_sends_all_witness :
  AndroidLiveSync.force AndroidLiveSync.forcedFull = true
  /\ AndroidLiveSync.isFullSync AndroidLiveSync.forcedFull = true
  /\ exists d',
      AndroidLiveSync.transferFilesCore AndroidLiveSync.sampleHashFile (fun _ => true)
        "org.app" [AndroidLiveSync.mainJs] "app" AndroidLiveSync.sampleHashes
        AndroidLiveSync.forcedFull AndroidLiveSync.syncedDevice
      = (Ok [AndroidLiveSync.mainJs], d')
      /\ AndroidLiveSync.shasums d' !! "org.app" = None.
Proof.
  split; [reflexivity|]. split; [reflexivity|].
  destruct (forced_full_sync_clears_then_sends_all AndroidLiveSync.sampleHashFile
              (fun _ => true) "org.app" [AndroidLiveSync.mainJs] "app"
              AndroidLiveSync.sampleHashes AndroidLiveSync.forcedFull
              AndroidLiveSync.syncedDevice eq_refl eq_refl eq_refl eq_refl)
    as (d' & Hrun & _ & _ & Hnone).
  exists d'. split; [exact Hrun | exact Hnone].
Defined.

Lemma rejected_push_commits_nothing_witness :
  let rejected :=
    {| AndroidLiveSync.shasums := {["org.app" := AndroidLiveSync.sampleHashes]};
       AndroidLiveSync.oplog :=
         [AndroidLiveSync.GetShasumsFromDevice "org.app";
          AndroidLiveSync.TransferFilesOnDevice
            [AndroidLiveSync.mainJs; AndroidLiveSync.otherJs]] |} in
  AndroidLiveSync.transferFiles AndroidLiveSync.sampleHashFile
    (fun op => negb (AndroidLiveSync.is_push op))
    AndroidLiveSync.editedHashes "org.app"
    [AndroidLiveSync.mainJs; AndroidLiveSync.otherJs]
    "app" AndroidLiveSync.fullUnforced AndroidLiveSync.syncedDevice
  = (Err (AndroidLiveSync.TransportError
            (AndroidLiveSync.TransferFilesOnDevice
               [AndroidLiveSync.mainJs; AndroidLiveSync.otherJs])),
     rejected)
  /\ AndroidLiveSync.is_push
       (AndroidLiveSync.TransferFilesOnDevice
          [AndroidLiveSync.mainJs; AndroidLiveSync.otherJs]) = true
  /\ AndroidLiveSync.shasums rejected
     = AndroidLiveSync.shasums AndroidLiveSync.syncedDevice
  /\ exists sent d'',
       AndroidLiveSync.transferFiles AndroidLiveSync.sampleHashFile (fun _ => true)
         AndroidLiveSync.editedHashes "org.app"
         [AndroidLiveSync.mainJs; AndroidLiveSync.otherJs]
         "app" AndroidLiveSync.fullUnforced rejected = (Ok sent, d'')
       /\ AndroidLiveSync.mainJs ∈ sent.
Proof.
  intros rejected.
  assert (Hrun :
    AndroidLiveSync.transferFiles AndroidLiveSync.sampleHashFile
      (fun op => negb (AndroidLiveSync.is_push op))
      AndroidLiveSync.editedHashes "org.app"
      [AndroidLiveSync.mainJs; AndroidLiveSync.otherJs]
      "app" AndroidLiveSync.fullUnforced AndroidLiveSync.syncedDevice
    = (Err (AndroidLiveSync.TransportError
              (AndroidLiveSync.TransferFilesOnDevice
                 [AndroidLiveSync.mainJs; AndroidLiveSync.otherJs])),
       rejected)) by (vm_compute; reflexivity).
  split; [exact Hrun|]. split; [reflexivity|].
  destruct (rejected_push_commits_nothing AndroidLiveSync.sampleHashFile
              (fun op => negb (AndroidLiveSync.is_push op))
              AndroidLiveSync.editedHashes "org.app"
              [AndroidLiveSync.mainJs; AndroidLiveSync.otherJs] "app"
              AndroidLiveSync.fullUnforced AndroidLiveSync.syncedDevice
              (AndroidLiveSync.TransferFilesOnDevice
                 [AndroidLiveSync.mainJs; AndroidLiveSync.otherJs])
              rejected Hrun eq_refl)
    as (_ & Htable & failed & _ & _ & Hnext).
  split; [exact Htable|].
  destruct (Hnext [AndroidLiveSync.mainJs; AndroidLiveSync.otherJs] "app"
              AndroidLiveSync.fullUnforced)
    as (sent & d'' & Hretry & Hfull & _).
  exists sent, d''. split; [exact Hretry|].
  apply (proj1 (proj2 (Hfull eq_refl eq_refl))); [by left|].
  exists "2b". split; [vm_compute; reflexivity|].
  intros Hstored. vm_compute in Hstored. discriminate Hstored.
Defined.

(** C4 fails on the code as stated, in two ways. When the push of a forced
    full sync is rejected, the stored table is not what it was: it has been
    deleted. And the next sync cycle need not re-evaluate the files of a
    rejected push: after the rejected incremental push of the edited
    [app/main.js], which is changed with respect to the stored table, the
    next incremental sync, given [app/other.js], reads no table and pushes
    that file only. *)
Lemma rejected_push_loses_table_or_retry :
  (exists e d',
      AndroidLiveSync.transferFiles AndroidLiveSync.sampleHashFile
        (fun op => negb (AndroidLiveSync.is_push op))
        (fun _ => AndroidLiveSync.sampleHashes) "org.app" [AndroidLiveSync.mainJs]
        "app" AndroidLiveSync.forcedFull AndroidLiveSync.syncedDevice = (Err e, d')
      /\ AndroidLiveSync.shasums AndroidLiveSync.syncedDevice !! "org.app"
         = Some AndroidLiveSync.sampleHashes
      /\ AndroidLiveSync.shasums d' !! "org.app" = None
      /\ AndroidLiveSync.shasums d'
         <> AndroidLiveSync.shasums AndroidLiveSync.syncedDevice)
  /\ (exists d' d'',
        AndroidLiveSync.transferFiles AndroidLiveSync.sampleHashFile
          (fun op => negb (AndroidLiveSync.is_push op))
          AndroidLiveSync.editedHashes "org.app" [AndroidLiveSync.mainJs]
          "app" AndroidLiveSync.incremental AndroidLiveSync.syncedDevice
        = (Err (AndroidLiveSync.TransportError
                  (AndroidLiveSync.TransferFilesOnDevice [AndroidLiveSync.mainJs])),
           d')
        /\ AndroidLiveSync.changed
             (default ∅ (AndroidLiveSync.shasums d' !! "org.app"))
             (AndroidLiveSync.editedHashes [AndroidLiveSync.mainJs])
             AndroidLiveSync.mainJs
        /\ AndroidLiveSync.transferFiles AndroidLiveSync.sampleHashFile
             (fun _ => true) AndroidLiveSync.editedHashes "org.app"
             [AndroidLiveSync.otherJs] "app" AndroidLiveSync.incremental d'
           = (Ok [AndroidLiveSync.otherJs], d'')
        /\ (AndroidLiveSync.mainJs ∉ [AndroidLiveSync.otherJs])
        /\ AndroidLiveSync.oplog d''
           = AndroidLiveSync.oplog d'
             ++ [AndroidLiveSync.TransferFilesOnDevice [AndroidLiveSync.otherJs];
                 AndroidLiveSync.UpdateHashesOnDevice
                   (AndroidLiveSync.editedHashes [AndroidLiveSync.otherJs])
                   "org.app"]).
Proof.
  split.
  - eexists _, _. split; [reflexivity|]. split; [reflexivity|].
    split; [reflexivity|]. intros Heq.
    apply (f_equal (fun m => m !! "org.app")) in Heq. discriminate Heq.
  - eexists _, _. split; [reflexivity|]. split; [|split; [reflexivity|split]].
    + exists "2b". split; [vm_compute; reflexivity|].
      intros Hstored. vm_compute in Hstored. discriminate Hstored.
    + intros Hin. apply list_elem_of_singleton in Hin. discriminate Hin.
    + reflexivity.
Qed.

(** ** Strings and the status-line pattern *)

Section StatusLinePattern.
Import RegExp HmrStatus.

Lemma append_cons c (s t : string) : String c s +:+ t = String c (s +:+ t).
Proof. reflexivity. Qed.

Lemma append_empty_l (s : string) : EmptyString +:+ s = s.
Proof. reflexivity. Qed.

Lemma append_empty_r (s : string) : s +:+ EmptyString = s.
Proof. induction s as [|c s IH]; [done|]. by rewrite append_cons, IH. Qed.

Lemma append_assoc (s t u : string) : (s +:+ t) +:+ u = s +:+ (t +:+ u).
Proof. induction s as [|c s IH]; [done|]. by rewrite !append_cons, IH. Qed.

Lemma lowerOrDigit_not_space c : lowerOrDigit c = true -> c <> " "%char.
Proof. intros H ->. discriminate H. Qed.

Lemma letterOrSpace_not_newline c : letterOrSpace c = true -> c <> "010"%char.
Proof. intros H ->. discriminate H. Qed.

Lemma lowerOrDigit_not_newline c : lowerOrDigit c = true -> c <> "010"%char.
Proof. intros H ->. discriminate H. Qed.

Lemma classStar_cons {R} cls c s acc (k : string -> string -> option R) :
  cls c = true ->
  classStar cls (String c s) acc k
  = match classStar cls s (acc +:+ String c EmptyString) k with
    | Some r => Some r
    | None => k acc (String c s)
    end.
Proof. intros H. simpl. by rewrite H. Qed.

(** A run of class characters is consumed whole when the continuation
    accepts what follows it. *)
Lemma classStar_app {R} cls p tail acc (k : string -> string -> option R) r :
  allChars cls p = true ->
  classStar cls tail (acc +:+ p) k = Some r ->
  classStar cls (p +:+ tail) acc k = Some r.
Proof.
  revert acc. induction p as [|c p IH]; intros acc Hall Hk.
  - by rewrite append_empty_r in Hk.
  - simpl in Hall. apply andb_true_iff in Hall as [Hc Hp].
    rewrite append_cons, classStar_cons by done.
    rewrite (IH (acc +:+ String c EmptyString)); [done|done|].
    by rewrite append_assoc.
Qed.

(** Inside the hash and at the full stop the separator cannot start. *)
Lemma classStar_hash_none {R} hash acc (k : string -> string -> option R) :
  allChars lowerOrDigit hash = true ->
  (forall text c rest, c <> " "%char -> k text (String c rest) = None) ->
  classStar letterOrSpace (hash +:+ ".") acc k = None.
Proof.
  intros Hall Hk. revert acc. induction hash as [|c hash IH]; intros acc.
  - simpl. by apply Hk.
  - simpl in Hall. apply andb_true_iff in Hall as [Hc Hh].
    rewrite append_cons. simpl. rewrite (IH Hh).
    destruct (letterOrSpace c); apply Hk; by apply lowerOrDigit_not_space.
Qed.

Lemma stripPrefix_cons a p b s :
  stripPrefix (String a p) (String b s)
  = if Ascii.eqb a b then stripPrefix p s else None.
Proof. reflexivity. Qed.

Lemma stripPrefix_hash_none hash :
  allChars lowerOrDigit hash = true ->
  stripPrefix "hmr hash " (hash +:+ ".") = None.
Proof.
  intros Hall.
  destruct hash as [|c1 [|c2 [|c3 [|c4 hash]]]];
    rewrite ?append_cons, ?append_empty_l, ?stripPrefix_cons;
    repeat (match goal with
            | |- context [Ascii.eqb ?a ?b] =>
                destruct (Ascii.eqb_spec a b); subst; try done
            end).
Qed.

Lemma classStar_separator {R} hash acc (k' : string -> string -> option R) :
  allChars lowerOrDigit hash = true ->
  classStar letterOrSpace (" hmr hash " +:+ hash +:+ ".") acc
    (fun text rest =>
       match stripPrefix " hmr hash " rest with
       | Some rest' => k' text rest'
       | None => None
       end)
  = k' acc (hash +:+ ".").
Proof.
  intros Hall.
  rewrite !append_cons, append_empty_l.
  rewrite !classStar_cons by reflexivity.
  rewrite classStar_hash_none; [|done|].
  2:{ intros text c rest Hc. rewrite stripPrefix_cons.
      destruct (Ascii.eqb_spec " " c); [by subst|done]. }
  rewrite !stripPrefix_cons. cbv [Ascii.eqb Bool.eqb].
  by rewrite stripPrefix_hash_none.
Qed.

Lemma exec_unfold r s :
  exec r s
  = match matchAt r s [] (fun text _ caps => Some (text :: caps)) with
    | Some m => Some m
    | None => match s with
              | String _ s' => exec r s'
              | EmptyString => None
              end
    end.
Proof. by destruct s. Qed.

(** On a status line the pattern matches at the start; the groups are the
    verb phrase and the hash. *)
Lemma exec_statusLine verb hash :
  allChars letterOrSpace verb = true ->
  allChars lowerOrDigit hash = true ->
  exec HMR_STATUS_LOG_REGEX (statusLine verb hash)
  = Some [statusLine verb hash; verb; hash].
Proof.
  intros Hverb Hhash. rewrite exec_unfold.
  unfold HMR_STATUS_LOG_REGEX, statusLine. cbn [matchAt app length].
  erewrite classStar_app; [reflexivity|exact Hverb|].
  rewrite append_empty_l, classStar_separator by done.
  erewrite classStar_app; [reflexivity|exact Hhash|].
  rewrite append_empty_l. reflexivity.
Qed.

(** The class of the second group has no upper-case letters: a line whose
    hash is written in upper case is not a status line for the pattern. *)
Example exec_upper_case_hash :
  exec HMR_STATUS_LOG_REGEX (statusLine SUCCESS_MESSAGE "ABC123") = None.
Proof. reflexivity. Qed.

End StatusLinePattern.

(** ** The log rule dispatcher *)

Section Dispatcher.
Import LogParser.

Context {St : Type}.
Implicit Types (rules : list (string * ILogParseRule St)) (st : St).

Lemma applies_unfiltered devicePlatform (r : ILogParseRule St) :
  platform r = None -> applies devicePlatform r = true.
Proof. intros H. unfold applies. rewrite H. simpl. by rewrite orb_true_r. Qed.

Lemma applies_same_platform devicePlatform (r : ILogParseRule St) p dp :
  platform r = Some p -> devicePlatform = Some dp ->
  JS.toLowerCase p = JS.toLowerCase dp ->
  applies devicePlatform r = true.
Proof.
  intros Hp -> Heq. unfold applies. rewrite Hp. simpl. rewrite Heq.
  rewrite String.eqb_refl. by rewrite orb_true_r.
Qed.

Lemma forEachRule_app pre rest l dev plat st :
  forEachRule (pre ++ rest) l dev plat st
  = let d := forEachRule pre l dev plat st in
    match outcome d with
    | Ok _ =>
        let d' := forEachRule rest l dev plat (state d) in
        {| outcome := outcome d'; state := state d';
           evaluations := evaluations d ++ evaluations d' |}
    | Err _ => d
    end.
Proof.
  revert st. induction pre as [|[key r] pre IH]; intros st; simpl.
  - by destruct (forEachRule rest l dev plat st).
  - destruct (applies plat r); [|apply IH].
    destruct (regex r l) as [m|].
    + destruct (handler r m dev st) as [[[]|err] st']; [|done].
      rewrite IH. simpl.
      by destruct (forEachRule pre l dev plat st') as [[[]|err] st1 ev1].
    + rewrite IH. simpl.
      by destruct (forEachRule pre l dev plat st) as [[[]|err] st1 ev1].
Qed.

Lemma forEachLine_app rules lpre lrest dev plat st :
  forEachLine rules (lpre ++ lrest) dev plat st
  = let d := forEachLine rules lpre dev plat st in
    match outcome d with
    | Ok _ =>
        let d' := forEachLine rules lrest dev plat (state d) in
        {| outcome := outcome d'; state := state d';
           evaluations := evaluations d ++ evaluations d' |}
    | Err _ => d
    end.
Proof.
  revert st. induction lpre as [|l lpre IH]; intros st; simpl.
  - by destruct (forEachLine rules lrest dev plat st).
  - destruct (forEachRule rules l dev plat st) as [[[]|err] st1 ev1]; simpl;
      [|done].
    rewrite IH. simpl.
    destruct (forEachLine rules lpre dev plat st1) as [[[]|err] st2 ev2]; simpl;
      [|done].
    by rewrite app_assoc.
Qed.

(** When the dispatch of a line returns, the line was tested against every
    rule that applies. *)
Lemma forEachRule_returned rules l dev plat st :
  outcome (forEachRule rules l dev plat st) = Ok tt ->
  forall key r,
    (key, r) ∈ rules -> applies plat r = true ->
    {| rule := key; line := l; matched := regex r l |}
    ∈ evaluations (forEachRule rules l dev plat st).
Proof.
  revert st. induction rules as [|[key0 r0] rules IH]; intros st Hok key r Hin Hr.
  - by apply elem_of_nil in Hin.
  - simpl in *. destruct (applies plat r0) eqn:Happ.
    + destruct (regex r0 l) as [m|] eqn:Hm.
      * destruct (handler r0 m dev st) as [[[]|err] st']; [|done]. simpl in *.
        apply elem_of_cons in Hin as [[= -> ->]|Hin]; [rewrite Hm; by left|].
        right. by apply IH.
      * simpl in *.
        apply elem_of_cons in Hin as [[= -> ->]|Hin]; [rewrite Hm; by left|].
        right. by apply IH.
    + apply elem_of_cons in Hin as [[= -> ->]|Hin]; [congruence|]. by apply IH.
Qed.

Lemma forEachLine_returned rules lines dev plat st :
  outcome (forEachLine rules lines dev plat st) = Ok tt ->
  forall l key r,
    l ∈ lines -> (key, r) ∈ rules -> applies plat r = true ->
    {| rule := key; line := l; matched := regex r l |}
    ∈ evaluations (forEachLine rules lines dev plat st).
Proof.
  revert st. induction lines as [|l0 lines IH]; intros st Hok l key r Hl Hin Hr.
  - by apply elem_of_nil in Hl.
  - simpl in *.
    destruct (outcome (forEachRule rules l0 dev plat st)) as [[]|err] eqn:Hline;
      [|congruence].
    simpl in *. apply elem_of_app.
    apply elem_of_cons in Hl as [->|Hl].
    + left. by apply forEachRule_returned.
    + right. by apply IH.
Qed.

(** Rules that do not match a line leave the state as it is. *)
Lemma forEachRule_unmatched rules l dev plat st :
  (forall key r, (key, r) ∈ rules -> applies plat r = true -> regex r l = None) ->
  outcome (forEachRule rules l dev plat st) = Ok tt
  /\ state (forEachRule rules l dev plat st) = st.
Proof.
  induction rules as [|[key r] rules IH]; intros Hnone; [done|].
  simpl. destruct (applies plat r) eqn:Happ.
  - rewrite (Hnone key r) by (done || by left). simpl.
    apply IH. intros k r' Hin Hr. apply (Hnone k); [by right|done].
  - apply IH. intros k r' Hin Hr. apply (Hnone k); [by right|done].
Qed.

Lemma split_lines_line (l : string) :
  HmrStatus.allChars HmrStatus.notLineFeed l = true -> JS.split_lines l = [l].
Proof.
  induction l as [|c l IH]; [done|]. simpl. intros H.
  apply andb_true_iff in H as [Hc Hl]. unfold HmrStatus.notLineFeed in Hc.
  destruct (Ascii.eqb c "010"); [done|]. by rewrite IH.
Qed.

(** Reading and writing the table. *)
Lemma ownRule_elem_of key (r : ILogParseRule St) rules :
  ownRule key rules = Some r -> (key, r) ∈ rules.
Proof.
  induction rules as [|[k r'] rules IH]; simpl; [done|].
  destruct (decide (k = key)) as [->|Hne].
  - intros [= ->]. by left.
  - intros H. right. by apply IH.
Qed.

Lemma createRule_split key (r : ILogParseRule St) rules :
  exists before after,
    rules = before ++ after /\ createRule key r rules = before ++ (key, r) :: after.
Proof.
  induction rules as [|[k r'] rules (before & after & Hrules & Hcreated)]; simpl.
  - by exists [], [].
  - destruct (JS.comesBefore key k).
    + by exists [], ((k, r') :: rules).
    + exists ((k, r') :: before), after. simpl. by rewrite <- Hrules, Hcreated.
Qed.

Lemma ownRule_createRule key (r : ILogParseRule St) rules :
  ownRule key rules = None -> ownRule key (createRule key r rules) = Some r.
Proof.
  induction rules as [|[k r'] rules IH]; simpl.
  - by rewrite decide_True.
  - destruct (decide (k = key)) as [->|Hne]; [done|]. intros Hfree.
    destruct (JS.comesBefore key k); simpl.
    + by rewrite decide_True.
    + rewrite decide_False by done. by apply IH.
Qed.

Lemma getRule_undefined key rules :
  getRule key rules = Undefined (St:=St) <->
  ownRule key rules = None /\ JS.inherited key = false.
Proof.
  unfold getRule.
  destruct (ownRule key rules), (JS.inherited key); split; try done;
    by intros [? ?].
Qed.

Lemma addParseRule_registers (r : ILogParseRule St) (s : LogParserService St) :
  getRule (name r) (parseRules s) = Undefined ->
  addParseRule r s
  = (Ok tt, {| parseRules := createRule (name r) r (parseRules s);
               listening := true |}).
Proof.
  intros Hfree. unfold addParseRule, setRule, startParsingLogCore.
  rewrite Hfree. apply getRule_undefined in Hfree as [-> _]. done.
Qed.

(** C8 (as the code has it). When the ingestion of a chunk returns, that is
    when no handler has thrown, every line of the chunk was tested against
    every registered rule whose platform filter is unset or equals the
    platform of the chunk up to case. A handler that throws is not
    isolated: the exception ends the ingestion, so the rules after it are
    not tested against that line, and the later lines against none. *)
Theorem handler_exception_ends_ingestion (s : LogParserService St)
    message dev plat st :
  (outcome (processDeviceLogResponse s message dev plat st) = Ok tt ->
   forall l key r,
     l ∈ JS.split_lines message -> (key, r) ∈ parseRules s ->
     (platform r = None
      \/ exists p dp, platform r = Some p /\ plat = Some dp
                      /\ JS.toLowerCase p = JS.toLowerCase dp) ->
     {| rule := key; line := l; matched := regex r l |}
     ∈ evaluations (processDeviceLogResponse s message dev plat st))
  /\ (forall lpre l lpost pre key r post m e st',
        JS.split_lines message = lpre ++ l :: lpost ->
        parseRules s = pre ++ (key, r) :: post ->
        let doneLines := forEachLine (parseRules s) lpre dev plat st in
        let doneRules := forEachRule pre l dev plat (state doneLines) in
        outcome doneLines = Ok tt ->
        outcome doneRules = Ok tt ->
        applies plat r = true ->
        regex r l = Some m ->
        handler r m dev (state doneRules) = (Err e, st') ->
        processDeviceLogResponse s message dev plat st
        = {| outcome := Err e; state := st';
             evaluations :=
               evaluations doneLines ++ evaluations doneRules
               ++ [{| rule := key; line := l; matched := Some m |}] |}).
Proof.
  split.
  - intros Hok l key r Hl Hin Hfilter. unfold processDeviceLogResponse in *.
    apply forEachLine_returned; [done|done|done|].
    destruct Hfilter as [Hnone|(p & dp & Hp & Hdp & Heq)].
    + by apply applies_unfiltered.
    + by eapply applies_same_platform.
  - intros lpre l lpost pre key r post m e st' Hsplit Hrules doneLines
      doneRules Hlines Hpre Happ Hm Hthrow.
    assert (Hline : forEachRule (parseRules s) l dev plat (state doneLines)
                    = {| outcome := Err e; state := st';
                         evaluations :=
                           evaluations doneRules
                           ++ [{| rule := key; line := l; matched := Some m |}] |}).
    { subst doneRules. revert Hpre Hthrow. generalize (state doneLines).
      intros st0 Hpre Hthrow. rewrite Hrules, forEachRule_app. cbv zeta.
      rewrite Hpre. cbn [forEachRule]. by rewrite Happ, Hm, Hthrow. }
    unfold processDeviceLogResponse. rewrite Hsplit, forEachLine_app.
    fold doneLines. cbv zeta. rewrite Hlines. cbn [forEachLine].
    by rewrite Hline.
Qed.

(** C10. A rule whose name reads as undefined in the table is registered,
    and the service listens to the device log.
    Registering a rule under that name again throws and leaves the service
    as it was: the rule registered first is the one found under the name,
    the other rules are as before, and the first rule still dispatches: it
    is tested against every line of a chunk whose ingestion returns, and on
    a line that no other rule matches the dispatch is the call of its
    handler, with the groups of its pattern. *)
Theorem duplicate_rule_rejected (s : LogParserService St)
    (first second : ILogParseRule St) :
  getRule (name first) (parseRules s) = Undefined ->
  name second = name first ->
  exists s1,
    addParseRule first s = (Ok tt, s1)
    /\ listening s1 = true
    /\ addParseRule second s1
       = (Err (FailWithoutHelp "Log parse rule already exists."), s1)
    /\ getRule (name first) (parseRules s1) = OwnRule first
    /\ (forall key r, (key, r) ∈ parseRules s1
                      <-> (key, r) = (name first, first) \/ (key, r) ∈ parseRules s)
    /\ (forall message l dev plat st,
          outcome (processDeviceLogResponse s1 message dev plat st) = Ok tt ->
          l ∈ JS.split_lines message ->
          applies plat first = true ->
          {| rule := name first; line := l; matched := regex first l |}
          ∈ evaluations (processDeviceLogResponse s1 message dev plat st))
    /\ (forall l m dev plat st,
          HmrStatus.allChars HmrStatus.notLineFeed l = true ->
          applies plat first = true ->
          regex first l = Some m ->
          (forall key r, (key, r) ∈ parseRules s -> applies plat r = true ->
                         regex r l = None) ->
          let d := processDeviceLogResponse s1 l dev plat st in
          outcome d = (handler first m dev st).1
          /\ state d = (handler first m dev st).2
          /\ {| rule := name first; line := l; matched := Some m |} ∈ evaluations d).
Proof.
  intros Hfree Hname. rewrite (addParseRule_registers first s Hfree).
  eexists. split; [reflexivity|]. split; [reflexivity|].
  pose proof Hfree as Hown. apply getRule_undefined in Hown as [Hown Hplain].
  pose proof (ownRule_createRule (name first) first (parseRules s) Hown) as Hfound.
  destruct (createRule_split (name first) first (parseRules s))
    as (before & after & Hrules & Hcreated).
  assert (Hget : getRule (name first)
                   (createRule (name first) first (parseRules s)) = OwnRule first)
    by (unfold getRule; by rewrite Hfound).
  split; [|split; [exact Hget|split; [|split]]].
  - unfold addParseRule. cbn [parseRules]. by rewrite Hname, Hget.
  - intros key r. cbn [parseRules]. rewrite Hcreated, Hrules.
    rewrite !elem_of_app, elem_of_cons. tauto.
  - intros message l dev plat st Hok Hl Happ.
    unfold processDeviceLogResponse in *. cbn [parseRules] in *.
    apply forEachLine_returned; [done|done| |done].
    by apply ownRule_elem_of.
  - intros l m dev plat st Hline Happ Hm Hothers d. subst d.
    unfold processDeviceLogResponse. cbn [parseRules].
    rewrite split_lines_line by done. cbn [forEachLine].
    rewrite Hcreated, forEachRule_app. cbv zeta.
    destruct (forEachRule_unmatched before l dev plat st) as [Hok Hst].
    { intros key r Hin. apply (Hothers key). rewrite Hrules. apply elem_of_app.
      by left. }
    rewrite Hok, Hst. cbn [forEachRule]. rewrite Happ, Hm.
    destruct (handler first m dev st) as [[[]|err] st'] eqn:Hcall.
    + destruct (forEachRule_unmatched after l dev plat st') as [Hok' Hst'].
      { intros key r Hin. apply (Hothers key). rewrite Hrules. apply elem_of_app.
        by right. }
      cbn [outcome state evaluations evaluated fst snd].
      rewrite Hok', Hst'. cbn [outcome state evaluations].
      split; [done|]. split; [done|].
      rewrite app_nil_r. apply elem_of_app. right. by left.
    + cbn [outcome state evaluations fst snd].
      split; [done|]. split; [done|].
      apply elem_of_app. right. by left.
Qed.

End Dispatcher.

Lemma handler_exception_ends_ingestion_witness :
  LogParser.outcome
    (LogParser.processDeviceLogResponse LogParser.filteredRules LogParser.twoLines
       "dev-1" (Some "ANDROID") false) = Ok tt
  /\ {| LogParser.rule := "android"; LogParser.line := "JS: a";
        LogParser.matched := Some ["JS: a"] |}
     ∈ LogParser.evaluations
         (LogParser.processDeviceLogResponse LogParser.filteredRules
            LogParser.twoLines "dev-1" (Some "ANDROID") false)
  /\ {| LogParser.rule := "second"; LogParser.line := "b";
        LogParser.matched := Some ["b"] |}
     ∈ LogParser.evaluations
         (LogParser.processDeviceLogResponse LogParser.filteredRules
            LogParser.twoLines "dev-1" (Some "ANDROID") false)
  /\ LogParser.processDeviceLogResponse LogParser.twoRules "ready" "dev-1"
       (Some "ios") false
     = {| LogParser.outcome := Err (LogParser.Thrown "handler failed");
          LogParser.state := false;
          LogParser.evaluations :=
            [{| LogParser.rule := "first"; LogParser.line := "ready";
                LogParser.matched := Some ["ready"] |}] |}.
Proof.
  assert (Hok : LogParser.outcome
                  (LogParser.processDeviceLogResponse LogParser.filteredRules
                     LogParser.twoLines "dev-1" (Some "ANDROID") false) = Ok tt)
    by reflexivity.
  split; [exact Hok|]. split; [|split].
  - apply (proj1 (handler_exception_ends_ingestion LogParser.filteredRules
                    LogParser.twoLines "dev-1" (Some "ANDROID") false) Hok
             "JS: a" "android" LogParser.androidRule).
    + left.
    + left.
    + right. exists "Android", "ANDROID". by repeat split.
  - apply (proj1 (handler_exception_ends_ingestion LogParser.filteredRules
                    LogParser.twoLines "dev-1" (Some "ANDROID") false) Hok
             "b" "second" LogParser.markingRule).
    + right. left.
    + right. left.
    + by left.
  - exact (proj2 (handler_exception_ends_ingestion LogParser.twoRules
                    "ready" "dev-1" (Some "ios") false)
             [] "ready" [] [] "first" LogParser.throwingRule
             [("second", LogParser.markingRule)] ["ready"]
             (LogParser.Thrown "handler failed") false
             eq_refl eq_refl eq_refl eq_refl eq_refl eq_refl eq_refl).
Defined.

(** C8 fails on the code as stated: both rules are unfiltered and match the
    line, the handler of the first throws, and the second rule is never
    tested against the line. *)
Lemma rule_after_throwing_handler_skipped :
  let d := LogParser.processDeviceLogResponse LogParser.twoRules "ready" "dev-1"
             (Some "ios") false in
  LogParser.outcome d = Err (LogParser.Thrown "handler failed")
  /\ LogParser.state d = false
  /\ forall m, {| LogParser.rule := "second"; LogParser.line := "ready";
                  LogParser.matched := m |} ∉ LogParser.evaluations d.
Proof.
  simpl. split; [done|]. split; [done|]. intros m Hin.
  apply list_elem_of_singleton in Hin. discriminate Hin.
Qed.

Lemma duplicate_rule_rejected_witness :
  LogParser.getRule "hmrStatus"
    (LogParser.parseRules (@LogParser.emptyService HmrStatus.Service))
  = LogParser.Undefined
  /\ exists s1,
      HmrStatus.attachToHmrStatusEvent 2 3 false LogParser.emptyService = (Ok tt, s1)
      /\ LogParser.addParseRule (HmrStatus.hmrStatusRule 2 3) s1
         = (Err (LogParser.FailWithoutHelp "Log parse rule already exists."), s1)
      /\ LogParser.getRule "hmrStatus" (LogParser.parseRules s1)
         = LogParser.OwnRule (HmrStatus.hmrStatusRule 2 3)
      /\ LogParser.state
           (LogParser.processDeviceLogResponse s1
              (HmrStatus.statusLine HmrStatus.SUCCESS_MESSAGE "abc123") "dev-1"
              (Some "ios") HmrStatus.emptyService)
         = HmrStatus.setData 2 "abc123" "dev-1" HmrStatus.emptyService.
Proof.
  split; [reflexivity|].
  destruct (duplicate_rule_rejected LogParser.emptyService
              (HmrStatus.hmrStatusRule 2 3) (HmrStatus.hmrStatusRule 2 3)
              eq_refl eq_refl)
    as (s1 & Hfirst & _ & Hsecond & Hget & _ & _ & Hcall).
  exists s1. split; [exact Hfirst|]. split; [exact Hsecond|].
  split; [exact Hget|].
  destruct (Hcall (HmrStatus.statusLine HmrStatus.SUCCESS_MESSAGE "abc123")
              [HmrStatus.statusLine HmrStatus.SUCCESS_MESSAGE "abc123";
               HmrStatus.SUCCESS_MESSAGE; "abc123"]
              "dev-1" (Some "ios") HmrStatus.emptyService eq_refl eq_refl eq_refl)
    as (_ & Hstate & _).
  { intros key r Hin. by apply elem_of_nil in Hin. }
  exact Hstate.
Defined.

(** ** The status resolver *)

Section StatusResolver.
Import HmrStatus.

Variables HMR_SUCCESS_STATUS HMR_ERROR_STATUS : Z.

Local Abbreviation handleHmrStatusFound :=
  (handleHmrStatusFound HMR_SUCCESS_STATUS HMR_ERROR_STATUS).
Local Abbreviation hmrStatusRule := (hmrStatusRule HMR_SUCCESS_STATUS HMR_ERROR_STATUS).
Local Abbreviation attachToHmrStatusEvent :=
  (attachToHmrStatusEvent HMR_SUCCESS_STATUS HMR_ERROR_STATUS).
Local Abbreviation step := (step HMR_SUCCESS_STATUS HMR_ERROR_STATUS).
Local Abbreviation run := (run HMR_SUCCESS_STATUS HMR_ERROR_STATUS).

Lemma split_lines_one (s : string) :
  allChars notLineFeed s = true -> JS.split_lines s = [s].
Proof.
  induction s as [|c s IH]; [done|]. simpl. intros H.
  apply andb_true_iff in H as [Hc Hs]. unfold notLineFeed in Hc.
  destruct (Ascii.eqb c "010"); [done|]. by rewrite IH.
Qed.

Lemma split_lines_terminated (s : string) :
  allChars notLineFeed s = true ->
  JS.split_lines (s +:+ String "010" EmptyString) = [s; EmptyString].
Proof.
  induction s as [|c s IH]; [done|]. simpl. intros H.
  apply andb_true_iff in H as [Hc Hs]. unfold notLineFeed in Hc.
  rewrite ?append_cons. simpl.
  destruct (Ascii.eqb c "010"); [done|]. by rewrite IH.
Qed.

Lemma allChars_app cls (s t : string) :
  allChars cls (s +:+ t) = allChars cls s && allChars cls t.
Proof.
  induction s as [|c s IH]; [done|].
  rewrite append_cons. simpl. by rewrite IH, andb_assoc.
Qed.

Lemma allChars_weaken (cls cls' : ascii -> bool) (s : string) :
  (forall c, cls c = true -> cls' c = true) ->
  allChars cls s = true -> allChars cls' s = true.
Proof.
  intros Hsub. induction s as [|c s IH]; [done|]. simpl.
  rewrite !andb_true_iff. intros [Hc Hs]. auto.
Qed.

Lemma statusLine_one_line verb hash :
  allChars letterOrSpace verb = true ->
  allChars lowerOrDigit hash = true ->
  allChars notLineFeed (statusLine verb hash) = true.
Proof.
  intros Hverb Hhash. unfold statusLine. rewrite !allChars_app.
  rewrite (allChars_weaken letterOrSpace notLineFeed verb); [|
    intros c Hc; unfold notLineFeed;
    by destruct (Ascii.eqb_spec c "010"); [subst|] | done].
  rewrite (allChars_weaken lowerOrDigit notLineFeed hash); [done| |done].
  intros c Hc. unfold notLineFeed. by destruct (Ascii.eqb_spec c "010"); [subst|].
Qed.

(** The table after the first call of [attachToHmrStatusEvent]. *)
Lemma attached_rules :
  LogParser.parseRules (attachToHmrStatusEvent false LogParser.emptyService).2
  = [("hmrStatus", hmrStatusRule)].
Proof. reflexivity. Qed.

(** Ingesting a status line calls the handler once, with the groups of the
    pattern. *)
Lemma ingest_statusLine terminated verb hash deviceId plat (s : Service) :
  allChars letterOrSpace verb = true ->
  allChars lowerOrDigit hash = true ->
  LogParser.state
    (LogParser.processDeviceLogResponse
       (attachToHmrStatusEvent false LogParser.emptyService).2
       (chunk terminated (statusLine verb hash)) deviceId plat s)
  = (handleHmrStatusFound [statusLine verb hash; verb; hash] deviceId s).2.
Proof.
  intros Hverb Hhash.
  pose proof (statusLine_one_line verb hash Hverb Hhash) as Hone.
  unfold LogParser.processDeviceLogResponse. rewrite attached_rules.
  assert (Hrule : forall st,
    LogParser.forEachRule [("hmrStatus", hmrStatusRule)] (statusLine verb hash)
      deviceId plat st
    = match handleHmrStatusFound [statusLine verb hash; verb; hash] deviceId st with
      | (Ok _, st') =>
          {| LogParser.outcome := Ok tt; LogParser.state := st';
             LogParser.evaluations :=
               [{| LogParser.rule := "hmrStatus";
                   LogParser.line := statusLine verb hash;
                   LogParser.matched := Some [statusLine verb hash; verb; hash] |}] |}
      | (Err e, st') =>
          {| LogParser.outcome := Err e; LogParser.state := st';
             LogParser.evaluations :=
               [{| LogParser.rule := "hmrStatus";
                   LogParser.line := statusLine verb hash;
                   LogParser.matched := Some [statusLine verb hash; verb; hash] |}] |}
      end).
  { intros st. cbn [LogParser.forEachRule].
    rewrite applies_unfiltered by done.
    cbn [LogParser.regex LogParser.handler hmrStatusRule HmrStatus.hmrStatusRule].
    rewrite exec_statusLine by done.
    by destruct (handleHmrStatusFound _ deviceId st) as [[[]|e] st']. }
  assert (Hok : exists st',
    handleHmrStatusFound [statusLine verb hash; verb; hash] deviceId s = (Ok tt, st')).
  { unfold HmrStatus.handleHmrStatusFound. simpl.
    destruct (truthy _); eauto. }
  destruct Hok as [st' Hok].
  assert (Hempty : forall st,
    LogParser.forEachRule [("hmrStatus", hmrStatusRule)] EmptyString deviceId plat st
    = {| LogParser.outcome := Ok tt; LogParser.state := st;
         LogParser.evaluations :=
           [{| LogParser.rule := "hmrStatus"; LogParser.line := EmptyString;
               LogParser.matched := None |}] |}).
  { intros st. cbn [LogParser.forEachRule].
    by rewrite applies_unfiltered. }
  destruct terminated; simpl.
  - rewrite split_lines_terminated by done. cbn [LogParser.forEachLine].
    rewrite (Hrule s), Hok. cbn [LogParser.outcome LogParser.state].
    by rewrite Hempty.
  - rewrite split_lines_one by done. cbn [LogParser.forEachLine].
    by rewrite (Hrule s), Hok.
Qed.

Lemma truthy_nonzero z : z <> 0%Z -> truthy (Some z) = true.
Proof. intros H. simpl. by apply negb_true_iff, Z.eqb_neq. Qed.

Lemma handle_success l hash deviceId (s : Service) :
  HMR_SUCCESS_STATUS <> 0%Z ->
  handleHmrStatusFound [l; SUCCESS_MESSAGE; hash] deviceId s
  = (Ok tt, setData HMR_SUCCESS_STATUS hash deviceId s).
Proof.
  intros H. unfold HmrStatus.handleHmrStatusFound.
  change ([l; SUCCESS_MESSAGE; hash] !! 1%nat) with (Some SUCCESS_MESSAGE).
  cbv beta iota.
  change (JS.trim SUCCESS_MESSAGE) with SUCCESS_MESSAGE.
  rewrite decide_True by done. by rewrite truthy_nonzero.
Qed.

Lemma handle_failure l hash deviceId (s : Service) :
  HMR_ERROR_STATUS <> 0%Z ->
  handleHmrStatusFound [l; FAILED_MESSAGE; hash] deviceId s
  = (Ok tt, setData HMR_ERROR_STATUS hash deviceId s).
Proof.
  intros H. unfold HmrStatus.handleHmrStatusFound.
  change ([l; FAILED_MESSAGE; hash] !! 1%nat) with (Some FAILED_MESSAGE).
  cbv beta iota.
  change (JS.trim FAILED_MESSAGE) with FAILED_MESSAGE.
  rewrite decide_False by done. rewrite decide_True by done.
  by rewrite truthy_nonzero.
Qed.

Lemma handle_started l hash deviceId (s : Service) :
  handleHmrStatusFound [l; STARTED_MESSAGE; hash] deviceId s = (Ok tt, s).
Proof.
  unfold HmrStatus.handleHmrStatusFound.
  change ([l; STARTED_MESSAGE; hash] !! 1%nat) with (Some STARTED_MESSAGE).
  cbv beta iota.
  change (JS.trim STARTED_MESSAGE) with STARTED_MESSAGE.
  by rewrite !decide_False by done.
Qed.

(** A firing that finds a truthy status resolves the promise of its wait
    with that status. *)
Lemma tick_resolves h t status (s : Service) :
  timers s !! h = Some t ->
  getStatusByKey (key t) s = Some status ->
  status <> 0%Z ->
  promises s !! h = None ->
  promises (tick h s) !! h = Some (Some status).
Proof.
  intros Ht Hstatus Hnz Hpending. unfold tick. rewrite Ht, Hstatus.
  rewrite truthy_nonzero by done. simpl. unfold resolve. rewrite Hpending.
  apply lookup_insert_eq.
Qed.

Lemma clearInterval_absent handle (running : gmap nat Timer) h :
  running !! h = None -> clearInterval handle running !! h = None.
Proof.
  intros H. destruct handle as [[h'|]|]; simpl; [|done|done].
  rewrite lookup_delete. by case_decide.
Qed.

Lemma dispose_absent (s : Service) h :
  timers s !! h = None -> timers (dispose s) !! h = None.
Proof.
  intros H. unfold dispose. simpl.
  apply (map_fold_weak_ind
           (fun (running : gmap nat Timer) (_ : gmap string (option nat)) =>
              running !! h = None)); [done|].
  intros k handle m running _ IH.
  exact (clearInterval_absent (Some handle) running h IH).
Qed.

(** A wait whose interval has been cleared while its promise is pending is
    never resolved, whatever happens afterwards. *)
Lemma orphaned_wait_stays_pending events (s : Service) h :
  promises s !! h = None ->
  timers s !! h = None ->
  (h < nextHandle s)%nat ->
  promises (run events s) !! h = None.
Proof.
  revert s. induction events as [|e events IH]; intros s Hp Ht Hlt; [done|].
  simpl. apply IH; destruct e as [deviceId operationHash|h'|matches deviceId|]; simpl.
  - done.
  - unfold tick. destruct (timers s !! h') as [t|] eqn:Hh'; [|done].
    destruct (truthy _ || _); simpl; [|done].
    unfold resolve. destruct (promises s !! h'); [done|].
    rewrite lookup_insert_ne; [done|congruence].
  - unfold HmrStatus.handleHmrStatusFound.
    destruct (matches !! 1%nat); [|done]. by destruct (truthy _).
  - done.
  - rewrite lookup_insert_ne; [done|lia].
  - unfold tick. destruct (timers s !! h') as [t|] eqn:Hh'; [|done].
    destruct (truthy _ || _); simpl.
    + by apply clearInterval_absent.
    + rewrite lookup_insert_ne; [done|congruence].
  - unfold HmrStatus.handleHmrStatusFound.
    destruct (matches !! 1%nat); [|done]. by destruct (truthy _).
  - by apply dispose_absent.
  - lia.
  - unfold tick. destruct (timers s !! h'); [|done].
    by destruct (truthy _ || _).
  - unfold HmrStatus.handleHmrStatusFound.
    destruct (matches !! 1%nat); [|done]. by destruct (truthy _).
  - done.
Qed.

(** A wait nobody interferes with: while no truthy status is recorded under
    its key, each of its first 40 firings only counts down, and the 41st
    resolves it with what [getStatusByKey] returns. *)
Lemma lone_wait_counts_down deviceId operationHash (s : Service) n :
  truthy (getStatusByKey (deviceId +:+ operationHash) s) = false ->
  (n <= 40)%nat ->
  Nat.iter n (tick (nextHandle s)) (getHmrStatus deviceId operationHash s).2
  = {| hashOperationStatuses := hashOperationStatuses s;
       intervals := <[deviceId +:+ operationHash := Some (nextHandle s)]> (intervals s);
       timers := <[nextHandle s := {| key := deviceId +:+ operationHash;
                                      retryCount := 40 - Z.of_nat n |}]> (timers s);
       promises := promises s;
       nextHandle := S (nextHandle s) |}.
Proof.
  intros Hstatus. induction n as [|n IH]; intros Hn; [done|].
  rewrite Nat.iter_succ, IH by lia. unfold tick. simpl.
  rewrite lookup_insert_eq. simpl.
  unfold getStatusByKey in *. simpl. rewrite Hstatus. simpl.
  destruct (Z.eqb_spec (40 - Z.of_nat n) 0); [lia|].
  rewrite insert_insert_eq. do 3 f_equal. lia.
Qed.

Lemma lone_wait_times_out deviceId operationHash (s : Service) :
  fresh s ->
  getStatusByKey (deviceId +:+ operationHash) s = None ->
  let h := nextHandle s in
  let waiting := (getHmrStatus deviceId operationHash s).2 in
  (forall n, (n <= 40)%nat -> promises (Nat.iter n (tick h) waiting) !! h = None)
  /\ promises (Nat.iter 41 (tick h) waiting) !! h = Some None
  /\ timers (Nat.iter 41 (tick h) waiting) !! h = None.
Proof.
  intros Hfresh Hstatus h waiting.
  assert (Hfalsy : truthy (getStatusByKey (deviceId +:+ operationHash) s) = false)
    by (by rewrite Hstatus).
  destruct (Hfresh h (le_n _)) as [_ Hpending].
  split; [|split].
  - intros n Hn. unfold waiting, h. by rewrite lone_wait_counts_down.
  - unfold waiting, h. rewrite Nat.iter_succ, lone_wait_counts_down by done.
    unfold tick. simpl. rewrite lookup_insert_eq. simpl.
    unfold getStatusByKey in *. simpl. rewrite Hstatus. simpl.
    unfold resolve. fold h. rewrite Hpending. apply lookup_insert_eq.
  - unfold waiting, h. rewrite Nat.iter_succ, lone_wait_counts_down by done.
    unfold tick. simpl. rewrite lookup_insert_eq. simpl.
    unfold getStatusByKey in *. simpl. rewrite Hstatus. simpl.
    rewrite lookup_insert_eq. simpl. apply lookup_delete_eq.
Qed.

(** What the handler leaves alone. *)
Lemma handler_keeps_waits matches deviceId (s : Service) :
  let s' := (handleHmrStatusFound matches deviceId s).2 in
  intervals s' = intervals s /\ timers s' = timers s
  /\ promises s' = promises s /\ nextHandle s' = nextHandle s.
Proof.
  unfold HmrStatus.handleHmrStatusFound.
  destruct (matches !! 1%nat); [|done]. by destruct (truthy _).
Qed.

(** A promise that was resolved keeps its value, whatever happens later. *)
Lemma resolved_stays_resolved events (s : Service) h value :
  promises s !! h = Some value -> promises (run events s) !! h = Some value.
Proof.
  revert s. induction events as [|e events IH]; intros s H; [done|].
  simpl. apply IH. destruct e as [deviceId operationHash|h'|matches deviceId|]; simpl.
  - done.
  - unfold tick. destruct (timers s !! h'); [|done].
    destruct (truthy _ || _); simpl; [|done].
    unfold resolve. destruct (promises s !! h') eqn:Hh'; [done|].
    rewrite lookup_insert_ne; [done|congruence].
  - by rewrite (proj1 (proj2 (proj2 (handler_keeps_waits matches deviceId s)))).
  - done.
Qed.


(** C7, on two overlapping waits for one key with no status ever recorded.
    Both store their handle under the same entry of [intervals], so the 41st
    firing of the first wait clears the interval of the second: the first
    resolves with [null] and keeps its interval, the second has fired 40
    times, has no interval left and is never resolved, whatever happens
    afterwards. *)
Theorem overlapping_wait_never_resolves :
  let s := run overlappingWaits emptyService in
  promises s !! 0%nat = Some None
  /\ timers s !! 0%nat = Some {| key := "dev-1abc123"; retryCount := 0 |}
  /\ promises s !! 1%nat = None
  /\ timers s !! 1%nat = None
  /\ forall events, promises (run events s) !! 1%nat = None.
Proof.
  intros s.
  assert (H0 : promises s !! 0%nat = Some None) by (vm_compute; reflexivity).
  assert (H0' : timers s !! 0%nat
                = Some {| key := "dev-1abc123"; retryCount := 0 |})
    by (vm_compute; reflexivity).
  assert (H1 : promises s !! 1%nat = None) by (vm_compute; reflexivity).
  assert (H2 : timers s !! 1%nat = None) by (vm_compute; reflexivity).
  assert (H3 : nextHandle s = 2%nat) by (vm_compute; reflexivity).
  split; [done|]. split; [done|]. split; [done|]. split; [done|].
  intros events. apply orphaned_wait_stays_pending; [done|done|lia].
Qed.

End StatusResolver.



(** ** Payloads of the preview sync *)

Section FilesPayloads.
Import PreviewLiveSync.

Variable host : Host.

Lemma mapM_elem_of_r {A B} (f : A -> option B) (l : list A) (k : list B) y :
  mapM f l = Some k -> y ∈ k -> exists x, x ∈ l /\ f x = Some y.
Proof.
  intros Hm Hy. apply mapM_Some_1 in Hm.
  apply list_elem_of_lookup in Hy as [i Hi].
  destruct (Forall2_lookup_r _ _ _ _ _ Hm Hi) as (x & Hx & Hfx).
  exists x. split; [|done]. apply list_elem_of_lookup. eauto.
Qed.

Lemma mapM_elem_of_l {A B} (f : A -> option B) (l : list A) (k : list B) x :
  mapM f l = Some k -> x ∈ l -> exists y, y ∈ k /\ f x = Some y.
Proof.
  intros Hm Hx. apply mapM_Some_1 in Hm.
  apply list_elem_of_lookup in Hx as [i Hi].
  destruct (Forall2_lookup_l _ _ _ _ _ Hm Hi) as (y & Hy & Hfx).
  exists y. split; [|done]. apply list_elem_of_lookup. eauto.
Qed.

Lemma createFilePayload_event f platformData projectData ev e :
  createFilePayload host f platformData projectData ev = Some e -> event e = ev.
Proof.
  unfold createFilePayload. destruct ev; simpl.
  - match goal with
    | |- context [mbind _ ?m] => destruct m; simpl; [|done]
    end.
    by intros [= <-].
  - by intros [= <-].
Qed.

(** C9 (as the code has it). In a payload of [getFilesPayload] every change
    entry is made from a file to sync whose path contains neither excluded
    folder name, whose base name is not excluded and whose extension is not
    in the excluded set. The files to remove are not filtered: each of them
    has its unlink entry. *)
Theorem change_entries_skip_excluded_files platformData projectData
    (filesToSync filesToRemove : list string) payload :
  getFilesPayload host platformData projectData filesToSync filesToRemove
  = Some payload ->
  (forall e,
      e ∈ files payload -> event e = CHANGE_EVENT_NAME ->
      exists f,
        f ∈ filesToSync
        /\ createFilePayload host f platformData projectData CHANGE_EVENT_NAME = Some e
        /\ JS.includes (TNS_MODULES_FOLDER_NAME host) f = false
        /\ JS.includes (APP_RESOURCES_FOLDER_NAME host) f = false
        /\ (basename host f ∉ excludedFiles)
        /\ (extname host f ∉ excludedFileExtensions))
  /\ (forall f,
        f ∈ filesToRemove ->
        exists e,
          e ∈ files payload
          /\ createFilePayload host f platformData projectData UNLINK_EVENT_NAME
             = Some e
          /\ event e = UNLINK_EVENT_NAME).
Proof.
  unfold getFilesPayload. intros Hpayload.
  destruct (mapM _ (filter _ _)) as [toSync|] eqn:HtoSync; [|done].
  destruct (mapM _ filesToRemove) as [toRemove|] eqn:HtoRemove; [|done].
  simpl in Hpayload. injection Hpayload as <-. simpl. split.
  - intros e He Hev. apply elem_of_app in He as [He|He].
    + destruct (mapM_elem_of_r _ _ _ _ HtoSync He) as (f & Hf & Hmade).
      exists f. rewrite !list_elem_of_filter in Hf.
      destruct Hf as (Hext & Hbase & Hres & Htns & Hin).
      apply negb_prop_elim in Hext, Hbase, Hres, Htns.
      rewrite bool_decide_spec in Hext, Hbase.
      split; [done|]. split; [done|].
      split; [by apply Is_true_false|].
      split; [by apply Is_true_false|]. done.
    + destruct (mapM_elem_of_r _ _ _ _ HtoRemove He) as (f & _ & Hmade).
      apply createFilePayload_event in Hmade. congruence.
  - intros f Hf.
    destruct (mapM_elem_of_l _ _ _ _ HtoRemove Hf) as (e & He & Hmade).
    exists e. split; [apply elem_of_app; by right|]. split; [done|].
    by eapply createFilePayload_event.
Qed.

(** Every payload a sync cycle resolves with is a payload of
    [getFilesPayload]: of the project files for the initial sync, and else of
    the mapped files to sync and the files to remove. *)
Lemma cycle_payload_from_getFilesPayload prepared applied projectFiles
    platformData projectData opts payload :
  syncFilesForPlatformSafe host prepared applied projectFiles platformData
    projectData opts = Some payload ->
  if isInitialSync opts
  then getFilesPayload host platformData projectData projectFiles [] = Some payload
  else getFilesPayload host platformData projectData
         (map (fun f => mapFilePath host f (normalizedPlatformName platformData))
            (filesToSync opts))
         (filesToRemove opts) = Some payload.
Proof.
  unfold syncFilesForPlatformSafe.
  destruct (negb (skipPrepare opts) && negb prepared); [done|].
  destruct (isInitialSync opts); [done|].
  destruct (getFilesPayload _ _ _ _ _) as [payloads|]; simpl; [|done].
  destruct applied; [|done]. by intros [= <-].
Qed.

End FilesPayloads.

Lemma change_entries_skip_excluded_files_witness :
  exists payload,
    PreviewLiveSync.getFilesPayload PreviewLiveSync.sampleHost
      PreviewLiveSync.samplePlatform PreviewLiveSync.sampleProject
      ["platforms/android/app/main.js"; "platforms/android/app/main.ts"] []
    = Some payload
    /\ forall e,
        e ∈ PreviewLiveSync.files payload ->
        PreviewLiveSync.event e = PreviewLiveSync.CHANGE_EVENT_NAME ->
        exists f,
          f ∈ ["platforms/android/app/main.js"; "platforms/android/app/main.ts"]
          /\ PreviewLiveSync.extname PreviewLiveSync.sampleHost f
             ∉ PreviewLiveSync.excludedFileExtensions.
Proof.
  eexists. split; [reflexivity|]. intros e He Hev.
  destruct (proj1 (change_entries_skip_excluded_files PreviewLiveSync.sampleHost
                     PreviewLiveSync.samplePlatform PreviewLiveSync.sampleProject
                     ["platforms/android/app/main.js"; "platforms/android/app/main.ts"]
                     [] _ eq_refl) e He Hev)
    as (f & Hf & _ & _ & _ & _ & Hext).
  exists f. split; [exact Hf | exact Hext].
Defined.

(** C9 fails on the code as stated: the unlink entry of a removed TypeScript
    source is part of the payload. *)
Lemma unlink_entry_for_excluded_extension :
  exists e,
    PreviewLiveSync.files
      <$> PreviewLiveSync.getFilesPayload PreviewLiveSync.sampleHost
            PreviewLiveSync.samplePlatform PreviewLiveSync.sampleProject
            [] ["project/app/main.ts"]
    = Some [e]
    /\ PreviewLiveSync.createFilePayload PreviewLiveSync.sampleHost
         "project/app/main.ts" PreviewLiveSync.samplePlatform
         PreviewLiveSync.sampleProject PreviewLiveSync.UNLINK_EVENT_NAME = Some e
    /\ PreviewLiveSync.event e = PreviewLiveSync.UNLINK_EVENT_NAME
    /\ PreviewLiveSync.extname PreviewLiveSync.sampleHost "project/app/main.ts"
       ∈ PreviewLiveSync.excludedFileExtensions.
Proof.
  eexists. split; [reflexivity|]. split; [reflexivity|]. split; [reflexivity|].
  change (PreviewLiveSync.extname PreviewLiveSync.sampleHost "project/app/main.ts")
    with ".ts". by left.
Qed.

(** ** The session initializer *)

Section SessionInitializer.
Import PreviewLiveSync.

Implicit Types (s : Initializer) (e : SessionEvent).

Lemma consistent_empty : consistent emptyInitializer.
Proof. intros p device H. simpl in H. by rewrite lookup_empty in H. Qed.

(** A call either leaves the state as it is, or starts an initialization
    for a device whose slot holds no promise. *)
Lemma initialize_cases (device : Device) s :
  (initialize (Some device) s).2 = s
  \/ (initialize (Some device) s = startInitialization device s
      /\ forall p, deviceInitializationPromise s !! id device <> Some (Some p)).
Proof.
  cbn [initialize].
  destruct (deviceInitializationPromise s !! id device) as [[p|]|];
    [by left|by right|].
  destruct (JS.inherited (id device)); [by left|by right].
Qed.

Lemma nextPromise_step s e : (nextPromise s <= nextPromise (sessionStep s e))%nat.
Proof.
  destruct e as [[device|]|p o]; cbn [sessionStep]; [| done |].
  - destruct (initialize_cases device s) as [->|[-> _]]; simpl; lia.
  - unfold settle. by destruct (awaiting s !! p).
Qed.

Lemma nextPromise_run events s :
  (nextPromise s <= nextPromise (sessionRun events s))%nat.
Proof.
  revert s. induction events as [|e events IH]; intros s; simpl; [done|].
  etrans; [apply (nextPromise_step s e)|apply IH].
Qed.

Lemma initialize_starts (device : Device) s :
  JS.inherited (id device) = false ->
  (forall p, deviceInitializationPromise s !! id device <> Some (Some p)) ->
  initialize (Some device) s
  = (Follows (nextPromise s),
     {| deviceInitializationPromise :=
          <[id device := Some (nextPromise s)]> (deviceInitializationPromise s);
        started := started s ++ [(nextPromise s, id device)];
        awaiting := <[nextPromise s := id device]> (awaiting s);
        settled := settled s;
        nextPromise := S (nextPromise s) |}).
Proof.
  intros Hown Hfree. cbn [initialize]. rewrite Hown.
  destruct (deviceInitializationPromise s !! id device) as [[p|]|] eqn:Hslot;
    [by destruct (Hfree p)|done|done].
Qed.

Lemma consistent_step s e : consistent s -> consistent (sessionStep s e).
Proof.
  intros Hs. destruct e as [[device|]|q o]; cbn [sessionStep]; [| done |].
  - destruct (initialize_cases device s) as [->|[-> Hfree]]; [done|].
    intros p' device' Hp'. simpl in *.
    destruct (decide (p' = nextPromise s)) as [->|Hne].
    + rewrite lookup_insert_eq in Hp'. injection Hp' as <-.
      rewrite lookup_insert_eq. split; [done|lia].
    + rewrite lookup_insert_ne in Hp' by done.
      destruct (Hs p' device' Hp') as [Hslot' Hlt].
      rewrite lookup_insert_ne; [split; [done|lia]|].
      intros <-. by destruct (Hfree p').
  - unfold settle. destruct (awaiting s !! q) as [device|] eqn:Hq; [|done].
    intros p' device' Hp'. simpl in *.
    destruct (decide (p' = q)) as [->|Hne];
      [by rewrite lookup_delete_eq in Hp'|].
    rewrite lookup_delete_ne in Hp' by done.
    destruct (Hs p' device' Hp') as [Hslot' Hlt].
    destruct (Hs q device Hq) as [Hslot Hltq].
    rewrite lookup_insert_ne by congruence. done.
Qed.

Lemma consistent_run events s : consistent s -> consistent (sessionRun events s).
Proof.
  revert s. induction events as [|e events IH]; intros s Hs; simpl; [done|].
  apply IH. by apply consistent_step.
Qed.

Lemma inFlight_step p device s e :
  consistent s -> inFlight p device s -> settles p e = false ->
  inFlight p device (sessionStep s e)
  /\ startedFor device (sessionStep s e) = startedFor device s.
Proof.
  intros Hs [Hslot Hwait] He.
  destruct e as [[device'|]|q o]; cbn [sessionStep]; [| done |].
  - destruct (initialize_cases device' s) as [->|[-> Hfree]]; [done|].
    assert (Hne : id device' <> device).
    { intros <-. by destruct (Hfree p). }
    split; [split; simpl|].
    + by rewrite lookup_insert_ne.
    + rewrite lookup_insert_ne; [done|].
      destruct (Hs p device Hwait); lia.
    + unfold startedFor; simpl. rewrite filter_app.
      rewrite filter_cons_False by done. by rewrite app_nil_r.
  - simpl in He. apply bool_decide_eq_false in He.
    unfold settle. destruct (awaiting s !! q) as [device'|] eqn:Hq; [|done].
    split; [|done]. split; simpl.
    + rewrite lookup_insert_ne; [done|]. intros ->.
      destruct (Hs q device Hq) as [Hslot' _]. congruence.
    + by rewrite lookup_delete_ne.
Qed.

Lemma inFlight_run events p device s :
  consistent s -> inFlight p device s ->
  forallb (fun e => negb (settles p e)) events = true ->
  inFlight p device (sessionRun events s)
  /\ startedFor device (sessionRun events s) = startedFor device s.
Proof.
  revert s. induction events as [|e events IH]; intros s Hs Hin Hev; [done|].
  simpl in Hev. apply andb_true_iff in Hev as [He Hev].
  apply negb_true_iff in He.
  destruct (inFlight_step p device s e Hs Hin He) as [Hin' Hstarted].
  simpl. destruct (IH (sessionStep s e) (consistent_step s e Hs) Hin' Hev)
    as [Hin'' Hstarted'].
  split; [done|]. by rewrite Hstarted'.
Qed.

(** For a device whose id is not the name of a member of
    [Object.prototype]: when its slot is free, a call starts the
    initialization and puts its promise in the slot. Until that promise
    settles, whatever else happens, every call for the device returns the
    same promise and starts nothing: the initialization has run once. When
    the promise settles, fulfilled or rejected, the slot is set to [null],
    and the next call starts a fresh initialization. *)
Lemma single_flight_initialization (device : Device) events o s :
  JS.inherited (id device) = false ->
  consistent s ->
  (forall p, deviceInitializationPromise s !! id device <> Some (Some p)) ->
  forallb (fun e => negb (settles (nextPromise s) e)) events = true ->
  let p := nextPromise s in
  let during := sessionRun events (initialize (Some device) s).2 in
  let after := settle p o during in
  (initialize (Some device) s).1 = Follows p
  /\ initialize (Some device) during = (Follows p, during)
  /\ startedFor (id device) during = startedFor (id device) s ++ [(p, id device)]
  /\ deviceInitializationPromise after !! id device = Some None
  /\ settled after !! p = Some o
  /\ (initialize (Some device) after).1 = Follows (nextPromise after)
  /\ nextPromise after <> p
  /\ startedFor (id device) (initialize (Some device) after).2
     = startedFor (id device) s ++ [(p, id device); (nextPromise after, id device)].
Proof.
  intros Hown Hs Hfree Hevents p during after.
  pose proof (initialize_starts device s Hown Hfree) as Hstart.
  assert (Hs1 : consistent (initialize (Some device) s).2)
    by apply (consistent_step s (Connected (Some device)) Hs).
  assert (Hin1 : inFlight p (id device) (initialize (Some device) s).2).
  { rewrite Hstart. split; simpl; apply lookup_insert_eq. }
  destruct (inFlight_run events p (id device) _ Hs1 Hin1 Hevents)
    as [[Hslot Hwait] Hstarted].
  fold during in Hslot, Hwait, Hstarted.
  assert (Hstarted1 : startedFor (id device) (initialize (Some device) s).2
                      = startedFor (id device) s ++ [(p, id device)]).
  { rewrite Hstart. unfold startedFor. simpl. rewrite filter_app.
    by rewrite filter_cons_True. }
  assert (Hafter : after
                   = {| deviceInitializationPromise :=
                          <[id device := None]> (deviceInitializationPromise during);
                        started := started during;
                        awaiting := delete p (awaiting during);
                        settled := <[p := o]> (settled during);
                        nextPromise := nextPromise during |}).
  { unfold after, settle. by rewrite Hwait. }
  assert (Hnext : (S p <= nextPromise after)%nat).
  { rewrite Hafter. simpl. unfold during.
    etrans; [|apply nextPromise_run]. by rewrite Hstart. }
  assert (Hfree' : forall q, deviceInitializationPromise after !! id device
                             <> Some (Some q)).
  { intros q. rewrite Hafter. simpl. by rewrite lookup_insert_eq. }
  pose proof (initialize_starts device after Hown Hfree') as Hrestart.
  split; [by rewrite Hstart|]. split; [cbn [initialize]; by rewrite Hslot|].
  split; [by rewrite Hstarted, Hstarted1|].
  split; [rewrite Hafter; simpl; apply lookup_insert_eq|].
  split; [rewrite Hafter; simpl; apply lookup_insert_eq|].
  split; [by rewrite Hrestart|]. split; [lia|].
  rewrite Hrestart. unfold startedFor. simpl. rewrite filter_app.
  rewrite filter_cons_True by done. rewrite filter_nil.
  replace (started after) with (started during) by (by rewrite Hafter).
  fold (startedFor (id device) during). rewrite Hstarted, Hstarted1.
  by rewrite <- app_assoc.
Qed.

Lemma untouched_step (device : string) s e :
  JS.inherited device = true -> untouched device s ->
  untouched device (sessionStep s e).
Proof.
  intros Hproto (Hslot & Hwait & Hstarted).
  destruct e as [[device'|]|q o]; cbn [sessionStep]; [| done |].
  - destruct (initialize_cases device' s) as [->|[Hinit Hfree]]; [done|].
    assert (Hne : id device' <> device).
    { intros Heq. revert Hinit. cbn [initialize]. rewrite Heq, Hslot, Hproto.
      unfold startInitialization. intros [= _]. }
    rewrite Hinit. split; [|split]; simpl.
    + by rewrite lookup_insert_ne.
    + intros p. destruct (decide (p = nextPromise s)) as [->|Hp].
      * rewrite lookup_insert_eq. congruence.
      * rewrite lookup_insert_ne by done. apply Hwait.
    + unfold startedFor. simpl. rewrite filter_app.
      rewrite filter_cons_False by done. rewrite app_nil_r. exact Hstarted.
  - unfold settle. destruct (awaiting s !! q) as [device'|] eqn:Hq; [|done].
    assert (Hne : device' <> device).
    { intros ->. by destruct (Hwait q). }
    split; [|split]; simpl.
    + by rewrite lookup_insert_ne.
    + intros p. destruct (decide (p = q)) as [->|Hp].
      * by rewrite lookup_delete_eq.
      * rewrite lookup_delete_ne by done. apply Hwait.
    + exact Hstarted.
Qed.

Lemma untouched_run (device : string) events s :
  JS.inherited device = true -> untouched device s ->
  untouched device (sessionRun events s).
Proof.
  intros Hproto. revert s.
  induction events as [|e events IH]; intros s Hs; simpl; [done|].
  apply IH. by apply untouched_step.
Qed.

(** C3, on the code. The slot of a device is read from a plain object, by
    truthiness. For the device whose id is [constructor] the read gives the
    member of [Object.prototype]: whatever happened before, the call returns
    that member, leaves the state as it is, and no initialization has been
    or is started for the device. *)
Theorem prototype_named_device_never_initialized events (platform : string) :
  let device := {| id := "constructor"; devicePlatform := platform |} in
  let s := sessionRun events emptyInitializer in
  initialize (Some device) s = (Inherits "constructor", s)
  /\ startedFor "constructor" s = []
  /\ startedFor "constructor" (initialize (Some device) s).2 = []
  /\ deviceInitializationPromise (initialize (Some device) s).2 !! "constructor"
     = None.
Proof.
  intros device s.
  assert (Hs : untouched "constructor" s).
  { apply untouched_run; [reflexivity|].
    split; [apply lookup_empty|]. split; [|reflexivity].
    intros p. simpl. by rewrite lookup_empty. }
  destruct Hs as (Hslot & _ & Hstarted).
  assert (Hcall : initialize (Some device) s = (Inherits "constructor", s)).
  { cbn [initialize]. change (id device) with "constructor". by rewrite Hslot. }
  rewrite Hcall. done.
Qed.

End SessionInitializer.

Lemma single_flight_initialization_witness :
  JS.inherited "device-1" = false
  /\ PreviewLiveSync.consistent PreviewLiveSync.emptyInitializer
  /\ (forall p, PreviewLiveSync.deviceInitializationPromise
                  PreviewLiveSync.emptyInitializer !! "device-1" <> Some (Some p))
  /\ PreviewLiveSync.initialize (Some PreviewLiveSync.device1)
       (PreviewLiveSync.sessionRun
          [PreviewLiveSync.Connected (Some PreviewLiveSync.device1)]
          (PreviewLiveSync.initialize (Some PreviewLiveSync.device1)
             PreviewLiveSync.emptyInitializer).2)
     = (PreviewLiveSync.Follows 0,
        PreviewLiveSync.sessionRun
          [PreviewLiveSync.Connected (Some PreviewLiveSync.device1)]
          (PreviewLiveSync.initialize (Some PreviewLiveSync.device1)
             PreviewLiveSync.emptyInitializer).2).
Proof.
  assert (Hfree : forall p, PreviewLiveSync.deviceInitializationPromise
                              PreviewLiveSync.emptyInitializer
                              !! PreviewLiveSync.id PreviewLiveSync.device1
                            <> Some (Some p)).
  { intros p. simpl. by rewrite lookup_empty. }
  split; [reflexivity|]. split; [exact consistent_empty|]. split; [exact Hfree|].
  exact (proj1 (proj2 (single_flight_initialization PreviewLiveSync.device1
                         [PreviewLiveSync.Connected (Some PreviewLiveSync.device1)]
                         (PreviewLiveSync.Fulfilled None)
                         PreviewLiveSync.emptyInitializer
                         eq_refl consistent_empty Hfree eq_refl))).
Defined.

(** ** The sync requests of the preview hook *)

Section SyncRequests.
Import PreviewLiveSync.

Implicit Types (s : Scheduler) (e : SyncEvent).

Lemma filter_split_length {A} (p : A -> bool) (l : list A) :
  length (filter (fun x => p x = true) l) + length (filter (fun x => p x = false) l)
  = length l.
Proof.
  induction l as [|x l IH]; [done|].
  destruct (p x) eqn:Hp.
  - rewrite filter_cons_True, filter_cons_False by congruence. simpl. lia.
  - rewrite filter_cons_False, filter_cons_True by congruence. simpl. lia.
Qed.

Lemma startCycles_served (ready : list (nat * string)) s :
  let s' := fold_left (fun s' cb => startCycle s' cb.2) ready s in
  length (cycles s') = length (cycles s) + length ready
  /\ thenCallbacks s' = thenCallbacks s.
Proof.
  revert s. induction ready as [|cb ready IH]; intros s; simpl; [split; [lia|done]|].
  destruct (IH (startCycle s cb.2)) as [Hc Ht]. simpl in *.
  rewrite Hc, Ht. rewrite length_app. simpl. split; [lia|done].
Qed.

Lemma served_microtasks s : served (runResets (runCallbacks s)) = served s.
Proof.
  unfold served, runResets, runCallbacks. simpl.
  match goal with
  | |- context [fold_left ?f ?ready ?s0] =>
      destruct (startCycles_served ready s0) as [Hc Ht]
  end.
  simpl in *. rewrite Hc, Ht.
  pose proof (filter_split_length (isSettled s) (thenCallbacks s)). lia.
Qed.

Lemma served_step s e :
  served (syncStep s e) = served s + (if isRequest e then 1 else 0).
Proof.
  destruct e; simpl; [unfold served; simpl; lia| |unfold served; simpl; lia|].
  - unfold served. simpl. rewrite length_app. simpl. lia.
  - rewrite served_microtasks. lia.
Qed.

Lemma served_run events s :
  served (syncRun events s) = served s + length (filter (fun e => isRequest e = true) events).
Proof.
  revert s. induction events as [|e events IH]; intros s; simpl; [lia|].
  rewrite IH, served_step. destruct (isRequest e) eqn:He.
  - rewrite filter_cons_True by done. simpl. lia.
  - rewrite filter_cons_False by congruence. lia.
Qed.


End SyncRequests.



(** * Further properties *)

(** ** Transfer to an Android device: calls, results and the stored table *)

Section AndroidTransferCalls.
Import AndroidLiveSync.

Variable hashFileDevicePath : string -> string.
Variable acknowledged : TransportOp -> bool.
Variable generateHashes : list LocalToDevicePathData -> gmap string string.

Local Abbreviation transferFiles :=
  (transferFiles hashFileDevicePath acknowledged generateHashes).

Ltac runTransfer :=
  unfold AndroidLiveSync.transferFiles, transferFilesCore,
    getLocalToDevicePathsToTransfer, getChangedLocalToDevicePaths,
    getShasumsFromDevice, call, mbind, M_bind, bind, mret, M_ret, ret.

Ltac onEachOutcome :=
  repeat (match goal with
          | |- context [acknowledged ?o] => destruct (acknowledged o) eqn:?; simpl
          end).

Ltac onEachOutcomeOf H :=
  repeat (match type of H with
          | context [acknowledged ?o] =>
              destruct (acknowledged o) eqn:?; simpl in H
          end).

(** A transfer ends at the first call the device does not acknowledge, and
    only there. Whatever the device answers, the transfer is rejected
    exactly when the last call it issued was not acknowledged: it is
    rejected with that call, and every call before it was acknowledged; and
    a transfer that resolves issued acknowledged calls only. *)
Theorem rejected_call_ends_transfer app (paths : list LocalToDevicePathData)
    projectFilesPath options d :
  exists issued,
    oplog (transferFiles app paths projectFilesPath options d).2
    = oplog d ++ issued
    /\ match (transferFiles app paths projectFilesPath options d).1 with
       | Err (TransportError op) =>
           acknowledged op = false
           /\ exists before,
               issued = before ++ [op]
               /\ forall o, o ∈ before -> acknowledged o = true
       | Ok _ => forall o, o ∈ issued -> acknowledged o = true
       end.
Proof.
  destruct (force options) eqn:Hforce, (isFullSync options) eqn:Hfull;
    runTransfer; rewrite ?Hforce, ?Hfull; simpl; onEachOutcome;
    eexists; (split; [by rewrite <- ?app_assoc|]); simpl.
  all: try (intros o Ho; set_unfold; by destruct_or!; subst).
  all: split; [done|].
  all: try (exists []; split; [done|]; intros o Ho; by apply elem_of_nil in Ho).
  all: try (eexists [_]; split; [done|];
            intros o Ho; apply list_elem_of_singleton in Ho; by subst).
  all: try (eexists [_; _]; split; [done|];
            intros o Ho; set_unfold; by destruct_or!; subst).
Qed.

(** A transfer that succeeds returns part of the list it was given, in the
    same order, and the whole list unless it was a full sync without [force].
    The calls it made are: for a forced full sync, the deletion of the hash
    file and the transfer of the directory; otherwise the transfer of the
    files it returns, after reading the stored hashes if the sync is full;
    and last, in every case, the commit of the hashes of the whole list,
    also when only some of the files were pushed. *)
Theorem successful_transfer_commits_all_hashes app
    (paths : list LocalToDevicePathData) projectFilesPath options d sent d' :
  transferFiles app paths projectFilesPath options d = (Ok sent, d') ->
  sent `sublist_of` paths
  /\ (force options || negb (isFullSync options) = true -> sent = paths)
  /\ oplog d'
     = oplog d
       ++ (if force options && isFullSync options
           then [DeleteFile (hashFileDevicePath app) app;
                 TransferDirectoryOnDevice paths projectFilesPath]
           else if isFullSync options
                then [GetShasumsFromDevice app; TransferFilesOnDevice sent]
                else [TransferFilesOnDevice sent])
       ++ [UpdateHashesOnDevice (generateHashes paths) app].
Proof.
  destruct (force options) eqn:Hforce, (isFullSync options) eqn:Hfull;
    runTransfer; rewrite ?Hforce, ?Hfull; simpl; intros Hrun;
    onEachOutcomeOf Hrun; simplify_eq; simpl;
    (split; [try done; apply sublist_filter|]);
    (split; [done|]); by rewrite <- ?app_assoc.
Qed.

(** Without [isFullSync] the flag [force] makes no difference: the whole list
    is pushed with [transferFilesOnDevice], and the hash file is neither
    deleted nor read. *)
Theorem incremental_transfer_ignores_force app
    (paths : list LocalToDevicePathData) projectFilesPath options d :
  isFullSync options = false ->
  transferFiles app paths projectFilesPath options d
  = transferFiles app paths projectFilesPath incremental d
  /\ exists issued,
      oplog (transferFiles app paths projectFilesPath options d).2
      = oplog d ++ issued
      /\ issued `prefix_of` [TransferFilesOnDevice paths;
                             UpdateHashesOnDevice (generateHashes paths) app].
Proof.
  intros Hfull. destruct (force options) eqn:Hforce;
    runTransfer; rewrite ?Hforce, ?Hfull; simpl; (split; [done|]);
    onEachOutcome.
  all: try (eexists; split; [by rewrite <- ?app_assoc|]; done).
  all: eexists; split; [done|]; by eexists [_].
Qed.

End AndroidTransferCalls.

Lemma rejected_call_ends_transfer_witness :
  let run :=
    AndroidLiveSync.transferFiles AndroidLiveSync.sampleHashFile
      (fun op => negb (AndroidLiveSync.is_commit op))
      (fun _ => AndroidLiveSync.sampleHashes) "org.app" [AndroidLiveSync.mainJs]
      "app" AndroidLiveSync.incremental AndroidLiveSync.syncedDevice in
  run.1
  = Err (AndroidLiveSync.TransportError
           (AndroidLiveSync.UpdateHashesOnDevice AndroidLiveSync.sampleHashes
              "org.app"))
  /\ exists issued,
      AndroidLiveSync.oplog run.2
      = AndroidLiveSync.oplog AndroidLiveSync.syncedDevice ++ issued
      /\ exists before,
          issued
          = before ++ [AndroidLiveSync.UpdateHashesOnDevice
                         AndroidLiveSync.sampleHashes "org.app"]
          /\ forall o, o ∈ before ->
                       negb (AndroidLiveSync.is_commit o) = true.
Proof.
  intros run. split; [reflexivity|].
  destruct (rejected_call_ends_transfer AndroidLiveSync.sampleHashFile
              (fun op => negb (AndroidLiveSync.is_commit op))
              (fun _ => AndroidLiveSync.sampleHashes) "org.app"
              [AndroidLiveSync.mainJs] "app" AndroidLiveSync.incremental
              AndroidLiveSync.syncedDevice) as (issued & Hlog & Hlast).
  exists issued. split; [exact Hlog|]. exact (proj2 Hlast).
Defined.

Lemma successful_transfer_commits_all_hashes_witness :
  exists sent d',
    AndroidLiveSync.transferFiles AndroidLiveSync.sampleHashFile (fun _ => true)
      (fun _ => AndroidLiveSync.sampleHashes) "org.app" [AndroidLiveSync.mainJs]
      "app" AndroidLiveSync.fullUnforced AndroidLiveSync.syncedDevice
    = (Ok sent, d')
    /\ sent `sublist_of` [AndroidLiveSync.mainJs]
    /\ AndroidLiveSync.oplog d'
       = [AndroidLiveSync.GetShasumsFromDevice "org.app";
          AndroidLiveSync.TransferFilesOnDevice sent;
          AndroidLiveSync.UpdateHashesOnDevice AndroidLiveSync.sampleHashes
            "org.app"].
Proof.
  eexists _, _. split; [reflexivity|].
  destruct (successful_transfer_commits_all_hashes AndroidLiveSync.sampleHashFile
              (fun _ => true) (fun _ => AndroidLiveSync.sampleHashes) "org.app"
              [AndroidLiveSync.mainJs] "app" AndroidLiveSync.fullUnforced
              AndroidLiveSync.syncedDevice _ _ eq_refl) as (Hsub & _ & Hlog).
  split; [exact Hsub | exact Hlog].
Defined.

Lemma incremental_transfer_ignores_force_witness :
  AndroidLiveSync.isFullSync AndroidLiveSync.forcedIncremental = false
  /\ AndroidLiveSync.transferFiles AndroidLiveSync.sampleHashFile (fun _ => true)
       (fun _ => AndroidLiveSync.sampleHashes) "org.app" [AndroidLiveSync.mainJs]
       "app" AndroidLiveSync.forcedIncremental AndroidLiveSync.syncedDevice
     = AndroidLiveSync.transferFiles AndroidLiveSync.sampleHashFile (fun _ => true)
         (fun _ => AndroidLiveSync.sampleHashes) "org.app" [AndroidLiveSync.mainJs]
         "app" AndroidLiveSync.incremental AndroidLiveSync.syncedDevice.
Proof.
  split; [reflexivity|].
  exact (proj1 (incremental_transfer_ignores_force AndroidLiveSync.sampleHashFile
                  (fun _ => true) (fun _ => AndroidLiveSync.sampleHashes) "org.app"
                  [AndroidLiveSync.mainJs] "app" AndroidLiveSync.forcedIncremental
                  AndroidLiveSync.syncedDevice eq_refl)).
Defined.


(** ** The log rule dispatcher: order, filters and lines *)

Section DispatcherOrder.
Import LogParser.

Context {St : Type}.
Implicit Types (rules : list (string * ILogParseRule St)) (st : St).

Lemma forEachRule_evaluations rules l dev plat st :
  evaluations (forEachRule rules l dev plat st) `prefix_of` evaluationsOf rules plat l
  /\ (outcome (forEachRule rules l dev plat st) = Ok tt ->
      evaluations (forEachRule rules l dev plat st) = evaluationsOf rules plat l).
Proof.
  revert st. induction rules as [|[key r] rules IH]; intros st; [done|].
  unfold evaluationsOf in *. simpl. destruct (applies plat r) eqn:Happ.
  - rewrite filter_cons_True by done. simpl.
    destruct (regex r l) as [m|] eqn:Hm; simpl.
    + destruct (handler r m dev st) as [[[]|err] st']; simpl.
      * destruct (IH st') as [Hpre Heq]. split; [by apply prefix_cons|].
        intros Hok. by rewrite Heq.
      * split; [|done]. apply prefix_cons, prefix_nil.
    + destruct (IH st) as [Hpre Heq]. split; [by apply prefix_cons|].
      intros Hok. by rewrite Heq.
  - rewrite filter_cons_False by (simpl; congruence). apply IH.
Qed.

(** The tests made on a chunk are made line after line, and for each line
    rule after rule in the order of the table, which is the order in which
    the keys of the object are enumerated: what was tested is a prefix of
    the tests of the rules that apply on each line in turn. When the
    ingestion returns it is all of them, as many as lines times applying
    rules. *)
Theorem dispatch_order (s : LogParserService St) message dev plat st :
  let d := processDeviceLogResponse s message dev plat st in
  let tests :=
    concat (map (evaluationsOf (parseRules s) plat) (JS.split_lines message)) in
  evaluations d `prefix_of` tests
  /\ (outcome d = Ok tt ->
      evaluations d = tests
      /\ length (evaluations d)
         = length (JS.split_lines message)
           * length (filter (fun kr => applies plat kr.2 = true) (parseRules s))).
Proof.
  intros d tests. subst d tests. unfold processDeviceLogResponse.
  generalize (JS.split_lines message). intros lines.
  assert (Hall : forall st0,
             evaluations (forEachLine (parseRules s) lines dev plat st0)
             `prefix_of` concat (map (evaluationsOf (parseRules s) plat) lines)
             /\ (outcome (forEachLine (parseRules s) lines dev plat st0) = Ok tt ->
                 evaluations (forEachLine (parseRules s) lines dev plat st0)
                 = concat (map (evaluationsOf (parseRules s) plat) lines))).
  { induction lines as [|l lines IH]; intros st0; [done|].
    simpl. destruct (forEachRule_evaluations (parseRules s) l dev plat st0)
      as [Hpre Heq].
    destruct (outcome (forEachRule (parseRules s) l dev plat st0)) as [[]|err]
      eqn:Hline; simpl.
    - rewrite Heq by done.
      destruct (IH (state (forEachRule (parseRules s) l dev plat st0)))
        as [Hpre' Heq'].
      split; [by apply prefix_app|]. intros Hok. by rewrite Heq'.
    - split; [by apply prefix_app_r|]. by rewrite Hline. }
  destruct (Hall st) as [Hpre Heq]. split; [exact Hpre|].
  intros Hok. split; [by apply Heq|]. rewrite Heq by done. clear.
  induction lines as [|l lines IH]; [done|].
  simpl. rewrite length_app, IH. unfold evaluationsOf at 1.
  rewrite length_map. done.
Qed.

Lemma forEachRule_filter rules l dev plat st :
  forEachRule rules l dev plat st
  = forEachRule (filter (fun kr => applies plat kr.2 = true) rules) l dev plat st.
Proof.
  revert st. induction rules as [|[key r] rules IH]; intros st; [done|].
  simpl. destruct (applies plat r) eqn:Happ.
  - rewrite filter_cons_True by done. simpl. rewrite Happ.
    destruct (regex r l) as [m|]; [|by rewrite IH].
    destruct (handler r m dev st) as [[[]|e] st']; [|done]. by rewrite IH.
  - rewrite filter_cons_False by (simpl; congruence). apply IH.
Qed.

(** A rule whose platform filter does not let the platform of the chunk
    through takes no part in the dispatch, whatever the handlers do: the
    result is that of the table without these rules. *)
Theorem filtered_rules_take_no_part (s : LogParserService St) message dev plat st :
  processDeviceLogResponse s message dev plat st
  = processDeviceLogResponse
      {| parseRules := filter (fun kr => applies plat kr.2 = true) (parseRules s);
         listening := listening s |}
      message dev plat st.
Proof.
  unfold processDeviceLogResponse. simpl.
  generalize (JS.split_lines message). intros lines. revert st.
  induction lines as [|l lines IH]; intros st; [done|].
  simpl. rewrite <- forEachRule_filter.
  destruct (outcome (forEachRule (parseRules s) l dev plat st)); [|done].
  by rewrite IH.
Qed.

(** The order of the keys of an object. *)
Lemma comesBefore_asym a b :
  JS.comesBefore a b = true -> JS.comesBefore b a = false.
Proof.
  unfold JS.comesBefore.
  destruct (JS.arrayIndex a) as [i|], (JS.arrayIndex b) as [j|]; try done.
  intros H. apply N.ltb_lt in H. apply N.ltb_ge. lia.
Qed.

Lemma comesBefore_trans a b x :
  JS.comesBefore a b = true -> JS.comesBefore x b = false ->
  JS.comesBefore x a = false.
Proof.
  unfold JS.comesBefore.
  destruct (JS.arrayIndex a) as [i|], (JS.arrayIndex b) as [j|],
    (JS.arrayIndex x) as [n|]; try done.
  intros H1 H2. apply N.ltb_lt in H1. apply N.ltb_ge in H2. apply N.ltb_ge. lia.
Qed.

Lemma comesBefore_plain key k :
  JS.arrayIndex key = None -> JS.comesBefore key k = false.
Proof. unfold JS.comesBefore. by intros ->. Qed.

Lemma createRule_plain key (r : ILogParseRule St) rules :
  JS.arrayIndex key = None -> createRule key r rules = rules ++ [(key, r)].
Proof.
  intros Hkey. induction rules as [|[k r'] rules IH]; simpl; [done|].
  rewrite comesBefore_plain by done. by rewrite IH.
Qed.

Lemma createRule_elem_of key (r : ILogParseRule St) rules kr :
  kr ∈ createRule key r rules <-> kr = (key, r) \/ kr ∈ rules.
Proof.
  destruct (createRule_split key r rules) as (before & after & -> & ->).
  rewrite !elem_of_app, elem_of_cons. tauto.
Qed.

Lemma createRule_sorted key (r : ILogParseRule St) rules :
  StronglySorted (fun a b => JS.comesBefore b.1 a.1 = false) rules ->
  StronglySorted (fun a b => JS.comesBefore b.1 a.1 = false)
    (createRule key r rules).
Proof.
  induction rules as [|[k r'] rules IH]; intros Hsorted; simpl.
  - apply SSorted_cons; [apply SSorted_nil|apply Forall_nil_2].
  - apply StronglySorted_inv in Hsorted as [Hrest Hfirst].
    destruct (JS.comesBefore key k) eqn:Hbefore.
    + apply SSorted_cons; [by apply SSorted_cons|].
      apply Forall_cons. split; [by apply comesBefore_asym|].
      eapply Forall_impl; [exact Hfirst|]. intros x Hx. simpl in *.
      by eapply comesBefore_trans.
    + apply SSorted_cons; [by apply IH|].
      apply Forall_forall. intros x Hx.
      apply createRule_elem_of in Hx as [->|Hx]; [done|].
      rewrite Forall_forall in Hfirst. by apply Hfirst.
Qed.

Lemma createRule_filter key (r : ILogParseRule St) rules :
  filter (fun kr => JS.arrayIndex kr.1 = None) (createRule key r rules)
  = filter (fun kr => JS.arrayIndex kr.1 = None) rules
    ++ filter (fun kr => JS.arrayIndex kr.1 = None) [(key, r)].
Proof.
  destruct (JS.arrayIndex key) as [i|] eqn:Hkey.
  - destruct (createRule_split key r rules) as (before & after & -> & ->).
    rewrite !filter_app, !filter_cons_False by (simpl; congruence).
    by rewrite filter_nil, app_nil_r.
  - rewrite createRule_plain by done. by rewrite filter_app.
Qed.

Lemma createRule_Permutation key (r : ILogParseRule St) rules :
  createRule key r rules ≡ₚ rules ++ [(key, r)].
Proof.
  destruct (createRule_split key r rules) as (before & after & -> & ->).
  rewrite <- app_assoc. apply Permutation_app_head.
  change ((key, r) :: after) with ([(key, r)] ++ after). apply Permutation_app_comm.
Qed.

Lemma ownRule_None key rules :
  key ∉ map fst rules -> ownRule key rules = None (A:=ILogParseRule St).
Proof.
  induction rules as [|[k r] rules IH]; simpl; [done|].
  rewrite not_elem_of_cons. intros [Hne Hrest].
  rewrite decide_False by done. by apply IH.
Qed.

Lemma ownRule_NoDup key (r : ILogParseRule St) rules :
  NoDup (map fst rules) -> (key, r) ∈ rules -> ownRule key rules = Some r.
Proof.
  induction rules as [|[k r'] rules IH]; simpl; intros Hnd Hin.
  - by apply elem_of_nil in Hin.
  - apply NoDup_cons in Hnd as [Hfresh Hnd].
    apply elem_of_cons in Hin as [[= -> ->]|Hin]; [by rewrite decide_True|].
    rewrite decide_False; [by apply IH|].
    intros ->. apply Hfresh. apply (list_elem_of_fmap_2 fst _ _ Hin).
Qed.

Lemma addParseRules_accepted (rules : list (ILogParseRule St))
    (s : LogParserService St) :
  NoDup (map fst (parseRules s) ++ map name rules) ->
  Forall (fun r => JS.inherited (name r) = false) rules ->
  StronglySorted (fun a b => JS.comesBefore b.1 a.1 = false) (parseRules s) ->
  (addParseRules rules s).1 = Ok tt
  /\ parseRules (addParseRules rules s).2
     ≡ₚ parseRules s ++ map (fun r => (name r, r)) rules
  /\ StronglySorted (fun a b => JS.comesBefore b.1 a.1 = false)
       (parseRules (addParseRules rules s).2)
  /\ filter (fun kr => JS.arrayIndex kr.1 = None)
       (parseRules (addParseRules rules s).2)
     = filter (fun kr => JS.arrayIndex kr.1 = None) (parseRules s)
       ++ map (fun r => (name r, r))
            (filter (fun r => JS.arrayIndex (name r) = None) rules).
Proof.
  revert s. induction rules as [|r rules IH]; intros s Hnd Hplain Hsorted.
  - simpl. by rewrite !app_nil_r.
  - apply Forall_cons in Hplain as [Hr Hplain]. simpl.
    assert (Hfree : getRule (name r) (parseRules s) = Undefined).
    { apply getRule_undefined. split; [|done]. apply ownRule_None.
      apply NoDup_app in Hnd as (_ & Hdisj & _). intros Hin.
      apply (Hdisj _ Hin). by left. }
    rewrite (addParseRule_registers r s Hfree).
    set (s' := {| parseRules := createRule (name r) r (parseRules s);
                  listening := true |}).
    destruct (IH s') as (Hok & Hperm & Hsorted' & Hfilter).
    + subst s'. cbn [parseRules]. rewrite createRule_Permutation.
      rewrite map_app, <- app_assoc. exact Hnd.
    + done.
    + by apply createRule_sorted.
    + split; [exact Hok|]. split; [|split; [exact Hsorted'|]].
      * rewrite Hperm. subst s'. cbn [parseRules].
        rewrite createRule_Permutation, <- app_assoc. done.
      * rewrite Hfilter. subst s'. cbn [parseRules].
        rewrite createRule_filter, <- app_assoc. f_equal.
        destruct (JS.arrayIndex (name r)) eqn:Hname.
        -- rewrite !filter_cons_False by (simpl; congruence). by rewrite filter_nil.
        -- rewrite !filter_cons_True by done. by rewrite filter_nil.
Qed.

(** Rules registered one after the other under distinct names, none of them
    the name of a member of [Object.prototype], are all accepted, and each is
    the rule found under its name. The table holds them in the order in
    which the keys of the object are enumerated, the order in which the
    dispatcher tests them: no key comes before one that is enumerated
    earlier, so the names that are array indices come first, in ascending
    order, and the other names follow in the order of registration. *)
Theorem registration_order (rules : list (ILogParseRule St)) :
  NoDup (map name rules) ->
  Forall (fun r => JS.inherited (name r) = false) rules ->
  let table := parseRules (addParseRules rules emptyService).2 in
  (addParseRules rules emptyService).1 = Ok tt
  /\ table ≡ₚ map (fun r => (name r, r)) rules
  /\ StronglySorted (fun a b => JS.comesBefore b.1 a.1 = false) table
  /\ filter (fun kr => JS.arrayIndex kr.1 = None) table
     = map (fun r => (name r, r))
         (filter (fun r => JS.arrayIndex (name r) = None) rules)
  /\ forall r, r ∈ rules -> getRule (name r) table = OwnRule r.
Proof.
  intros Hnd Hplain table.
  destruct (addParseRules_accepted rules emptyService)
    as (Hok & Hperm & Hsorted & Hfilter); [done|done|apply SSorted_nil|].
  fold table in Hperm, Hsorted, Hfilter. simpl in Hperm, Hfilter.
  split; [exact Hok|]. split; [exact Hperm|]. split; [exact Hsorted|].
  split; [exact Hfilter|]. intros r Hr. unfold getRule.
  rewrite (ownRule_NoDup (name r) r table); [done| |].
  - rewrite Hperm. rewrite map_map. simpl. exact Hnd.
  - rewrite Hperm. apply (list_elem_of_fmap_2 (fun r => (name r, r)) _ _ Hr).
Qed.

End DispatcherOrder.

Lemma dispatch_order_witness :
  LogParser.outcome
    (LogParser.processDeviceLogResponse LogParser.filteredRules
       LogParser.twoLines "dev-1" (Some "ANDROID") false) = Ok tt
  /\ LogParser.evaluations
       (LogParser.processDeviceLogResponse LogParser.filteredRules
          LogParser.twoLines "dev-1" (Some "ANDROID") false)
     = [{| LogParser.rule := "android"; LogParser.line := "JS: a";
           LogParser.matched := Some ["JS: a"] |};
        {| LogParser.rule := "second"; LogParser.line := "JS: a";
           LogParser.matched := Some ["JS: a"] |};
        {| LogParser.rule := "android"; LogParser.line := "b";
           LogParser.matched := None |};
        {| LogParser.rule := "second"; LogParser.line := "b";
           LogParser.matched := Some ["b"] |}]
  /\ length (LogParser.evaluations
               (LogParser.processDeviceLogResponse LogParser.filteredRules
                  LogParser.twoLines "dev-1" (Some "ios") false)) = 2.
Proof.
  split; [reflexivity|]. split.
  - exact (proj1 (proj2 (dispatch_order LogParser.filteredRules LogParser.twoLines
                           "dev-1" (Some "ANDROID") false) eq_refl)).
  - exact (proj2 (proj2 (dispatch_order LogParser.filteredRules LogParser.twoLines
                           "dev-1" (Some "ios") false) eq_refl)).
Defined.

Lemma registration_order_witness :
  let rules := map LogParser.namedRule ["b"; "10"; "a"; "9"] in
  NoDup (map LogParser.name rules)
  /\ Forall (fun r => JS.inherited (LogParser.name r) = false) rules
  /\ map fst (LogParser.parseRules
                (LogParser.addParseRules rules LogParser.emptyService).2)
     = ["9"; "10"; "b"; "a"]
  /\ filter (fun kr => JS.arrayIndex kr.1 = None)
       (LogParser.parseRules
          (LogParser.addParseRules rules LogParser.emptyService).2)
     = [("b", LogParser.namedRule "b"); ("a", LogParser.namedRule "a")].
Proof.
  intros rules.
  assert (Hnd : NoDup (map LogParser.name rules)).
  { apply (bool_decide_unpack _). vm_compute. exact I. }
  assert (Hplain : Forall (fun r => JS.inherited (LogParser.name r) = false) rules).
  { repeat (apply Forall_cons; split; [reflexivity|]). apply Forall_nil_2. }
  split; [exact Hnd|]. split; [exact Hplain|]. split; [reflexivity|].
  exact (proj1 (proj2 (proj2 (proj2 (registration_order rules Hnd Hplain))))).
Defined.

(** ** The status pattern, in full *)

Section StatusPatternFurther.
Import RegExp HmrStatus.

Lemma classStar_sound {R} cls s acc (k : string -> string -> option R) r :
  classStar cls s acc k = Some r ->
  exists pre rest,
    s = pre +:+ rest /\ allChars cls pre = true /\ k (acc +:+ pre) rest = Some r.
Proof.
  revert acc. induction s as [|c s IH]; intros acc H.
  - simpl in H. exists EmptyString, EmptyString. by rewrite !append_empty_r.
  - simpl in H. destruct (cls c) eqn:Hc.
    + destruct (classStar cls s (acc +:+ String c EmptyString) k) as [r'|] eqn:Hrec.
      * injection H as ->. destruct (IH _ Hrec) as (pre & rest & -> & Hall & Hk).
        exists (String c pre), rest. rewrite append_cons. split; [done|].
        split; [simpl; by rewrite Hc|].
        by rewrite append_assoc in Hk.
      * exists EmptyString, (String c s). by rewrite append_empty_r.
    + exists EmptyString, (String c s). by rewrite append_empty_r.
Qed.

Lemma stripPrefix_Some p s rest : stripPrefix p s = Some rest -> s = p +:+ rest.
Proof.
  revert s. induction p as [|a p IH]; intros s H.
  - destruct s; by injection H as <-.
  - destruct s as [|b s]; [done|]. rewrite stripPrefix_cons in H.
    destruct (Ascii.eqb_spec a b) as [->|]; [|done].
    rewrite append_cons. f_equal. by apply IH.
Qed.

Lemma matchAt_status_sound s m :
  matchAt HMR_STATUS_LOG_REGEX s [] (fun text _ caps => Some (text :: caps)) = Some m ->
  exists verb hash rest,
    s = statusLine verb hash +:+ rest
    /\ allChars letterOrSpace verb = true
    /\ allChars lowerOrDigit hash = true
    /\ m = [statusLine verb hash; verb; hash].
Proof.
  unfold HMR_STATUS_LOG_REGEX. cbn [matchAt app length]. intros H.
  apply classStar_sound in H as (verb & rest1 & -> & Hverb & H).
  destruct (stripPrefix " hmr hash " rest1) as [rest2|] eqn:Hsep; [|done].
  apply stripPrefix_Some in Hsep as ->.
  apply classStar_sound in H as (hash & rest3 & -> & Hhash & H).
  destruct (stripPrefix "." rest3) as [rest4|] eqn:Hdot; [|done].
  apply stripPrefix_Some in Hdot as ->.
  exists verb, hash, rest4. unfold statusLine.
  rewrite !append_assoc. split; [done|]. split; [done|]. split; [done|].
  rewrite !append_empty_l in H. by injection H as <-.
Qed.

Lemma exec_status_groups l m :
  exec HMR_STATUS_LOG_REGEX l = Some m -> exists text verb hash, m = [text; verb; hash].
Proof.
  induction l as [|c l IH]; rewrite exec_unfold;
    destruct (matchAt HMR_STATUS_LOG_REGEX _ [] _) as [m'|] eqn:Hat;
    try done; try (intros [= ->]; apply matchAt_status_sound in Hat
                     as (verb & hash & rest & _ & _ & _ & ->); by eauto).
Qed.

(** Whatever the pattern finds in a line is a status line inside it: the
    result holds the text matched and the two groups, the text is the first
    group, the separator, the second group and a full stop, the first group
    has letters and spaces only and the second lower-case letters and digits
    only. In particular both groups are always there. *)
Theorem status_pattern_sound l m :
  exec HMR_STATUS_LOG_REGEX l = Some m ->
  exists before verb hash rest,
    l = before +:+ statusLine verb hash +:+ rest
    /\ allChars letterOrSpace verb = true
    /\ allChars lowerOrDigit hash = true
    /\ m = [statusLine verb hash; verb; hash].
Proof.
  induction l as [|c l IH]; rewrite exec_unfold;
    destruct (matchAt HMR_STATUS_LOG_REGEX _ [] _) as [m'|] eqn:Hat.
  - intros [= ->]. apply matchAt_status_sound in Hat
      as (verb & hash & rest & Heq & ?). by exists EmptyString, verb, hash, rest.
  - done.
  - intros [= ->]. apply matchAt_status_sound in Hat
      as (verb & hash & rest & Heq & ?). by exists EmptyString, verb, hash, rest.
  - intros H. destruct (IH H) as (before & verb & hash & rest & -> & ?).
    by exists (String c before), verb, hash, rest.
Qed.

Lemma classStar_hash_none_rest {R} hash tail acc (k : string -> string -> option R) :
  allChars lowerOrDigit hash = true ->
  (forall text c rest, c <> " "%char -> k text (String c rest) = None) ->
  classStar letterOrSpace (hash +:+ String "." tail) acc k = None.
Proof.
  intros Hall Hk. revert acc. induction hash as [|c hash IH]; intros acc.
  - rewrite append_empty_l. simpl. by apply Hk.
  - simpl in Hall. apply andb_true_iff in Hall as [Hc Hh].
    rewrite append_cons. simpl. rewrite (IH Hh).
    destruct (letterOrSpace c); apply Hk; by apply lowerOrDigit_not_space.
Qed.

Lemma stripPrefix_hash_none_rest hash tail :
  allChars lowerOrDigit hash = true ->
  stripPrefix "hmr hash " (hash +:+ String "." tail) = None.
Proof.
  intros Hall.
  destruct hash as [|c1 [|c2 [|c3 [|c4 hash]]]];
    rewrite ?append_cons, ?append_empty_l, ?stripPrefix_cons;
    repeat (match goal with
            | |- context [Ascii.eqb ?a ?b] =>
                destruct (Ascii.eqb_spec a b); subst; try done
            end).
Qed.

Lemma classStar_separator_rest {R} hash tail acc (k' : string -> string -> option R) :
  allChars lowerOrDigit hash = true ->
  classStar letterOrSpace (" hmr hash " +:+ hash +:+ String "." tail) acc
    (fun text rest =>
       match stripPrefix " hmr hash " rest with
       | Some rest' => k' text rest'
       | None => None
       end)
  = k' acc (hash +:+ String "." tail).
Proof.
  intros Hall.
  rewrite !append_cons, append_empty_l.
  rewrite !classStar_cons by reflexivity.
  rewrite classStar_hash_none_rest; [|done|].
  2:{ intros text c rest Hc. rewrite stripPrefix_cons.
      destruct (Ascii.eqb_spec " " c); [by subst|done]. }
  rewrite !stripPrefix_cons. cbv [Ascii.eqb Bool.eqb].
  by rewrite stripPrefix_hash_none_rest.
Qed.

Lemma classStar_stops {R} cls p c tail acc (k : string -> string -> option R) r :
  allChars cls p = true -> cls c = false ->
  k (acc +:+ p) (String c tail) = Some r ->
  classStar cls (p +:+ String c tail) acc k = Some r.
Proof.
  intros Hall Hc Hk. apply classStar_app; [done|]. simpl. by rewrite Hc.
Qed.

(** A line that holds a status line is always recognised; when it starts with
    the status line, the groups are the verb phrase and the hash of that one,
    whatever follows the full stop. *)
Theorem status_pattern_complete before verb hash rest :
  allChars letterOrSpace verb = true ->
  allChars lowerOrDigit hash = true ->
  exec HMR_STATUS_LOG_REGEX (statusLine verb hash +:+ rest)
  = Some [statusLine verb hash; verb; hash]
  /\ is_Some (exec HMR_STATUS_LOG_REGEX (before +:+ statusLine verb hash +:+ rest)).
Proof.
  intros Hverb Hhash.
  assert (Hstart : exec HMR_STATUS_LOG_REGEX (statusLine verb hash +:+ rest)
                   = Some [statusLine verb hash; verb; hash]).
  { rewrite exec_unfold. unfold HMR_STATUS_LOG_REGEX, statusLine.
    rewrite !append_assoc. change ("." +:+ rest) with (String "." rest).
    cbn [matchAt app length].
    erewrite classStar_app; [reflexivity|exact Hverb|].
    rewrite append_empty_l, classStar_separator_rest by done.
    erewrite classStar_stops; [reflexivity|exact Hhash|done|].
    rewrite append_empty_l. reflexivity. }
  split; [exact Hstart|].
  induction before as [|c before IH]; [by rewrite append_empty_l, Hstart|].
  rewrite append_cons, exec_unfold.
  by destruct (matchAt HMR_STATUS_LOG_REGEX _ [] _).
Qed.

End StatusPatternFurther.

Lemma status_pattern_sound_witness :
  RegExp.exec HmrStatus.HMR_STATUS_LOG_REGEX
    "JS: Successfully applied update with hmr hash 0a1b2c. Done"
  = Some [" Successfully applied update with hmr hash 0a1b2c.";
          " Successfully applied update with"; "0a1b2c"]
  /\ exists before verb hash rest,
       "JS: Successfully applied update with hmr hash 0a1b2c. Done"
       = before +:+ HmrStatus.statusLine verb hash +:+ rest
       /\ HmrStatus.allChars HmrStatus.letterOrSpace verb = true
       /\ HmrStatus.allChars HmrStatus.lowerOrDigit hash = true
       /\ [" Successfully applied update with hmr hash 0a1b2c.";
           " Successfully applied update with"; "0a1b2c"]
          = [HmrStatus.statusLine verb hash; verb; hash].
Proof.
  split; [reflexivity|].
  exact (status_pattern_sound
           "JS: Successfully applied update with hmr hash 0a1b2c. Done"
           [" Successfully applied update with hmr hash 0a1b2c.";
            " Successfully applied update with"; "0a1b2c"] eq_refl).
Defined.

Lemma status_pattern_complete_witness :
  HmrStatus.allChars HmrStatus.letterOrSpace HmrStatus.FAILED_MESSAGE = true
  /\ HmrStatus.allChars HmrStatus.lowerOrDigit "0a1b2c" = true
  /\ RegExp.exec HmrStatus.HMR_STATUS_LOG_REGEX
       (HmrStatus.statusLine HmrStatus.FAILED_MESSAGE "0a1b2c" +:+ " Done")
     = Some [HmrStatus.statusLine HmrStatus.FAILED_MESSAGE "0a1b2c";
             HmrStatus.FAILED_MESSAGE; "0a1b2c"]
  /\ is_Some (RegExp.exec HmrStatus.HMR_STATUS_LOG_REGEX
                ("JS: " +:+ HmrStatus.statusLine HmrStatus.FAILED_MESSAGE "0a1b2c"
                 +:+ " Done")).
Proof.
  split; [reflexivity|]. split; [reflexivity|].
  exact (status_pattern_complete "JS: " HmrStatus.FAILED_MESSAGE "0a1b2c" " Done"
           eq_refl eq_refl).
Defined.

(** ** The status service over its whole life *)

Section StatusServiceFurther.
Import HmrStatus.

Variables HMR_SUCCESS_STATUS HMR_ERROR_STATUS : Z.

Local Abbreviation handleHmrStatusFound :=
  (handleHmrStatusFound HMR_SUCCESS_STATUS HMR_ERROR_STATUS).
Local Abbreviation hmrStatusRule := (hmrStatusRule HMR_SUCCESS_STATUS HMR_ERROR_STATUS).
Local Abbreviation attachToHmrStatusEvent :=
  (attachToHmrStatusEvent HMR_SUCCESS_STATUS HMR_ERROR_STATUS).
Local Abbreviation step := (step HMR_SUCCESS_STATUS HMR_ERROR_STATUS).
Local Abbreviation run := (run HMR_SUCCESS_STATUS HMR_ERROR_STATUS).

Lemma status_rule_line l deviceId plat (s : Service) :
  let d := LogParser.forEachRule [("hmrStatus", hmrStatusRule)] l deviceId plat s in
  LogParser.outcome d = Ok tt
  /\ length (LogParser.evaluations d) = 1%nat
  /\ intervals (LogParser.state d) = intervals s
  /\ timers (LogParser.state d) = timers s
  /\ promises (LogParser.state d) = promises s
  /\ nextHandle (LogParser.state d) = nextHandle s.
Proof.
  cbn [LogParser.forEachRule]. rewrite applies_unfiltered by done.
  cbn [LogParser.regex LogParser.handler HmrStatus.hmrStatusRule].
  destruct (RegExp.exec HMR_STATUS_LOG_REGEX l) as [m|] eqn:Hm; [|done].
  apply exec_status_groups in Hm as (text & verb & hash & ->).
  pose proof (handler_keeps_waits HMR_SUCCESS_STATUS HMR_ERROR_STATUS
                [text; verb; hash] deviceId s) as Hkeep.
  unfold HmrStatus.handleHmrStatusFound in *.
  change ([text; verb; hash] !! 1%nat) with (Some verb) in *.
  cbv beta iota in *. by destruct (truthy _).
Qed.

(** The rule of the status service never makes log ingestion fail: on any
    chunk, from any platform, every line is tested once, the handler returns,
    and all it may change is the table of statuses; waits, their intervals
    and their promises are as before. *)
Theorem status_rule_never_throws message deviceId plat (s : Service) :
  let d := LogParser.processDeviceLogResponse
             (attachToHmrStatusEvent false LogParser.emptyService).2
             message deviceId plat s in
  LogParser.outcome d = Ok tt
  /\ length (LogParser.evaluations d) = length (JS.split_lines message)
  /\ intervals (LogParser.state d) = intervals s
  /\ timers (LogParser.state d) = timers s
  /\ promises (LogParser.state d) = promises s
  /\ nextHandle (LogParser.state d) = nextHandle s.
Proof.
  unfold LogParser.processDeviceLogResponse. rewrite attached_rules.
  generalize (JS.split_lines message). intros lines. revert s.
  induction lines as [|l lines IH]; intros s; [done|].
  cbn [LogParser.forEachLine].
  destruct (status_rule_line l deviceId plat s) as (Hok & Hlen & Hi & Ht & Hp & Hn).
  rewrite Hok. cbn [LogParser.outcome LogParser.state LogParser.evaluations].
  destruct (IH (LogParser.state
                  (LogParser.forEachRule [("hmrStatus", hmrStatusRule)] l deviceId
                     plat s))) as (Hok' & Hlen' & Hi' & Ht' & Hp' & Hn').
  rewrite length_app, Hlen, Hlen', Hi', Ht', Hp', Hn'. done.
Qed.

(** Every status on record, after anything that can happen to the service,
    is one of the two status constants and is truthy: the next firing of a
    running wait on its key ends that wait. *)
Theorem recorded_statuses_are_final events k v :
  hashOperationStatuses (run events emptyService) !! k = Some v ->
  v <> 0%Z /\ (v = HMR_SUCCESS_STATUS \/ v = HMR_ERROR_STATUS).
Proof.
  assert (Hinv : forall events (s : Service),
             (forall k v, hashOperationStatuses s !! k = Some v ->
                          v <> 0%Z /\ (v = HMR_SUCCESS_STATUS \/ v = HMR_ERROR_STATUS)) ->
             forall k v, hashOperationStatuses (run events s) !! k = Some v ->
                         v <> 0%Z /\ (v = HMR_SUCCESS_STATUS \/ v = HMR_ERROR_STATUS)).
  { clear. induction events as [|e events IH]; intros s Hs; [exact Hs|].
    simpl. apply IH. clear IH. intros k v.
    destruct e as [deviceId operationHash|h|matches deviceId|]; simpl.
    - apply Hs.
    - unfold tick. destruct (timers s !! h); [|apply Hs].
      destruct (truthy _ || _); apply Hs.
    - unfold HmrStatus.handleHmrStatusFound.
      destruct (matches !! 1%nat) as [group|]; [|apply Hs].
      destruct (truthy _) eqn:Htruthy; [|apply Hs]. simpl.
      destruct (decide (deviceId +:+ default "undefined" (matches !! 2%nat) = k))
        as [<-|Hne].
      + rewrite lookup_insert_eq. intros [= <-].
        repeat case_decide; simpl in *; [| |done];
          (split; [by apply Z.eqb_neq, negb_true_iff|auto]).
      + rewrite lookup_insert_ne by done. apply Hs.
    - apply Hs. }
  apply Hinv. intros k' v' H. simpl in H. by rewrite lookup_empty in H.
Qed.

(** A wait nobody interferes with, whose status is recorded after [n] of its
    firings, [n] at most 40: it is pending until then, its next firing
    resolves it with the status and clears its interval, and the value stays. *)
Theorem wait_resolves_at_next_firing deviceId operationHash (s : Service) n v :
  fresh s ->
  truthy (getStatusByKey (deviceId +:+ operationHash) s) = false ->
  (n <= 40)%nat ->
  v <> 0%Z ->
  let h := nextHandle s in
  let waiting := Nat.iter n (tick h) (getHmrStatus deviceId operationHash s).2 in
  let resolved := tick h (setData v operationHash deviceId waiting) in
  promises waiting !! h = None
  /\ promises resolved !! h = Some (Some v)
  /\ timers resolved !! h = None
  /\ intervals resolved !! (deviceId +:+ operationHash) = Some None
  /\ forall events, promises (run events resolved) !! h = Some (Some v).
Proof.
  intros Hfresh Hfalsy Hn Hv h waiting resolved.
  destruct (Hfresh h (le_n _)) as [_ Hpending].
  assert (Hwaiting : promises waiting !! h = None).
  { unfold waiting, h. by rewrite lone_wait_counts_down. }
  assert (Hnz : negb (v =? 0)%Z = true) by (by apply negb_true_iff, Z.eqb_neq).
  assert (Hres : resolved
                 = {| hashOperationStatuses :=
                        <[deviceId +:+ operationHash := v]> (hashOperationStatuses s);
                      intervals :=
                        <[deviceId +:+ operationHash := None]>
                          (<[deviceId +:+ operationHash := Some h]> (intervals s));
                      timers :=
                        delete h
                          (<[h := {| key := deviceId +:+ operationHash;
                                     retryCount := 40 - Z.of_nat n |}]> (timers s));
                      promises := <[h := Some v]> (promises s);
                      nextHandle := S h |}).
  { unfold resolved, waiting, h. rewrite lone_wait_counts_down by done.
    unfold tick, setData, getStatusByKey. simpl. rewrite !lookup_insert_eq. simpl.
    rewrite Hnz. simpl. unfold resolve. fold h. by rewrite Hpending. }
  assert (Hresolved : promises resolved !! h = Some (Some v)).
  { rewrite Hres. simpl. apply lookup_insert_eq. }
  split; [done|]. split; [done|]. split; [|split].
  - rewrite Hres. simpl. apply lookup_delete_eq.
  - rewrite Hres. simpl. apply lookup_insert_eq.
  - intros events. by apply resolved_stays_resolved.
Qed.

(** A wait nobody interferes with and whose status never becomes truthy
    gives up at its 41st firing, not before: until then it is pending and
    counts down from 40; the 41st firing resolves it with the falsy status and
    clears the interval, and later firings change nothing. *)
Theorem wait_gives_up_at_41st_firing deviceId operationHash (s : Service) :
  fresh s ->
  truthy (getStatusByKey (deviceId +:+ operationHash) s) = false ->
  let k := deviceId +:+ operationHash in
  let h := nextHandle s in
  let waiting := (getHmrStatus deviceId operationHash s).2 in
  (forall n, (n <= 40)%nat ->
     promises (Nat.iter n (tick h) waiting) !! h = None
     /\ timers (Nat.iter n (tick h) waiting) !! h
        = Some {| key := k; retryCount := 40 - Z.of_nat n |})
  /\ promises (Nat.iter 41 (tick h) waiting) !! h = Some (getStatusByKey k s)
  /\ timers (Nat.iter 41 (tick h) waiting) !! h = None
  /\ forall n, Nat.iter (n + 41) (tick h) waiting = Nat.iter 41 (tick h) waiting.
Proof.
  intros Hfresh Hfalsy k h waiting.
  destruct (Hfresh h (le_n _)) as [_ Hpending].
  assert (Hlast : Nat.iter 41 (tick h) waiting
                  = {| hashOperationStatuses := hashOperationStatuses s;
                       intervals := <[k := None]> (<[k := Some h]> (intervals s));
                       timers := delete h (<[h := {| key := k; retryCount := 0 |}]>
                                             (timers s));
                       promises := <[h := getStatusByKey k s]> (promises s);
                       nextHandle := S h |}).
  { unfold waiting, h, k. rewrite Nat.iter_succ, lone_wait_counts_down by done.
    unfold tick. simpl. rewrite lookup_insert_eq. simpl.
    unfold getStatusByKey in *. simpl. rewrite Hfalsy. simpl.
    rewrite lookup_insert_eq. simpl.
    unfold resolve. fold h. by rewrite Hpending. }
  split; [|split; [|split]].
  - intros n Hn. unfold waiting, h. rewrite lone_wait_counts_down by done.
    simpl. by rewrite lookup_insert_eq.
  - rewrite Hlast. simpl. apply lookup_insert_eq.
  - rewrite Hlast. simpl. apply lookup_delete_eq.
  - induction n as [|n IH]; [done|].
    change (S n + 41)%nat with (S (n + 41)). rewrite Nat.iter_succ, IH.
    rewrite Hlast. unfold tick. simpl. by rewrite lookup_delete_eq.
Qed.

Lemma fresh_step (s : Service) e : fresh s -> fresh (step s e).
Proof.
  intros Hfresh h. destruct e as [deviceId operationHash|h'|matches deviceId|]; simpl.
  - intros Hh. destruct (Hfresh h ltac:(lia)) as [Ht Hp].
    split; [|done]. rewrite lookup_insert_ne; [done|lia].
  - unfold tick. destruct (timers s !! h') as [t|] eqn:Hh'; [|apply Hfresh].
    assert (Hlt : (h' < nextHandle s)%nat).
    { destruct (decide (h' < nextHandle s)%nat) as [?|Hge]; [done|].
      destruct (Hfresh h' ltac:(lia)) as [Hnone _]. congruence. }
    destruct (truthy _ || _); simpl; intros Hh;
      destruct (Hfresh h Hh) as [Ht Hp].
    + split; [by apply clearInterval_absent|].
      unfold resolve. destruct (promises s !! h'); [done|].
      rewrite lookup_insert_ne; [done|lia].
    + split; [|done]. rewrite lookup_insert_ne; [done|lia].
  - destruct (handler_keeps_waits HMR_SUCCESS_STATUS HMR_ERROR_STATUS matches
                deviceId s) as (_ & -> & -> & ->).
    apply Hfresh.
  - intros Hh. destruct (Hfresh h Hh) as [Ht Hp].
    split; [by apply dispose_absent|done].
Qed.

(** Handles are never reused: after anything that can happen to the service,
    a new wait gets a handle no interval has and no promise was resolved
    under, so it starts pending with a full count. *)
Theorem new_wait_starts_pending events deviceId operationHash :
  let s := run events emptyService in
  let h := (getHmrStatus deviceId operationHash s).1 in
  let waiting := (getHmrStatus deviceId operationHash s).2 in
  timers s !! h = None
  /\ promises s !! h = None
  /\ promises waiting !! h = None
  /\ timers waiting !! h
     = Some {| key := deviceId +:+ operationHash; retryCount := 40 |}
  /\ intervals waiting !! (deviceId +:+ operationHash) = Some (Some h).
Proof.
  intros s h waiting.
  assert (Hfresh : fresh s).
  { assert (H0 : fresh emptyService) by (intros h0 _; simpl; by rewrite !lookup_empty).
    unfold s. revert H0. generalize emptyService.
    induction events as [|e events IH]; intros s0 H0; [exact H0|].
    simpl. apply IH. by apply fresh_step. }
  destruct (Hfresh h (le_n _)) as [Ht Hp].
  split; [done|]. split; [done|]. split; [done|].
  unfold waiting, h. simpl. by rewrite !lookup_insert_eq.
Qed.

Lemma dispose_timers (s : Service) h :
  ((exists k, intervals s !! k = Some (Some h)) -> timers (dispose s) !! h = None)
  /\ ((forall k, intervals s !! k <> Some (Some h)) ->
      timers (dispose s) !! h = timers s !! h).
Proof.
  unfold dispose. simpl.
  apply (map_fold_weak_ind
           (fun (running : gmap nat Timer) (m : gmap string (option nat)) =>
              ((exists k, m !! k = Some (Some h)) -> running !! h = None)
              /\ ((forall k, m !! k <> Some (Some h)) ->
                  running !! h = timers s !! h))).
  - split; [|done]. intros [k Hk]. by rewrite lookup_empty in Hk.
  - intros k handle m running Hfree [IHin IHout]. split.
    + intros [k' Hk']. destruct (decide (k = k')) as [<-|Hne].
      * rewrite lookup_insert_eq in Hk'. injection Hk' as ->. simpl.
        apply lookup_delete_eq.
      * rewrite lookup_insert_ne in Hk' by done.
        apply (clearInterval_absent (Some handle)). apply IHin. by exists k'.
    + intros Hnone.
      assert (Hhandle : handle <> Some h).
      { intros ->. apply (Hnone k). by rewrite lookup_insert_eq. }
      assert (Hm : forall k', m !! k' <> Some (Some h)).
      { intros k' Hk'. apply (Hnone k').
        rewrite lookup_insert_ne; [done|]. intros <-. congruence. }
      rewrite <- (IHout Hm). destruct handle as [h'|]; simpl; [|done].
      rewrite lookup_delete_ne; [done|congruence].
Qed.


Lemma trimStart_spaces pre (s : string) :
  allChars (Ascii.eqb " ") pre = true -> JS.trimStart (pre +:+ s) = JS.trimStart s.
Proof.
  induction pre as [|c pre IH]; [done|]. cbn [allChars]. intros H.
  apply andb_true_iff in H as [Hc Hpre].
  apply Ascii.eqb_eq in Hc as <-.
  rewrite append_cons. simpl. by apply IH.
Qed.

Lemma trimEnd_only_spaces post :
  allChars (Ascii.eqb " ") post = true -> JS.trimEnd post = EmptyString.
Proof.
  induction post as [|c post IH]; [done|]. cbn [allChars]. intros H.
  apply andb_true_iff in H as [Hc Hpost].
  apply Ascii.eqb_eq in Hc as <-. simpl. by rewrite IH.
Qed.

Lemma trimEnd_spaces (s post : string) :
  allChars (Ascii.eqb " ") post = true -> JS.trimEnd (s +:+ post) = JS.trimEnd s.
Proof.
  intros H. induction s as [|c s IH].
  - rewrite append_empty_l. by apply trimEnd_only_spaces.
  - rewrite append_cons. simpl. by rewrite IH.
Qed.

Lemma trim_padded_messages pre post :
  allChars (Ascii.eqb " ") pre = true ->
  allChars (Ascii.eqb " ") post = true ->
  JS.trim (pre +:+ SUCCESS_MESSAGE +:+ post) = SUCCESS_MESSAGE
  /\ JS.trim (pre +:+ FAILED_MESSAGE +:+ post) = FAILED_MESSAGE.
Proof.
  intros Hpre Hpost. unfold JS.trim.
  split; rewrite trimStart_spaces by done.
  - change (SUCCESS_MESSAGE +:+ post)
      with (String "S" ("uccessfully applied update with" +:+ post)).
    cbn [JS.trimStart Ascii.is_space].
    change (String "S" ("uccessfully applied update with" +:+ post))
      with (SUCCESS_MESSAGE +:+ post).
    by rewrite (trimEnd_spaces SUCCESS_MESSAGE post Hpost).
  - change (FAILED_MESSAGE +:+ post)
      with (String "C" ("annot apply update with" +:+ post)).
    cbn [JS.trimStart Ascii.is_space].
    change (String "C" ("annot apply update with" +:+ post))
      with (FAILED_MESSAGE +:+ post).
    by rewrite (trimEnd_spaces FAILED_MESSAGE post Hpost).
Qed.

Lemma spaces_are_letterOrSpace pad :
  allChars (Ascii.eqb " ") pad = true -> allChars letterOrSpace pad = true.
Proof.
  apply allChars_weaken. intros c Hc. by apply Ascii.eqb_eq in Hc as <-.
Qed.

(** The verb phrase is compared after trimming: a status line whose verb
    phrase has spaces before or after it records the same status as the line
    without them. *)
Theorem padded_status_line_recognised terminated pre post hash deviceId plat
    (s : Service) :
  HMR_SUCCESS_STATUS <> 0%Z ->
  HMR_ERROR_STATUS <> 0%Z ->
  allChars (Ascii.eqb " ") pre = true ->
  allChars (Ascii.eqb " ") post = true ->
  allChars lowerOrDigit hash = true ->
  let ingest verb :=
    LogParser.state
      (LogParser.processDeviceLogResponse
         (attachToHmrStatusEvent false LogParser.emptyService).2
         (chunk terminated (statusLine (pre +:+ verb +:+ post) hash))
         deviceId plat s) in
  ingest SUCCESS_MESSAGE = setData HMR_SUCCESS_STATUS hash deviceId s
  /\ ingest FAILED_MESSAGE = setData HMR_ERROR_STATUS hash deviceId s.
Proof.
  intros Hsucc Herr Hpre Hpost Hhash ingest.
  destruct (trim_padded_messages pre post Hpre Hpost) as [Htrim1 Htrim2].
  pose proof (spaces_are_letterOrSpace pre Hpre) as Hpre'.
  pose proof (spaces_are_letterOrSpace post Hpost) as Hpost'.
  unfold ingest. split.
  - rewrite ingest_statusLine; [|by rewrite !allChars_app, Hpre', Hpost'|done].
    unfold HmrStatus.handleHmrStatusFound.
    change ([?a; ?b; ?c] !! 1%nat) with (Some b).
    cbv beta iota. rewrite Htrim1.
    rewrite decide_True by done. by rewrite truthy_nonzero.
  - rewrite ingest_statusLine; [|by rewrite !allChars_app, Hpre', Hpost'|done].
    unfold HmrStatus.handleHmrStatusFound.
    change ([?a; ?b; ?c] !! 1%nat) with (Some b).
    cbv beta iota. rewrite Htrim2.
    rewrite decide_False by done. rewrite decide_True by done.
    by rewrite truthy_nonzero.
Qed.

End StatusServiceFurther.

Lemma recorded_statuses_are_final_witness :
  HmrStatus.hashOperationStatuses
    (HmrStatus.run 2 3
       [HmrStatus.StatusFound ["l"; "Cannot apply update with"; "abc"] "dev-1";
        HmrStatus.GetHmrStatus "dev-1" "abc"; HmrStatus.Tick 0]
       HmrStatus.emptyService) !! "dev-1abc" = Some 3%Z
  /\ (3 <> 0)%Z /\ (3 = 2 \/ 3 = 3)%Z.
Proof.
  assert (H : HmrStatus.hashOperationStatuses
                (HmrStatus.run 2 3
                   [HmrStatus.StatusFound ["l"; "Cannot apply update with"; "abc"]
                      "dev-1";
                    HmrStatus.GetHmrStatus "dev-1" "abc"; HmrStatus.Tick 0]
                   HmrStatus.emptyService) !! "dev-1abc" = Some 3%Z)
    by (vm_compute; reflexivity).
  split; [exact H|].
  exact (recorded_statuses_are_final 2 3 _ "dev-1abc" 3%Z H).
Defined.

Lemma wait_resolves_at_next_firing_witness :
  HmrStatus.fresh HmrStatus.emptyService
  /\ HmrStatus.truthy
       (HmrStatus.getStatusByKey ("dev-1" +:+ "abc") HmrStatus.emptyService) = false
  /\ (3 <= 40)%nat /\ (2 <> 0)%Z
  /\ HmrStatus.promises
       (HmrStatus.tick 0
          (HmrStatus.setData 2 "abc" "dev-1"
             (Nat.iter 3 (HmrStatus.tick 0)
                (HmrStatus.getHmrStatus "dev-1" "abc" HmrStatus.emptyService).2)))
     !! 0%nat = Some (Some 2%Z).
Proof.
  assert (Hfresh : HmrStatus.fresh HmrStatus.emptyService).
  { intros h _. simpl. by rewrite !lookup_empty. }
  split; [exact Hfresh|]. split; [reflexivity|]. split; [lia|]. split; [lia|].
  exact (proj1 (proj2 (wait_resolves_at_next_firing 2 3 "dev-1" "abc"
                         HmrStatus.emptyService 3 2%Z Hfresh eq_refl
                         ltac:(lia) ltac:(lia)))).
Defined.

Lemma wait_gives_up_at_41st_firing_witness :
  HmrStatus.fresh HmrStatus.emptyService
  /\ HmrStatus.truthy
       (HmrStatus.getStatusByKey ("dev-1" +:+ "abc") HmrStatus.emptyService) = false
  /\ HmrStatus.promises
       (Nat.iter 41 (HmrStatus.tick 0)
          (HmrStatus.getHmrStatus "dev-1" "abc" HmrStatus.emptyService).2)
     !! 0%nat = Some None.
Proof.
  assert (Hfresh : HmrStatus.fresh HmrStatus.emptyService).
  { intros h _. simpl. by rewrite !lookup_empty. }
  split; [exact Hfresh|]. split; [reflexivity|].
  exact (proj1 (proj2 (wait_gives_up_at_41st_firing "dev-1" "abc"
                         HmrStatus.emptyService Hfresh eq_refl))).
Defined.


Lemma padded_status_line_recognised_witness :
  (2 <> 0)%Z /\ (3 <> 0)%Z
  /\ HmrStatus.allChars (Ascii.eqb " ") " " = true
  /\ HmrStatus.allChars (Ascii.eqb " ") "  " = true
  /\ HmrStatus.allChars HmrStatus.lowerOrDigit "abc" = true
  /\ LogParser.state
       (LogParser.processDeviceLogResponse
          (HmrStatus.attachToHmrStatusEvent 2 3 false LogParser.emptyService).2
          (HmrStatus.chunk true
             (HmrStatus.statusLine (" " +:+ HmrStatus.SUCCESS_MESSAGE +:+ "  ") "abc"))
          "dev-1" None HmrStatus.emptyService)
     = HmrStatus.setData 2 "abc" "dev-1" HmrStatus.emptyService.
Proof.
  split; [lia|]. split; [lia|]. split; [reflexivity|]. split; [reflexivity|].
  split; [reflexivity|].
  exact (proj1 (padded_status_line_recognised 2 3 true " " "  " "abc" "dev-1" None
                  HmrStatus.emptyService ltac:(lia) ltac:(lia)
                  eq_refl eq_refl eq_refl)).
Defined.

(** ** What the dispatcher tests *)

Section DispatcherSoundness.
Import LogParser.

Context {St : Type}.
Implicit Types (rules : list (string * ILogParseRule St)) (st : St).

Lemma split_lines_cons (s : string) : exists l ls, JS.split_lines s = l :: ls.
Proof.
  destruct s as [|c s]; simpl; [by eexists _, _|].
  destruct (Ascii.eqb c "010"); [by eexists _, _|].
  destruct (JS.split_lines s); by eexists _, _.
Qed.

Lemma split_lines_join (s : string) :
  String.concat (String "010" EmptyString) (JS.split_lines s) = s.
Proof.
  assert (Hcons : forall sep x y ys,
             String.concat sep (x :: y :: ys)
             = x +:+ sep +:+ String.concat sep (y :: ys)) by done.
  induction s as [|c s IH]; [done|]. simpl.
  destruct (split_lines_cons s) as (l & ls & Hs). rewrite Hs in *.
  destruct (Ascii.eqb_spec c "010") as [->|Hc].
  - by rewrite Hcons, IH.
  - destruct ls as [|l' ls]; [simpl in *; by rewrite IH|].
    rewrite Hcons in *. by rewrite append_cons, IH.
Qed.

Lemma split_lines_no_line_feed (s l : string) :
  l ∈ JS.split_lines s -> HmrStatus.allChars HmrStatus.notLineFeed l = true.
Proof.
  revert l. induction s as [|c s IH]; intros l; simpl.
  - intros H. by apply list_elem_of_singleton in H as ->.
  - destruct (Ascii.eqb c "010") eqn:Hc.
    + intros H. apply elem_of_cons in H as [->|H]; [done|by apply IH].
    + destruct (split_lines_cons s) as (l0 & ls & Hs). rewrite Hs in *.
      intros H. apply elem_of_cons in H as [->|H].
      * cbn [HmrStatus.allChars]. unfold HmrStatus.notLineFeed at 1.
        rewrite Hc. simpl. apply IH. by left.
      * apply IH. by right.
Qed.

Lemma forEachRule_tests rules l dev plat st e :
  e ∈ evaluations (forEachRule rules l dev plat st) ->
  line e = l
  /\ exists r, (rule e, r) ∈ rules /\ applies plat r = true
               /\ matched e = regex r l.
Proof.
  revert st. induction rules as [|[key r] rules IH]; intros st; simpl.
  - intros H. by apply elem_of_nil in H.
  - assert (Hrest : forall st',
               e ∈ evaluations (forEachRule rules l dev plat st') ->
               line e = l
               /\ exists r0, (rule e, r0) ∈ (key, r) :: rules
                             /\ applies plat r0 = true
                             /\ matched e = regex r0 l).
    { intros st' H. destruct (IH st' H) as (Hl & r0 & Hin & Happ & Hm).
      split; [done|]. exists r0. split; [by right|done]. }
    destruct (applies plat r) eqn:Happ; [|apply Hrest].
    assert (Hhere : forall e0,
               e0 = {| rule := key; line := l; matched := regex r l |} ->
               line e0 = l
               /\ exists r0, (rule e0, r0) ∈ (key, r) :: rules
                             /\ applies plat r0 = true
                             /\ matched e0 = regex r0 l).
    { intros e0 ->. simpl. split; [done|]. exists r. split; [by left|done]. }
    destruct (regex r l) as [m|] eqn:Hm.
    + destruct (handler r m dev st) as [[[]|err] st']; simpl.
      * intros H. apply elem_of_cons in H as [->|H]; [|by apply (Hrest st')].
        rewrite <- Hm. apply Hhere. by rewrite Hm.
      * intros H. apply list_elem_of_singleton in H as ->.
        rewrite <- Hm. apply Hhere. by rewrite Hm.
    + simpl. intros H. apply elem_of_cons in H as [->|H]; [|by apply (Hrest st)].
      rewrite <- Hm. apply Hhere. by rewrite Hm.
Qed.

Lemma forEachLine_tests rules lines dev plat st e :
  e ∈ evaluations (forEachLine rules lines dev plat st) ->
  line e ∈ lines
  /\ exists r, (rule e, r) ∈ rules /\ applies plat r = true
               /\ matched e = regex r (line e).
Proof.
  revert st. induction lines as [|l lines IH]; intros st; simpl.
  - intros H. by apply elem_of_nil in H.
  - destruct (outcome (forEachRule rules l dev plat st)) eqn:Hout; simpl.
    + intros H. apply elem_of_app in H as [H|H].
      * apply forEachRule_tests in H as (<- & Hr). split; [by left|done].
      * apply IH in H as (Hl & Hr). split; [by right|done].
    + intros H. apply forEachRule_tests in H as (<- & Hr). split; [by left|done].
Qed.

(** Whatever the handlers do, the dispatcher only tests pieces of the chunk
    between line feeds, never one with a line feed inside, and only against
    registered rules whose platform filter lets the chunk through; joining
    the pieces with line feeds gives the chunk back, so no text is dropped
    or tested twice. *)
Theorem dispatch_tests_lines_of_chunk (s : LogParserService St) message dev plat st e :
  e ∈ evaluations (processDeviceLogResponse s message dev plat st) ->
  line e ∈ JS.split_lines message
  /\ HmrStatus.allChars HmrStatus.notLineFeed (line e) = true
  /\ String.concat (String "010" EmptyString) (JS.split_lines message) = message
  /\ exists r, (rule e, r) ∈ parseRules s /\ applies plat r = true
               /\ matched e = regex r (line e).
Proof.
  intros H. apply forEachLine_tests in H as (Hl & Hr).
  split; [done|]. split; [by apply (split_lines_no_line_feed message)|].
  split; [apply split_lines_join|done].
Qed.

End DispatcherSoundness.

Lemma dispatch_tests_lines_of_chunk_witness :
  let e := {| LogParser.rule := "second"; LogParser.line := "b";
              LogParser.matched := Some ["b"] |} in
  e ∈ LogParser.evaluations
        (LogParser.processDeviceLogResponse LogParser.filteredRules
           LogParser.twoLines "dev-1" (Some "ios") false)
  /\ LogParser.line e ∈ JS.split_lines LogParser.twoLines
  /\ HmrStatus.allChars HmrStatus.notLineFeed (LogParser.line e) = true.
Proof.
  intros e.
  assert (H : e ∈ LogParser.evaluations
                    (LogParser.processDeviceLogResponse LogParser.filteredRules
                       LogParser.twoLines "dev-1" (Some "ios") false)).
  { vm_compute. right. left. }
  split; [exact H|].
  pose proof (dispatch_tests_lines_of_chunk LogParser.filteredRules
                LogParser.twoLines "dev-1" (Some "ios") false e H) as (Hl & Hc & _).
  split; [exact Hl|exact Hc].
Defined.

(** ** Payloads, sessions and syncs of the preview service, further *)

Section PreviewFurther.
Import PreviewLiveSync.

Variable host : Host.

Lemma mapM_total {A B} (f : A -> option B) (g : A -> B) (l : list A) :
  (forall x, f x = Some (g x)) -> mapM f l = Some (map g l).
Proof.
  intros Hf. induction l as [|x l IH]; [done|].
  cbn [mapM]. rewrite Hf, IH. done.
Qed.

Lemma createFilePayload_unlink f platformData projectData :
  createFilePayload host f platformData projectData UNLINK_EVENT_NAME
  = Some (unlinkEntry host projectData f).
Proof. done. Qed.

Lemma createFilePayload_change_is_Some f platformData projectData :
  is_Some (createFilePayload host f platformData projectData CHANGE_EVENT_NAME)
  <-> readable host platformData f.
Proof.
  unfold createFilePayload, readable. cbv zeta.
  destruct (isBinarySync host f).
  - destruct (readFile host f); simpl; split; intros [? ?]; by eauto.
  - destruct (readText host _); simpl; split; intros [? ?]; by eauto.
Qed.

Lemma elem_of_kept_files (filesToSync : list string) f :
  f ∈ filter (fun f => negb (bool_decide (extname host f ∈ excludedFileExtensions)))
        (filter (fun f => negb (bool_decide (basename host f ∈ excludedFiles)))
           (filter (fun f => negb (JS.includes (APP_RESOURCES_FOLDER_NAME host) f))
              (filter (fun f => negb (JS.includes (TNS_MODULES_FOLDER_NAME host) f))
                 filesToSync)))
  <-> f ∈ filesToSync /\ kept host f = true.
Proof.
  rewrite !list_elem_of_filter. unfold kept.
  rewrite !andb_true_iff, !Is_true_true. tauto.
Qed.

(** A payload is made exactly when every file to sync that passes the four
    filters can be read: one unreadable file among them drops the whole
    payload, while files that are filtered out, and files to remove, are
    never read. *)
Theorem payload_iff_kept_files_readable platformData projectData
    (filesToSync filesToRemove : list string) :
  is_Some (getFilesPayload host platformData projectData filesToSync filesToRemove)
  <-> forall f, f ∈ filesToSync -> kept host f = true ->
                readable host platformData f.
Proof.
  unfold getFilesPayload. cbv zeta.
  rewrite (mapM_total _ (unlinkEntry host projectData) filesToRemove)
    by (intros; apply createFilePayload_unlink).
  match goal with
  | |- context [mapM ?f ?l] =>
      assert (Hsome : is_Some (mapM f l)
                      <-> forall x, x ∈ filesToSync -> kept host x = true ->
                                    readable host platformData x)
  end.
  { rewrite mapM_is_Some, Forall_forall. split.
    - intros H f Hf Hkept.
      apply (createFilePayload_change_is_Some f platformData projectData).
      apply H. by apply elem_of_kept_files.
    - intros H f Hf. apply elem_of_kept_files in Hf as [Hf Hkept].
      apply (createFilePayload_change_is_Some f platformData projectData).
      by apply H. }
  rewrite <- Hsome.
  match goal with
  | |- context [mapM ?f ?l] => destruct (mapM f l) as [toSync|]; simpl
  end.
  - split; by eauto.
  - split; intros [? ?]; done.
Qed.

Lemma kept_files_filter (filesToSync : list string) :
  filter (fun f => negb (bool_decide (extname host f ∈ excludedFileExtensions)))
    (filter (fun f => negb (bool_decide (basename host f ∈ excludedFiles)))
       (filter (fun f => negb (JS.includes (APP_RESOURCES_FOLDER_NAME host) f))
          (filter (fun f => negb (JS.includes (TNS_MODULES_FOLDER_NAME host) f))
             filesToSync)))
  = filter (fun f => kept host f = true) filesToSync.
Proof.
  induction filesToSync as [|f l IH]; [done|].
  destruct (kept host f) eqn:Hk.
  - rewrite (filter_cons_True (fun f => kept host f = true)) by done.
    rewrite <- IH. unfold kept in Hk.
    rewrite !andb_true_iff in Hk. destruct Hk as [[[H1 H2] H3] H4].
    by rewrite !filter_cons_True by (by apply Is_true_true).
  - rewrite (filter_cons_False (fun f => kept host f = true)) by congruence.
    rewrite <- IH. unfold kept in Hk.
    destruct (JS.includes (TNS_MODULES_FOLDER_NAME host) f) eqn:H1; simpl in Hk.
    { rewrite (filter_cons_False _ f l); [done|]. rewrite H1. by intros []. }
    rewrite (filter_cons_True _ f l) by (by rewrite H1).
    destruct (JS.includes (APP_RESOURCES_FOLDER_NAME host) f) eqn:H2; simpl in Hk.
    { rewrite (filter_cons_False _ f); [done|]. rewrite H2. by intros []. }
    rewrite (filter_cons_True _ f) by (by rewrite H2).
    destruct (bool_decide (basename host f ∈ excludedFiles)) eqn:H3; simpl in Hk.
    { rewrite (filter_cons_False _ f); [done|]. rewrite H3. by intros []. }
    rewrite (filter_cons_True _ f) by (by rewrite H3).
    rewrite (filter_cons_False _ f); [done|].
    apply negb_false_iff in Hk. rewrite Hk. by intros [].
Qed.

Lemma getFilesPayload_kept platformData projectData
    (filesToSync filesToRemove : list string) :
  getFilesPayload host platformData projectData filesToSync filesToRemove
  = match mapM (fun f => createFilePayload host f platformData projectData
                           CHANGE_EVENT_NAME)
            (filter (fun f => kept host f = true) filesToSync) with
    | Some changes =>
        Some {| files := changes ++ map (unlinkEntry host projectData) filesToRemove;
                platform := JS.toLowerCase (normalizedPlatformName platformData) |}
    | None => None
    end.
Proof.
  unfold getFilesPayload. cbv zeta.
  rewrite (mapM_total _ (unlinkEntry host projectData) filesToRemove)
    by (intros; apply createFilePayload_unlink).
  rewrite kept_files_filter. by destruct (mapM _ _).
Qed.

Lemma change_entries platformData projectData (l : list string) changes :
  mapM (fun f => createFilePayload host f platformData projectData CHANGE_EVENT_NAME) l
  = Some changes ->
  Forall2
    (fun f e =>
       createFilePayload host f platformData projectData CHANGE_EVENT_NAME = Some e
       /\ event e = CHANGE_EVENT_NAME) l changes.
Proof.
  intros H. apply mapM_Some_1 in H.
  eapply Forall2_impl; [exact H|]. intros f e Hfe. split; [done|].
  exact (createFilePayload_event host f platformData projectData _ e Hfe).
Qed.

(** The entries of a payload are in a fixed order: one change entry for each
    file to sync that passes the filters, in the order of the files, and
    after them one unlink entry for each file to remove, in their order. An
    unlink entry has no contents and its path is relative to the app folder
    of the project. The platform of the payload is in lower case. *)
Theorem payload_entries_in_order platformData projectData
    (filesToSync filesToRemove : list string) payload :
  getFilesPayload host platformData projectData filesToSync filesToRemove
  = Some payload ->
  exists changes,
    files payload = changes ++ map (unlinkEntry host projectData) filesToRemove
    /\ Forall2
         (fun f e =>
            createFilePayload host f platformData projectData CHANGE_EVENT_NAME
            = Some e /\ event e = CHANGE_EVENT_NAME)
         (filter (fun f => kept host f = true) filesToSync) changes
    /\ platform payload = JS.toLowerCase (normalizedPlatformName platformData).
Proof.
  rewrite getFilesPayload_kept.
  destruct (mapM _ _) as [changes|] eqn:Hchanges; [|done].
  intros [= <-]. exists changes. cbn [files platform].
  split; [done|]. split; [|done]. by apply change_entries.
Qed.

(** An initial sync sends change entries only, made from the files of the
    platform's app folder; the files of the options and the answer of the
    device to [applyChanges] play no part in it. *)
Theorem initial_sync_sends_changes_only prepared applied projectFiles
    platformData projectData opts payload :
  isInitialSync opts = true ->
  syncFilesForPlatformSafe host prepared applied projectFiles platformData
    projectData opts = Some payload ->
  Forall (fun e => event e = CHANGE_EVENT_NAME) (files payload)
  /\ length (files payload) = length (filter (fun f => kept host f = true) projectFiles)
  /\ forall applied' toSync toRemove,
       syncFilesForPlatformSafe host prepared applied' projectFiles platformData
         projectData
         {| filesToSync := toSync; filesToRemove := toRemove;
            isInitialSync := true; skipPrepare := skipPrepare opts |}
       = Some payload.
Proof.
  intros Hinitial Hsync.
  assert (Hpayload : getFilesPayload host platformData projectData projectFiles []
                     = Some payload).
  { pose proof (cycle_payload_from_getFilesPayload host _ _ _ _ _ _ _ Hsync) as H.
    by rewrite Hinitial in H. }
  pose proof Hpayload as Hshape. rewrite getFilesPayload_kept in Hshape.
  destruct (mapM _ _) as [changes|] eqn:Hmade; [|done].
  injection Hshape as <-. cbn [files map] in *. rewrite app_nil_r in *.
  apply change_entries in Hmade. rename Hmade into Hchanges.
  split; [|split].
  - apply Forall_forall. intros e He.
    apply list_elem_of_lookup in He as [i Hi].
    by destruct (Forall2_lookup_r _ _ _ _ _ Hchanges Hi) as (f & _ & _ & Hev).
  - symmetry. by eapply Forall2_length.
  - intros applied' toSync toRemove. unfold syncFilesForPlatformSafe in *.
    cbn [isInitialSync skipPrepare]. rewrite Hinitial in Hsync.
    by destruct (negb (skipPrepare opts) && negb prepared).
Qed.

End PreviewFurther.

Section SessionsFurther.
Import PreviewLiveSync.

Implicit Types (s : Initializer) (e : SessionEvent).

Lemma awaiting_recorded_step s e :
  consistent s ->
  (forall p d, awaiting s !! p = Some d ->
               (p, d) ∈ started s /\ settled s !! p = None) ->
  (forall p, is_Some (settled s !! p) -> (p < nextPromise s)%nat) ->
  (forall p d, awaiting (sessionStep s e) !! p = Some d ->
               (p, d) ∈ started (sessionStep s e)
               /\ settled (sessionStep s e) !! p = None)
  /\ (forall p, is_Some (settled (sessionStep s e) !! p) ->
                (p < nextPromise (sessionStep s e))%nat).
Proof.
  intros Hcons Hrec Hold. destruct e as [[device|]|q o]; cbn [sessionStep];
    [| done |].
  - destruct (initialize_cases device s) as [->|[-> _]]; [done|]. simpl. split.
    + intros p d Hp. destruct (decide (p = nextPromise s)) as [->|Hne].
      * rewrite lookup_insert_eq in Hp. injection Hp as <-.
        split; [apply elem_of_app; right; by left|].
        destruct (settled s !! nextPromise s) eqn:Hs; [|done].
        pose proof (Hold (nextPromise s) ltac:(by eexists)). lia.
      * rewrite lookup_insert_ne in Hp by done.
        destruct (Hrec p d Hp). split; [apply elem_of_app; by left|done].
    + intros p Hp. pose proof (Hold p Hp). lia.
  - unfold settle. destruct (awaiting s !! q) as [device|] eqn:Hq; [|done].
    simpl. split.
    + intros p d Hp. destruct (decide (p = q)) as [->|Hne].
      * by rewrite lookup_delete_eq in Hp.
      * rewrite lookup_delete_ne in Hp by done.
        rewrite lookup_insert_ne by done. by apply Hrec.
    + intros p Hp. destruct (decide (p = q)) as [->|Hne].
      * by destruct (Hcons q device Hq).
      * rewrite lookup_insert_ne in Hp by done. by apply Hold.
Qed.

(** A device never has two initializations running at once: after anything
    that can happen in a session, the callback suspended for a device is the
    only one, its promise is the one in the slot of the device, it was
    started for that device and it has not settled. *)
Theorem one_initialization_per_device events p q device :
  let s := sessionRun events emptyInitializer in
  awaiting s !! p = Some device ->
  awaiting s !! q = Some device ->
  p = q
  /\ deviceInitializationPromise s !! device = Some (Some p)
  /\ (p, device) ∈ started s
  /\ settled s !! p = None.
Proof.
  assert (Hinv : forall events s,
             consistent s ->
             (forall p d, awaiting s !! p = Some d ->
                          (p, d) ∈ started s /\ settled s !! p = None) ->
             (forall p, is_Some (settled s !! p) -> (p < nextPromise s)%nat) ->
             consistent (sessionRun events s)
             /\ forall p d, awaiting (sessionRun events s) !! p = Some d ->
                            (p, d) ∈ started (sessionRun events s)
                            /\ settled (sessionRun events s) !! p = None).
  { clear. induction events as [|e events IH]; intros s Hcons Hrec Hold; [done|].
    simpl. destruct (awaiting_recorded_step s e Hcons Hrec Hold) as [Hrec' Hold'].
    apply IH; [by apply consistent_step|done|done]. }
  intros s Hp Hq.
  destruct (Hinv events emptyInitializer consistent_empty) as [Hcons Hrec].
  { intros p' d H. simpl in H. by rewrite lookup_empty in H. }
  { intros p' [o H]. simpl in H. by rewrite lookup_empty in H. }
  fold s in Hcons, Hrec.
  destruct (Hcons p device Hp) as [Hslot _].
  destruct (Hcons q device Hq) as [Hslot' _].
  destruct (Hrec p device Hp) as [Hstarted Hpending].
  split; [congruence|done].
Qed.

End SessionsFurther.

Section SyncFilesFurther.
Import PreviewLiveSync.

Variable host : Host.
Variable comparePluginsOnDevice : Device -> option string.
Variables prepared applied : string -> bool.
Variable projectFiles : string -> list string.
Variable getPlatformData : string -> IPlatformData.
Variable projectData : IProjectData.

Local Abbreviation syncFiles :=
  (syncFiles host comparePluginsOnDevice prepared applied projectFiles
     getPlatformData projectData).
Local Abbreviation compareAll := (compareAll comparePluginsOnDevice).

Lemma elem_of_uniq (l : list string) x : x ∈ uniq l <-> x ∈ l.
Proof.
  induction l as [|y l IH]; [done|]. simpl.
  rewrite !elem_of_cons, list_elem_of_filter, IH.
  destruct (decide (x = y)) as [->|Hne]; [split; intros _; by left|].
  split.
  - intros [?|[_ ?]]; [done|by right].
  - intros [?|?]; [done|]. right. by split.
Qed.

Lemma NoDup_uniq (l : list string) : NoDup (uniq l).
Proof.
  induction l as [|y l IH]; simpl; [constructor|].
  apply NoDup_cons. split.
  - rewrite list_elem_of_filter. by intros [? _].
  - by apply NoDup_filter.
Qed.

Lemma compareAll_passes (devices : list Device) :
  (forall d, d ∈ devices -> comparePluginsOnDevice d = None) ->
  compareAll devices = (devices, None).
Proof.
  induction devices as [|d devices IH]; intros H; [done|]. simpl.
  rewrite (H d) by (by left). rewrite IH; [done|].
  intros d' Hd'. apply H. by right.
Qed.

Lemma compareAll_fails (before : list Device) d after reason :
  (forall x, x ∈ before -> comparePluginsOnDevice x = None) ->
  comparePluginsOnDevice d = Some reason ->
  compareAll (before ++ d :: after) = (before ++ [d], Some reason).
Proof.
  intros Hbefore Hd. induction before as [|x before IH]; simpl.
  - by rewrite Hd.
  - rewrite (Hbefore x) by (by left). rewrite IH; [done|].
    intros x' Hx'. apply Hbefore. by right.
Qed.

(** When the plugins of every connected device compare well, [syncFiles]
    runs one cycle for each platform that has a connected device, however
    many devices of the platform there are, never two for one platform; each
    cycle prepares the platform and is given the same files. A cycle that
    resolves with nothing does not keep the later ones from running. *)
Theorem syncFiles_once_per_platform (devices devicesLater : list Device)
    (filesToSync filesToRemove : list string) :
  (forall d, d ∈ devices -> comparePluginsOnDevice d = None) ->
  let r := syncFiles devices devicesLater filesToSync filesToRemove in
  rejection r = None
  /\ compared r = devices
  /\ NoDup (map fst (synced r))
  /\ (forall p, p ∈ map fst (synced r)
                <-> exists d, d ∈ devicesLater /\ devicePlatform d = p)
  /\ forall p result,
       (p, result) ∈ synced r ->
       result
       = syncFilesForPlatformSafe host (prepared p) (applied p) (projectFiles p)
           (getPlatformData p) projectData
           {| filesToSync := filesToSync; filesToRemove := filesToRemove;
              isInitialSync := false; skipPrepare := false |}.
Proof.
  intros Hpass r. unfold r, PreviewLiveSync.syncFiles.
  rewrite compareAll_passes by done. cbn [rejection compared synced].
  rewrite map_map. cbn [fst]. rewrite map_id.
  split; [done|]. split; [done|]. split; [apply NoDup_uniq|]. split.
  - intros p. rewrite elem_of_uniq, list_elem_of_fmap. split.
    + intros (d & -> & Hd). by exists d.
    + intros (d & Hd & <-). by exists d.
  - intros p result Hin. apply list_elem_of_fmap in Hin as (p' & [= -> ->] & _).
    done.
Qed.

(** The first device whose plugins do not compare well ends [syncFiles]: the
    call is rejected with the reason of that comparison, the devices after
    it are not compared, and no platform is synced, though the warnings about
    native files have been logged. *)
Theorem syncFiles_stops_at_failed_comparison (before : list Device) d after reason
    (devicesLater : list Device) (filesToSync filesToRemove : list string) :
  (forall x, x ∈ before -> comparePluginsOnDevice x = None) ->
  comparePluginsOnDevice d = Some reason ->
  let r := syncFiles (before ++ d :: after) devicesLater filesToSync filesToRemove in
  rejection r = Some reason
  /\ compared r = before ++ [d]
  /\ synced r = []
  /\ length (warnings r)
     = length (filter (fun f => JS.includes (APP_RESOURCES_FOLDER_NAME host) f = true)
                 filesToSync).
Proof.
  intros Hbefore Hd r. unfold r, PreviewLiveSync.syncFiles.
  rewrite (compareAll_fails before d after reason) by done.
  cbn [rejection compared synced warnings].
  unfold showWarningsForNativeFiles. by rewrite length_map.
Qed.

End SyncFilesFurther.

Lemma payload_entries_in_order_witness :
  let payload :=
    {| PreviewLiveSync.files :=
         [{| PreviewLiveSync.event := PreviewLiveSync.CHANGE_EVENT_NAME;
             PreviewLiveSync.file := "main.js";
             PreviewLiveSync.binary := false;
             PreviewLiveSync.fileContents := "" |};
          {| PreviewLiveSync.event := PreviewLiveSync.UNLINK_EVENT_NAME;
             PreviewLiveSync.file := "old.js";
             PreviewLiveSync.binary := false;
             PreviewLiveSync.fileContents := "" |}];
       PreviewLiveSync.platform := "android" |} in
  PreviewLiveSync.getFilesPayload PreviewLiveSync.sampleHost
    PreviewLiveSync.samplePlatform PreviewLiveSync.sampleProject
    ["platforms/android/app/main.js"; "platforms/android/app/main.ts";
     "platforms/android/app/tns_modules/x.js"] ["project/app/old.js"]
  = Some payload
  /\ exists changes,
       PreviewLiveSync.files payload
       = changes ++ map (PreviewLiveSync.unlinkEntry PreviewLiveSync.sampleHost
                           PreviewLiveSync.sampleProject) ["project/app/old.js"].
Proof.
  intros payload. split; [vm_compute; reflexivity|].
  destruct (payload_entries_in_order PreviewLiveSync.sampleHost
              PreviewLiveSync.samplePlatform PreviewLiveSync.sampleProject
              ["platforms/android/app/main.js"; "platforms/android/app/main.ts";
               "platforms/android/app/tns_modules/x.js"] ["project/app/old.js"]
              payload ltac:(vm_compute; reflexivity)) as (changes & Hfiles & _).
  by exists changes.
Defined.

Lemma initial_sync_sends_changes_only_witness :
  let opts := {| PreviewLiveSync.filesToSync := ["a"];
                 PreviewLiveSync.filesToRemove := ["b"];
                 PreviewLiveSync.isInitialSync := true;
                 PreviewLiveSync.skipPrepare := false |} in
  let payload :=
    {| PreviewLiveSync.files :=
         [{| PreviewLiveSync.event := PreviewLiveSync.CHANGE_EVENT_NAME;
             PreviewLiveSync.file := "main.js";
             PreviewLiveSync.binary := false;
             PreviewLiveSync.fileContents := "" |}];
       PreviewLiveSync.platform := "android" |} in
  PreviewLiveSync.isInitialSync opts = true
  /\ PreviewLiveSync.syncFilesForPlatformSafe PreviewLiveSync.sampleHost true false
       ["platforms/android/app/main.js";
        "platforms/android/app/App_Resources/icon.png"]
       PreviewLiveSync.samplePlatform PreviewLiveSync.sampleProject opts
     = Some payload
  /\ Forall (fun e => PreviewLiveSync.event e = PreviewLiveSync.CHANGE_EVENT_NAME)
       (PreviewLiveSync.files payload).
Proof.
  intros opts payload. split; [reflexivity|]. split; [vm_compute; reflexivity|].
  exact (proj1 (initial_sync_sends_changes_only PreviewLiveSync.sampleHost true false
                  ["platforms/android/app/main.js";
                   "platforms/android/app/App_Resources/icon.png"]
                  PreviewLiveSync.samplePlatform PreviewLiveSync.sampleProject
                  opts payload eq_refl ltac:(vm_compute; reflexivity))).
Defined.

Lemma one_initialization_per_device_witness :
  let s := PreviewLiveSync.sessionRun
             [PreviewLiveSync.Connected (Some PreviewLiveSync.device1);
              PreviewLiveSync.Connected (Some PreviewLiveSync.device2);
              PreviewLiveSync.Connected (Some PreviewLiveSync.device1)]
             PreviewLiveSync.emptyInitializer in
  PreviewLiveSync.awaiting s !! 0%nat = Some "device-1"
  /\ (0%nat, "device-1") ∈ PreviewLiveSync.started s
  /\ PreviewLiveSync.settled s !! 0%nat = None.
Proof.
  intros s.
  assert (H : PreviewLiveSync.awaiting s !! 0%nat = Some "device-1")
    by (vm_compute; reflexivity).
  split; [exact H|].
  exact (proj2 (proj2 (one_initialization_per_device
                         [PreviewLiveSync.Connected (Some PreviewLiveSync.device1);
                          PreviewLiveSync.Connected (Some PreviewLiveSync.device2);
                          PreviewLiveSync.Connected (Some PreviewLiveSync.device1)]
                         0%nat 0%nat "device-1" H H))).
Defined.

Lemma syncFiles_once_per_platform_witness :
  let r := PreviewLiveSync.syncFiles PreviewLiveSync.sampleHost (fun _ => None)
             (fun _ => true) (fun _ => true) (fun _ => [])
             (fun _ => PreviewLiveSync.samplePlatform) PreviewLiveSync.sampleProject
             [PreviewLiveSync.device1; PreviewLiveSync.device2; PreviewLiveSync.device3]
             [PreviewLiveSync.device1; PreviewLiveSync.device2; PreviewLiveSync.device3]
             ["platforms/android/app/main.js"] [] in
  (forall d : PreviewLiveSync.Device,
      d ∈ [PreviewLiveSync.device1; PreviewLiveSync.device2; PreviewLiveSync.device3] ->
      (fun _ : PreviewLiveSync.Device => @None string) d = None)
  /\ map fst (PreviewLiveSync.synced r) = ["android"; "ios"]
  /\ NoDup (map fst (PreviewLiveSync.synced r)).
Proof.
  intros r. split; [done|]. split; [vm_compute; reflexivity|].
  exact (proj1 (proj2 (proj2
    (syncFiles_once_per_platform PreviewLiveSync.sampleHost (fun _ => None)
       (fun _ => true) (fun _ => true) (fun _ => [])
       (fun _ => PreviewLiveSync.samplePlatform) PreviewLiveSync.sampleProject
       [PreviewLiveSync.device1; PreviewLiveSync.device2; PreviewLiveSync.device3]
       [PreviewLiveSync.device1; PreviewLiveSync.device2; PreviewLiveSync.device3]
       ["platforms/android/app/main.js"] [] (fun _ _ => eq_refl))))).
Defined.

Lemma syncFiles_stops_at_failed_comparison_witness :
  let compare := fun d : PreviewLiveSync.Device =>
    if String.eqb (PreviewLiveSync.id d) "device-2"
    then Some "plugin versions differ" else None in
  let r := PreviewLiveSync.syncFiles PreviewLiveSync.sampleHost compare
             (fun _ => true) (fun _ => true) (fun _ => [])
             (fun _ => PreviewLiveSync.samplePlatform) PreviewLiveSync.sampleProject
             ([PreviewLiveSync.device1]
              ++ PreviewLiveSync.device2 :: [PreviewLiveSync.device3])
             [PreviewLiveSync.device1; PreviewLiveSync.device2; PreviewLiveSync.device3]
             ["platforms/android/app/main.js"] [] in
  (forall x, x ∈ [PreviewLiveSync.device1] -> compare x = None)
  /\ compare PreviewLiveSync.device2 = Some "plugin versions differ"
  /\ PreviewLiveSync.rejection r = Some "plugin versions differ"
  /\ PreviewLiveSync.synced r = [].
Proof.
  intros compare r.
  assert (H1 : forall x, x ∈ [PreviewLiveSync.device1] -> compare x = None).
  { intros x Hx. by apply list_elem_of_singleton in Hx as ->. }
  split; [exact H1|]. split; [reflexivity|].
  pose proof (syncFiles_stops_at_failed_comparison PreviewLiveSync.sampleHost compare
                (fun _ => true) (fun _ => true) (fun _ => [])
                (fun _ => PreviewLiveSync.samplePlatform) PreviewLiveSync.sampleProject
                [PreviewLiveSync.device1] PreviewLiveSync.device2
                [PreviewLiveSync.device3] "plugin versions differ"
                [PreviewLiveSync.device1; PreviewLiveSync.device2;
                 PreviewLiveSync.device3]
                ["platforms/android/app/main.js"] [] H1 eq_refl)
    as (Hrej & _ & Hsynced & _).
  split; [exact Hrej|exact Hsynced].
Defined.

(** One unreadable file among the files that pass the filters drops the
    payload of the whole batch. *)
Example unreadable_file_drops_payload :
  PreviewLiveSync.getFilesPayload PreviewLiveSync.lockedHost
    PreviewLiveSync.samplePlatform PreviewLiveSync.sampleProject
    ["platforms/android/app/main.js"; "platforms/android/app/locked.js"] []
  = None.
Proof. vm_compute. reflexivity. Qed.

(** ** Dependencies and commands of the npm service *)

Section NpmDependencies.
Import Npm.

Lemma lazyPlus_sound {R} cls s acc (k : list N -> list N -> option R) r :
  lazyPlus cls s acc k = Some r ->
  exists c p rest,
    s = (c :: p) ++ rest
    /\ forallb cls (c :: p) = true
    /\ k (acc ++ c :: p) rest = Some r.
Proof.
  revert acc. induction s as [|c s IH]; intros acc H; [done|].
  simpl in H. destruct (cls c) eqn:Hc; [|done].
  destruct (k (acc ++ [c]) s) as [r'|] eqn:Hk.
  - injection H as ->. exists c, [], s. simpl. by rewrite Hc.
  - destruct (IH _ H) as (c' & p & rest & -> & Hall & Hrest).
    exists c, (c' :: p), rest. split; [done|].
    split; [cbn [forallb] in *; by rewrite Hc|].
    by rewrite <- app_assoc in Hrest.
Qed.

Lemma lazyPlus_complete {R} cls p tail acc (k : list N -> list N -> option R) :
  p <> [] ->
  forallb cls p = true ->
  is_Some (k (acc ++ p) tail) ->
  is_Some (lazyPlus cls (p ++ tail) acc k).
Proof.
  revert acc. induction p as [|c p IH]; intros acc Hne Hall Hk; [done|].
  cbn [forallb] in Hall. apply andb_true_iff in Hall as [Hc Hp].
  simpl. rewrite Hc.
  destruct (k (acc ++ [c]) (p ++ tail)) eqn:Hhere; [done|].
  destruct p as [|c' p].
  - simpl in Hhere. rewrite Hhere in Hk. by destruct Hk.
  - apply IH; [done|done|]. by rewrite <- app_assoc.
Qed.

(** The shortest run the continuation accepts is the one taken. *)
Lemma lazyPlus_skip {R} cls p tail acc (k : list N -> list N -> option R) r :
  p <> [] ->
  forallb cls p = true ->
  (forall q c q', p = q ++ c :: q' -> q <> [] ->
                  k (acc ++ q) ((c :: q') ++ tail) = None) ->
  k (acc ++ p) tail = Some r ->
  lazyPlus cls (p ++ tail) acc k = Some r.
Proof.
  revert acc. induction p as [|c p IH]; intros acc Hne Hall Hshort Hk; [done|].
  cbn [forallb] in Hall. apply andb_true_iff in Hall as [Hc Hp].
  simpl. rewrite Hc. destruct p as [|c' p].
  - simpl. by rewrite Hk.
  - rewrite (Hshort [c] c' p) by done.
    apply IH; [done|done| |by rewrite <- app_assoc].
    intros q c1 q1 Hq Hqne. rewrite <- app_assoc.
    apply (Hshort (c :: q) c1 q1); [|done].
    simpl. by rewrite Hq.
Qed.

Lemma nameUnit_dot c : nameUnit c = true -> dot c = true /\ c <> commercialAt.
Proof.
  unfold nameUnit. intros H. apply andb_true_iff in H as [Hdot Hat].
  split; [done|]. intros ->. discriminate Hat.
Qed.

Lemma forallb_weaken {A} (p q : A -> bool) (l : list A) :
  (forall x, p x = true -> q x = true) -> forallb p l = true -> forallb q l = true.
Proof.
  intros Hpq. rewrite !forallb_forall. intros Hl x Hx. by apply Hpq, Hl.
Qed.

Lemma versionPart_absent (t1 : list N) (caps : gmap nat (list N)) :
  matchAt versionPart [] caps
    (fun t2 r2 c2 =>
       match r2 with
       | [] => Some (t1 ++ t2, c2)
       | _ :: _ => None
       end)
  = Some (t1, caps).
Proof. cbn [versionPart matchAt]. by rewrite app_nil_r. Qed.

Lemma versionPart_not_here (t1 : list N) (caps : gmap nat (list N)) c rest :
  c <> commercialAt ->
  matchAt versionPart (c :: rest) caps
    (fun t2 r2 c2 =>
       match r2 with
       | [] => Some (t1 ++ t2, c2)
       | _ :: _ => None
       end)
  = None.
Proof.
  intros Hc. cbn [versionPart matchAt].
  by destruct (N.eqb_spec commercialAt c) as [<-|].
Qed.

Lemma versionPart_present (t1 v : list N) (caps : gmap nat (list N)) :
  v <> [] ->
  forallb dot v = true ->
  matchAt versionPart (commercialAt :: v) caps
    (fun t2 r2 c2 =>
       match r2 with
       | [] => Some (t1 ++ t2, c2)
       | _ :: _ => None
       end)
  = Some (t1 ++ commercialAt :: v, <[2%nat := v]> caps).
Proof.
  intros Hne Hall. cbn [versionPart matchAt]. rewrite N.eqb_refl.
  rewrite <- (app_nil_r v) at 1.
  erewrite lazyPlus_skip; [reflexivity|done|done| |].
  - intros q c q' _ _. by rewrite app_nil_r.
  - done.
Qed.

(** A version tail: nothing, or [@] and a version. *)
Lemma name_run (pre body tail : list N) (caps : gmap nat (list N)) result :
  body <> [] ->
  forallb nameUnit body = true ->
  matchAt versionPart tail (<[1%nat := pre ++ body]> caps)
    (fun t2 r2 c2 =>
       match r2 with
       | [] => Some ((pre ++ body) ++ t2, c2)
       | _ :: _ => None
       end) = Some result ->
  lazyPlus dot (body ++ tail) []
    (fun text rest =>
       matchAt versionPart rest (<[1%nat := pre ++ text]> caps)
         (fun t2 r2 c2 =>
            match r2 with
            | [] => Some ((pre ++ text) ++ t2, c2)
            | _ :: _ => None
            end))
  = Some result.
Proof.
  intros Hne Hall Hfull.
  apply lazyPlus_skip; [done| | |done].
  - eapply forallb_weaken; [|exact Hall]. intros c Hc. by apply nameUnit_dot.
  - intros q c q' Hsplit _. cbn [app].
    apply versionPart_not_here.
    rewrite Hsplit, forallb_app in Hall. apply andb_true_iff in Hall as [_ Hall].
    cbn [forallb] in Hall. apply andb_true_iff in Hall as [Hc _].
    by apply nameUnit_dot.
Qed.

Lemma matchWhole_dependency scoped body tail result :
  body <> [] ->
  forallb nameUnit body = true ->
  matchAt versionPart tail (<[1%nat := packageUnits scoped body]> ∅)
    (fun t2 r2 c2 =>
       match r2 with
       | [] => Some (packageUnits scoped body ++ t2, c2)
       | _ :: _ => None
       end) = Some result ->
  matchWhole (if scoped then SCOPED_DEPENDENCY_REGEXP else DEPENDENCY_REGEXP)
    (packageUnits scoped body ++ tail) = Some result.
Proof.
  intros Hne Hall Hfull. unfold matchWhole. destruct scoped.
  - unfold packageUnits in *. cbn [app].
    unfold SCOPED_DEPENDENCY_REGEXP.
    cbn [matchAt]. rewrite N.eqb_refl.
    apply (name_run [commercialAt] body tail ∅ result); done.
  - unfold packageUnits in *. unfold DEPENDENCY_REGEXP. cbn [matchAt].
    apply (name_run [] body tail ∅ result); done.
Qed.

Lemma isScopedDependency_packageUnits scoped body tail :
  body <> [] ->
  forallb nameUnit body = true ->
  (tail = []
   \/ exists v, tail = commercialAt :: v /\ v <> [] /\ forallb dot v = true) ->
  isScopedDependency (packageUnits scoped body ++ tail) = scoped.
Proof.
  intros Hne Hall Htail. unfold isScopedDependency. destruct scoped.
  - destruct Htail as [->|(v & -> & Hv & Hdot)].
    + by rewrite (matchWhole_dependency true body []
                    (packageUnits true body, <[1%nat := packageUnits true body]> ∅)
                    Hne Hall (versionPart_absent _ _)).
    + by rewrite (matchWhole_dependency true body (commercialAt :: v)
                    (packageUnits true body ++ commercialAt :: v,
                     <[2%nat := v]> (<[1%nat := packageUnits true body]> ∅))
                    Hne Hall (versionPart_present _ _ _ Hv Hdot)).
  - destruct body as [|c body]; [done|].
    cbn [forallb] in Hall. apply andb_true_iff in Hall as [Hc _].
    apply nameUnit_dot in Hc as [_ Hc].
    unfold packageUnits, matchWhole, SCOPED_DEPENDENCY_REGEXP.
    cbn [app matchAt].
    by destruct (N.eqb_spec commercialAt c) as [<-|].
Qed.

(** A name and a version on code units: [name@version] is parsed into the
    name and the version, the name alone into the name and no version, and
    scoped names are told from the others. *)
Lemma units_round_trip scoped body v :
  body <> [] -> forallb nameUnit body = true ->
  v <> [] -> forallb dot v = true ->
  let name := packageUnits scoped body in
  getDependencyInformation (name ++ commercialAt :: v)
  = Some {| Npm.name := Some name; version := Some v |}
  /\ getDependencyInformation name
     = Some {| Npm.name := Some name; version := None |}
  /\ isScopedDependency (name ++ commercialAt :: v) = scoped
  /\ isScopedDependency name = scoped.
Proof.
  intros Hne Hall Hv Hdot. cbv zeta.
  assert (Hwith : isScopedDependency (packageUnits scoped body ++ commercialAt :: v)
                  = scoped).
  { apply isScopedDependency_packageUnits; [done|done|right; by exists v]. }
  assert (Hbare : isScopedDependency (packageUnits scoped body) = scoped).
  { rewrite <- (app_nil_r (packageUnits scoped body)).
    apply isScopedDependency_packageUnits; [done|done|by left]. }
  split; [|split; [|done]].
  - unfold getDependencyInformation. rewrite Hwith.
    rewrite (matchWhole_dependency scoped body (commercialAt :: v)
               (packageUnits scoped body ++ commercialAt :: v,
                <[2%nat := v]> (<[1%nat := packageUnits scoped body]> ∅))
               Hne Hall (versionPart_present _ _ _ Hv Hdot)).
    rewrite lookup_insert_ne, !lookup_insert_eq by done. done.
  - unfold getDependencyInformation. rewrite Hbare.
    rewrite <- (app_nil_r (packageUnits scoped body)) at 1.
    rewrite (matchWhole_dependency scoped body []
               (packageUnits scoped body, <[1%nat := packageUnits scoped body]> ∅)
               Hne Hall (versionPart_absent _ _)).
    rewrite lookup_insert_eq, lookup_insert_ne, lookup_empty by done. done.
Qed.

(** Code units of text below 128. *)
Lemma codeUnits_app a b : codeUnits (a +:+ b) = codeUnits a ++ codeUnits b.
Proof.
  unfold codeUnits. induction a as [|c a IH]; [done|].
  rewrite append_cons. simpl. by rewrite IH.
Qed.

Lemma codeUnits_nil s : codeUnits s = [] -> s = EmptyString.
Proof. by destruct s. Qed.

Lemma codeUnits_forallb (p : ascii -> bool) (q : N -> bool) s :
  (forall c, p c = true -> q (N_of_ascii c) = true) ->
  HmrStatus.allChars p s = true -> forallb q (codeUnits s) = true.
Proof.
  intros Hpq. unfold codeUnits. induction s as [|c s IH]; [done|].
  cbn [HmrStatus.allChars]. intros H. apply andb_true_iff in H as [Hc Hs].
  simpl. by rewrite (Hpq c Hc), IH.
Qed.

Lemma codeUnits_packageName scoped body :
  codeUnits (packageName scoped body) = packageUnits scoped (codeUnits body).
Proof. by destruct scoped. Qed.

(** What [executeNpmCommand] appends for a package and a version is parsed
    back into that package and that version: for a name of characters below
    128, none of them a line terminator, whose only [@] is the one a scoped
    name starts with, and such a version, [getDependencyInformation] of
    [name@version] gives the name and the version, and of the name alone the
    name and no version; and it tells scoped names from the others. *)
Theorem dependency_round_trip scoped body v (npmArguments : list string) :
  body <> EmptyString ->
  HmrStatus.allChars nameChar body = true ->
  v <> EmptyString ->
  HmrStatus.allChars versionChar v = true ->
  let name := packageName scoped body in
  executeNpmCommand npmArguments (Some name) (Some v)
  = npmArguments ++ [name +:+ "@" +:+ v]
  /\ getDependencyInformation (codeUnits (name +:+ "@" +:+ v))
     = Some {| Npm.name := Some (codeUnits name); version := Some (codeUnits v) |}
  /\ getDependencyInformation (codeUnits name)
     = Some {| Npm.name := Some (codeUnits name); version := None |}
  /\ isScopedDependency (codeUnits (name +:+ "@" +:+ v)) = scoped
  /\ isScopedDependency (codeUnits name) = scoped.
Proof.
  intros Hne Hall Hv Hdot. cbv zeta.
  assert (Hname : exists c rest, packageName scoped body = String c rest).
  { unfold packageName. destruct scoped; [by eexists _, _|].
    destruct body; [done|by eexists _, _]. }
  destruct Hname as (c0 & rest0 & Hname).
  assert (Hv' : exists c rest, v = String c rest)
    by (destruct v; [done|by eexists _, _]).
  destruct Hv' as (c1 & rest1 & Hv').
  split.
  { unfold executeNpmCommand. rewrite Hname, Hv'. reflexivity. }
  rewrite !codeUnits_app, codeUnits_packageName.
  change (codeUnits "@" ++ codeUnits v) with (commercialAt :: codeUnits v).
  apply units_round_trip.
  - intros H. by apply codeUnits_nil in H.
  - eapply codeUnits_forallb; [|exact Hall]. intros c Hc. unfold nameChar in Hc.
    apply andb_true_iff in Hc as [Hc Hat]. unfold versionChar in Hc.
    apply andb_true_iff in Hc as [_ Hc]. unfold nameUnit. by rewrite Hc, Hat.
  - intros H. by apply codeUnits_nil in H.
  - eapply codeUnits_forallb; [|exact Hdot]. intros c Hc. unfold versionChar in Hc.
    by apply andb_true_iff in Hc as [_ Hc].
Qed.

Lemma versionPart_sound (t1 rest text : list N) (caps groups : gmap nat (list N)) :
  matchAt versionPart rest caps
    (fun t2 r2 c2 =>
       match r2 with
       | [] => Some (t1 ++ t2, c2)
       | _ :: _ => None
       end) = Some (text, groups) ->
  (rest = [] /\ groups = caps)
  \/ exists c v, rest = commercialAt :: c :: v
                 /\ forallb dot (c :: v) = true
                 /\ groups = <[2%nat := c :: v]> caps.
Proof.
  cbn [versionPart matchAt]. destruct rest as [|c0 rest].
  - intros [= _ <-]. by left.
  - destruct (N.eqb_spec commercialAt c0) as [<-|Hc0]; [|done].
    match goal with
    | |- context [lazyPlus ?cls ?s ?acc ?k] =>
        destruct (lazyPlus cls s acc k) as [[text' groups']|] eqn:Hrun; [|done]
    end.
    intros [= <- <-].
    apply lazyPlus_sound in Hrun as (c & p & rest' & -> & Hall & Hk).
    destruct rest' as [|? ?]; [|done]. injection Hk as _ <-.
    right. exists c, p. rewrite app_nil_r. done.
Qed.

Lemma matchWhole_sound (scoped : bool) d text groups :
  matchWhole (if scoped then SCOPED_DEPENDENCY_REGEXP else DEPENDENCY_REGEXP) d
  = Some (text, groups) ->
  exists n,
    n <> []
    /\ groups !! 1%nat = Some n
    /\ forallb dot d = true
    /\ ((groups !! 2%nat = None /\ d = n)
        \/ exists c v, groups !! 2%nat = Some (c :: v)
                       /\ d = n ++ commercialAt :: c :: v).
Proof.
  assert (Hgen : forall pre body,
    forallb dot pre = true ->
    lazyPlus dot body []
      (fun text rest =>
         matchAt versionPart rest (<[1%nat := pre ++ text]> ∅)
           (fun t2 r2 c2 =>
              match r2 with
              | [] => Some ((pre ++ text) ++ t2, c2)
              | _ :: _ => None
              end)) = Some (text, groups) ->
    exists n,
      n <> []
      /\ groups !! 1%nat = Some n
      /\ forallb dot (pre ++ body) = true
      /\ ((groups !! 2%nat = None /\ pre ++ body = n)
          \/ exists c v, groups !! 2%nat = Some (c :: v)
                         /\ pre ++ body = n ++ commercialAt :: c :: v)).
  { intros pre body Hpre Hrun.
    apply lazyPlus_sound in Hrun as (c & p & rest & -> & Hall & Hk).
    cbn [app] in Hk.
    exists (pre ++ c :: p). split; [by destruct pre|].
    apply versionPart_sound in Hk as [[-> ->]|(c' & v & -> & Hv & ->)].
    - rewrite lookup_insert_eq, lookup_insert_ne, lookup_empty by done.
      rewrite app_nil_r, forallb_app, Hpre, Hall.
      split; [done|]. split; [done|]. by left.
    - rewrite lookup_insert_ne, !lookup_insert_eq by done.
      split; [done|]. split.
      + rewrite !forallb_app, Hpre, Hall. cbn [forallb] in *. by rewrite Hv.
      + right. exists c', v. split; [done|]. by rewrite <- !app_assoc. }
  unfold matchWhole. destruct scoped.
  - unfold SCOPED_DEPENDENCY_REGEXP. cbn [matchAt].
    destruct d as [|c d]; [done|].
    destruct (N.eqb_spec commercialAt c) as [<-|]; [|done].
    intros H. apply (Hgen [commercialAt] d); done.
  - unfold DEPENDENCY_REGEXP. cbn [matchAt]. intros H.
    apply (Hgen [] d); done.
Qed.

(** Whatever [getDependencyInformation] returns reassembles to what it was
    given: the name is there and is not empty, the version is absent or not
    empty, and the dependency is the name, followed by [@] and the version
    if there is one. It throws exactly on the empty string and on text with
    a line terminator: a line feed, a carriage return, a line separator or
    a paragraph separator. *)
Theorem dependency_information_sound (d : list N) :
  (forall info,
      getDependencyInformation d = Some info ->
      exists n,
        Npm.name info = Some n
        /\ n <> []
        /\ version info <> Some []
        /\ d = n ++ match version info with
                    | Some v => commercialAt :: v
                    | None => []
                    end)
  /\ (getDependencyInformation d = None
      <-> d = [] \/ exists c, c ∈ d /\ c ∈ [10; 13; 8232; 8233]%N).
Proof.
  assert (Hterm : forallb dot d = false
                  <-> exists c, c ∈ d /\ c ∈ [10; 13; 8232; 8233]%N).
  { clear. induction d as [|c d IH].
    - split; [done|]. intros (c & Hc & _). by apply elem_of_nil in Hc.
    - cbn [forallb]. rewrite andb_false_iff, IH. unfold dot at 1.
      rewrite negb_false_iff, !orb_true_iff, !N.eqb_eq. split.
      + intros [Hc|(c' & Hin & Hc')].
        * exists c. split; [by left|]. rewrite !elem_of_cons. tauto.
        * exists c'. split; [by right|done].
      + intros (c' & Hin & Hc'). apply elem_of_cons in Hin as [->|Hin].
        * left. rewrite !elem_of_cons in Hc'.
          destruct Hc' as [?|[?|[?|[?|Hnil]]]]; [tauto..|].
          by apply elem_of_nil in Hnil.
        * right. by exists c'. }
  rewrite <- Hterm. clear Hterm. split.
  - intros info. unfold getDependencyInformation.
    destruct (matchWhole _ d) as [[text groups]|] eqn:Hm; [|done].
    intros [= <-]. cbn [Npm.name version].
    apply matchWhole_sound in Hm as (n & Hn & H1 & _ & [[H2 ->]|(c & v & H2 & ->)]).
    + exists n. rewrite H1, H2. by rewrite app_nil_r.
    + exists n. rewrite H1, H2. done.
  - unfold getDependencyInformation. split.
    + destruct (matchWhole _ d) as [[text groups]|] eqn:Hm; [done|]. intros _.
      destruct d as [|c d]; [by left|]. right.
      destruct (forallb dot (c :: d)) eqn:Hall; [|done].
      exfalso.
      destruct (isScopedDependency (c :: d)) eqn:Hscoped.
      * unfold isScopedDependency in Hscoped. by rewrite Hm in Hscoped.
      * unfold matchWhole, DEPENDENCY_REGEXP in Hm. cbn [matchAt] in Hm.
        assert (Hsome : is_Some
          (lazyPlus dot ((c :: d) ++ []) []
             (fun text rest =>
                matchAt versionPart rest (<[1%nat := text]> ∅)
                  (fun t2 r2 c2 =>
                     match r2 with
                     | [] => Some (text ++ t2, c2)
                     | _ :: _ => None
                     end)))).
        { apply lazyPlus_complete; [done|done|].
          cbv beta. by rewrite versionPart_absent. }
        rewrite app_nil_r in Hsome. cbn [app] in Hm. rewrite Hm in Hsome.
        by destruct Hsome.
    + intros Hbad.
      destruct (matchWhole _ d) as [[text groups]|] eqn:Hm; [|done].
      apply matchWhole_sound in Hm as (n & Hn & _ & Hall & Hd).
      destruct Hbad as [->|Hbad]; [|congruence].
      destruct Hd as [[_ <-]|(c & v & _ & Hd)]; [done|]. by destruct n.
Qed.

End NpmDependencies.

Section NpmInstall.
Import Npm.

Variable spawn : list string -> option string.
Variable generateReferencesFile : option string.

Local Abbreviation install := (install spawn generateReferencesFile).

(** What [install] reports for a dependency, when writing the references
    file does not throw. The package is installed with the flags before the
    command; its types are installed exactly when they were asked for and
    the package installed, whatever the registry knows about them; the types
    are reported installed only if the package is; and an error is reported
    exactly when one of the commands that ran failed. When writing the
    references file throws, the call is rejected whatever npm did. *)
Theorem install_report (dependency : INpmDependency) :
  let run := install (Some dependency) in
  let installation :=
    npmInstall (Some (dependencyName dependency)) (dependencyVersion dependency)
      (Some ["--save"; "--save-exact"]) in
  let types := installTypingsForDependency (dependencyName dependency) in
  let typesWanted := installTypes dependency && bool_decide (spawn installation = None) in
  take 3 installation = ["--save"; "--save-exact"; "install"]
  /\ spawned run = (if typesWanted then [installation; types] else [installation])
  /\ lookedUp run
     = (if typesWanted then [TYPES_DIRECTORY +:+ dependencyName dependency] else [])
  /\ (forall err, generateReferencesFile = Some err -> settledWith run = Err err)
  /\ (generateReferencesFile = None ->
      exists report outcome,
        settledWith run = Ok report
        /\ result report = Some outcome
        /\ (isInstalled outcome = true <-> spawn installation = None)
        /\ (isTypesInstalled outcome = true
            <-> typesWanted = true /\ spawn types = None)
        /\ (isTypesInstalled outcome = true -> isInstalled outcome = true)
        /\ (error report = None
            <-> Forall (fun command => spawn command = None) (spawned run))).
Proof.
  intros run installation types typesWanted.
  unfold run, typesWanted, Npm.install, finish. fold installation. fold types.
  split.
  { unfold installation, npmInstall, executeNpmCommand.
    by destruct (JS.truthy (Some (dependencyName dependency))). }
  destruct (spawn installation) as [err1|] eqn:H1.
  - rewrite bool_decide_eq_false_2 by done. rewrite andb_false_r.
    cbn [spawned lookedUp settledWith].
    split; [done|]. split; [done|]. split; [by intros err ->|].
    intros ->. eexists _, _. do 2 (split; [reflexivity|]).
    cbn [isInstalled isTypesInstalled error].
    split; [done|]. split; [split; [done|by intros [? _]]|]. split; [done|].
    split; [done|]. intros H. apply Forall_cons in H as [H _]. congruence.
  - rewrite bool_decide_eq_true_2 by done. rewrite andb_true_r.
    destruct (installTypes dependency).
    + destruct (spawn types) as [err2|] eqn:H2;
        cbn [spawned lookedUp settledWith];
        (split; [done|]); (split; [done|]); (split; [by intros err ->|]);
        intros ->; eexists _, _; do 2 (split; [reflexivity|]);
        cbn [isInstalled isTypesInstalled error].
      * split; [done|]. split; [split; [done|by intros [_ ?]]|]. split; [done|].
        split; [done|]. intros H. apply Forall_cons in H as [_ H].
        apply Forall_cons in H as [H _]. congruence.
      * split; [done|]. split; [done|]. split; [done|].
        split; [|done]. intros _. by repeat constructor.
    + cbn [spawned lookedUp settledWith].
      split; [done|]. split; [done|]. split; [by intros err ->|].
      intros ->. eexists _, _. do 2 (split; [reflexivity|]).
      cbn [isInstalled isTypesInstalled error].
      split; [done|]. split; [split; [done|by intros [? _]]|]. split; [done|].
      split; [|done]. intros _. by repeat constructor.
Qed.

End NpmInstall.

Section PacoteOptions.
Import Pacote.

Variable fileExists : string -> bool.
Variable resolve : string -> string.

(** Which option wins. In the options [manifest] passes to pacote, an option
    of the caller wins over a proxy setting of the same name, which wins
    over the cache path, and there is always a [cache] option. In
    [extractPackage], the options of the caller reach tar only, where they
    win over [strip] and over the destination directory; pacote gets the
    base options, whatever the caller passed. *)
Theorem caller_options_win cachePath proxySettings packageName
    destinationDirectory (options : option Options) key :
  let passed := (manifest fileExists resolve cachePath proxySettings packageName
                   options).2 in
  let extraction := extractPackage fileExists resolve cachePath proxySettings
                      packageName destinationDirectory options in
  passed !! key
  = match options ≫= (fun o => o !! key) with
    | Some v => Some v
    | None =>
        match proxySettings ≫= (fun p => p !! key) with
        | Some v => Some v
        | None => if decide (key = "cache") then Some (Str cachePath) else None
        end
    end
  /\ is_Some (passed !! "cache")
  /\ destination extraction !! key
     = match options ≫= (fun o => o !! key) with
       | Some v => Some v
       | None =>
           if decide (key = "strip") then Some (Num 1)
           else if decide (key = "C") then Some (Str destinationDirectory)
           else None
       end
  /\ source extraction
     = (manifest fileExists resolve cachePath proxySettings packageName None).
Proof.
  intros passed extraction.
  assert (Hcache : forall k,
    ({["cache" := Str cachePath]} : Options) !! k
    = if decide (k = "cache") then Some (Str cachePath) else None).
  { intros k. case_decide as Hc.
    - subst k. apply lookup_singleton_eq.
    - by apply lookup_singleton_ne. }
  assert (Hbase : forall k,
    getPacoteBaseOptions cachePath proxySettings !! k
    = match proxySettings ≫= (fun p => p !! k) with
      | Some v => Some v
      | None => if decide (k = "cache") then Some (Str cachePath) else None
      end).
  { intros k. unfold getPacoteBaseOptions, extend.
    destruct proxySettings as [settings|]; cbn [mbind option_bind]; [|apply Hcache].
    destruct (settings !! k) as [v|] eqn:Hk.
    - by apply lookup_union_Some_l.
    - rewrite lookup_union_r by done. apply Hcache. }
  assert (Hpassed : forall k,
    passed !! k
    = match options ≫= (fun o => o !! k) with
      | Some v => Some v
      | None => getPacoteBaseOptions cachePath proxySettings !! k
      end).
  { intros k. unfold passed, manifest, extend. cbn [snd].
    destruct options as [o|]; cbn [mbind option_bind]; [|done].
    destruct (o !! k) as [v|] eqn:Hk.
    - by apply lookup_union_Some_l.
    - by rewrite lookup_union_r. }
  split; [by rewrite Hpassed, Hbase|]. split.
  - rewrite Hpassed, Hbase.
    destruct (options ≫= _); [done|]. destruct (proxySettings ≫= _); [done|].
    by rewrite decide_True.
  - split; [|done]. unfold extraction, extractPackage, extend. cbn [destination].
    assert (Hdefault : forall k,
      ({["strip" := Num 1; "C" := Str destinationDirectory]} : Options) !! k
      = if decide (k = "strip") then Some (Num 1)
        else if decide (k = "C") then Some (Str destinationDirectory)
        else None).
    { intros k. case_decide as Hs.
      - subst k. apply lookup_insert_eq.
      - rewrite lookup_insert_ne by done. case_decide as Hc.
        + subst k. apply lookup_singleton_eq.
        + by apply lookup_singleton_ne. }
    destruct options as [o|]; cbn [mbind option_bind]; [|apply Hdefault].
    destruct (o !! key) as [v|] eqn:Hk.
    + by apply lookup_union_Some_l.
    + rewrite lookup_union_r by done. apply Hdefault.
Qed.

End PacoteOptions.

Lemma dependency_round_trip_witness :
  "angular/core" <> EmptyString
  /\ HmrStatus.allChars Npm.nameChar "angular/core" = true
  /\ "4.0.0" <> EmptyString
  /\ HmrStatus.allChars Npm.versionChar "4.0.0" = true
  /\ Npm.getDependencyInformation (Npm.codeUnits "@angular/core@4.0.0")
     = Some {| Npm.name := Some (Npm.codeUnits "@angular/core");
               Npm.version := Some (Npm.codeUnits "4.0.0") |}
  /\ Npm.isScopedDependency (Npm.codeUnits "@angular/core@4.0.0") = true.
Proof.
  split; [done|]. split; [reflexivity|]. split; [done|]. split; [reflexivity|].
  pose proof (dependency_round_trip true "angular/core" "4.0.0" ["install"]
                ltac:(done) eq_refl ltac:(done) eq_refl) as (_ & Hparse & _ & Hscoped & _).
  split; [exact Hparse|exact Hscoped].
Defined.

Lemma dependency_information_sound_witness :
  Npm.getDependencyInformation (Npm.codeUnits "lodash@")
  = Some {| Npm.name := Some (Npm.codeUnits "lodash@"); Npm.version := None |}
  /\ (exists n,
        Some (Npm.codeUnits "lodash@") = Some n /\ n <> []
        /\ (None : option (list N)) <> Some []
        /\ Npm.codeUnits "lodash@" = n ++ [])
  /\ Npm.getDependencyInformation [] = None
  /\ Npm.getDependencyInformation (Npm.codeUnits "lodash@4" ++ [8232%N]) = None.
Proof.
  assert (H : Npm.getDependencyInformation (Npm.codeUnits "lodash@")
              = Some {| Npm.name := Some (Npm.codeUnits "lodash@");
                        Npm.version := None |})
    by (vm_compute; reflexivity).
  split; [exact H|]. split; [|split].
  - exact (proj1 (dependency_information_sound (Npm.codeUnits "lodash@")) _ H).
  - apply (proj2 (dependency_information_sound [])). by left.
  - apply (proj2 (dependency_information_sound
                    (Npm.codeUnits "lodash@4" ++ [8232%N]))).
    right. exists 8232%N. split.
    + apply elem_of_app. right. by left.
    + do 2 right. by left.
Defined.

Lemma install_report_witness :
  Npm.spawned (Npm.install Npm.typesFail None (Some Npm.lodash))
  = [["--save"; "--save-exact"; "install"; "lodash@4.17.4"];
     ["--save-dev"; "--save-exact"; "install"; "@types/lodash"]]
  /\ exists report outcome,
       Npm.settledWith (Npm.install Npm.typesFail None (Some Npm.lodash)) = Ok report
       /\ Npm.result report = Some outcome
       /\ (Npm.isTypesInstalled outcome = true -> Npm.isInstalled outcome = true).
Proof.
  split; [vm_compute; reflexivity|].
  destruct (proj2 (proj2 (proj2 (proj2 (install_report Npm.typesFail None Npm.lodash))))
              eq_refl) as (report & outcome & Hsettled & Hresult & _ & _ & Himp & _).
  by exists report, outcome.
Defined.

Lemma payload_iff_kept_files_readable_witness :
  (forall f,
      f ∈ ["platforms/android/app/main.js"; "platforms/android/app/main.ts"] ->
      PreviewLiveSync.kept PreviewLiveSync.sampleHost f = true ->
      PreviewLiveSync.readable PreviewLiveSync.sampleHost
        PreviewLiveSync.samplePlatform f)
  /\ is_Some (PreviewLiveSync.getFilesPayload PreviewLiveSync.sampleHost
                PreviewLiveSync.samplePlatform PreviewLiveSync.sampleProject
                ["platforms/android/app/main.js"; "platforms/android/app/main.ts"]
                ["project/app/old.js"]).
Proof.
  assert (H : forall f,
             f ∈ ["platforms/android/app/main.js"; "platforms/android/app/main.ts"] ->
             PreviewLiveSync.kept PreviewLiveSync.sampleHost f = true ->
             PreviewLiveSync.readable PreviewLiveSync.sampleHost
               PreviewLiveSync.samplePlatform f).
  { intros f _ _. unfold PreviewLiveSync.readable. simpl. by eexists. }
  split; [exact H|].
  exact (proj2 (payload_iff_kept_files_readable PreviewLiveSync.sampleHost
                  PreviewLiveSync.samplePlatform PreviewLiveSync.sampleProject
                  ["platforms/android/app/main.js"; "platforms/android/app/main.ts"]
                  ["project/app/old.js"]) H).
Defined.
